(** * Icelander: the connection and event management layer over ENet

    A shallow embedding of [include/icelander.hpp], [src/packet.cpp],
    [src/peer.cpp], [src/event_dispatcher.cpp] and [src/host.cpp].

    Conventions of the embedding:
    - a [size_t] or [uintN_t] is a [Z] with its wrap-around written out;
    - a byte buffer is a [list byte];
    - a nullable pointer is an [option]; the pointee of a non-null engine
      pointer is the record it designates, tagged with its address;
    - a member function that mutates its object returns the new object;
    - a call into the engine is recorded in a trace of [EngineCall]s.

    Left out: the service thread of a Host and the task scheduler of
    async.cpp (threads), [Library], and the accessors that only pass a
    field or an argument on to the engine. *)

From Stdlib Require Import ZArith Strings.Byte.
From stdpp Require Import base numbers option list strings gmap.

Local Open Scope Z_scope.

(** ** Machine integers *)

(** [size_t] is taken to be 64 bits wide (LP64 and LLP64 platforms);
    what follows depends on the width only through the wrap-around of
    sums. *)
Definition size_t_bits : Z := 64.
Definition SIZE_MAX : Z := 2 ^ size_t_bits - 1.

(** Unsigned arithmetic is modulo [2 ^ bits]. *)
Definition uint_wrap (bits : Z) (z : Z) : Z := z mod 2 ^ bits.
Definition size_t_wrap (z : Z) : Z := uint_wrap size_t_bits z.

(** A [Z] that a [uintN_t] can hold. *)
Definition uint_range (bits : Z) (z : Z) : Prop := 0 <= z < 2 ^ bits.

(** ** Object representations *)

Definition byte_of_Z (z : Z) : byte :=
  default "000"%byte (Byte.of_N (Z.to_N (z mod 256))).

Definition Z_of_byte (b : byte) : Z := Z.of_N (Byte.to_N b).

(** The [n] bytes of an unsigned integer, least significant first: what
    [write(&value, sizeof(value))] copies out of the integer on a
    little-endian host. *)
Fixpoint le_bytes (n : nat) (v : Z) : list byte :=
  match n with
  | O => []
  | S k => byte_of_Z v :: le_bytes k (v / 256)
  end.

(** The unsigned integer whose bytes [memcpy] stored, least significant
    first. *)
Fixpoint le_value (bs : list byte) : Z :=
  match bs with
  | [] => 0
  | b :: rest => Z_of_byte b + 256 * le_value rest
  end.

(** The concept [Serializable]: a trivially copyable, standard-layout type.
    Such a type has a size and an object representation; [write<T>] copies
    the representation out and [read<T>] copies it back in. *)
Class Serializable (T : Type) := {
  sizeof : nat;
  object_bytes : T -> list byte;
  object_of_bytes : list byte -> T;
  (* the values of the Rocq carrier that are values of the C++ type *)
  representable : T -> Prop
}.
Arguments sizeof T {_}.

(** What being trivially copyable gives: the representation has
    [sizeof(T)] bytes, and copying it back yields the value. *)
Class TriviallyCopyable (T : Type) `{Serializable T} := {
  object_bytes_length : forall v : T, length (object_bytes v) = sizeof T;
  object_of_bytes_inv :
    forall v : T, representable v -> object_of_bytes (object_bytes v) = v
}.

(** The fixed-width unsigned integers. *)
Record uint8_t := U8 { u8 : Z }.
Record uint16_t := U16 { u16 : Z }.
Record uint32_t := U32 { u32 : Z }.
Record uint64_t := U64 { u64 : Z }.

#[export] Instance uint8_serializable : Serializable uint8_t := {|
  sizeof := 1;
  object_bytes v := le_bytes 1 (u8 v);
  object_of_bytes bs := U8 (le_value bs);
  representable v := uint_range 8 (u8 v)
|}.

#[export] Instance uint16_serializable : Serializable uint16_t := {|
  sizeof := 2;
  object_bytes v := le_bytes 2 (u16 v);
  object_of_bytes bs := U16 (le_value bs);
  representable v := uint_range 16 (u16 v)
|}.

#[export] Instance uint32_serializable : Serializable uint32_t := {|
  sizeof := 4;
  object_bytes v := le_bytes 4 (u32 v);
  object_of_bytes bs := U32 (le_value bs);
  representable v := uint_range 32 (u32 v)
|}.

#[export] Instance uint64_serializable : Serializable uint64_t := {|
  sizeof := 8;
  object_bytes v := le_bytes 8 (u64 v);
  object_of_bytes bs := U64 (le_value bs);
  representable v := uint_range 64 (u64 v)
|}.

(** ** Outcomes of a member function

    A call returns, throws [std::runtime_error], or runs into undefined
    behaviour. The object the call ran on is kept in the first two cases:
    it outlives a thrown exception. *)
Inductive outcome (St A : Type) : Type :=
| Returned (a : A) (s : St)
| Threw (what : string) (s : St)
| Undefined.
Arguments Returned {St A} a s.
Arguments Threw {St A} what s.
Arguments Undefined {St A}.

Definition bind_outcome {St A B} (m : outcome St A)
    (k : A -> St -> outcome St B) : outcome St B :=
  match m with
  | Returned a s => k a s
  | Threw what s => Threw what s
  | Undefined => Undefined
  end.

(** A member function as an action on its object, and sequencing: the
    statements of a block run in order until one throws. *)
Definition action (St A : Type) : Type := St -> outcome St A.

Definition and_then {St A B} (m : action St A) (k : A -> action St B)
    : action St B :=
  fun s => bind_outcome (m s) k.

Definition ret {St A} (a : A) : action St A := fun s => Returned a s.

Notation "'let!' x ':=' m 'in' k" := (and_then m (fun x => k))
  (at level 10, x name, m at level 100, k at level 200).

(** ** The engine

    The header of the Transport Engine (enet.h) is not part of the
    sources: its types are declared here as the spec describes them and as
    the layer uses them. *)

Module ENet.

(** Modelled from the spec: [ENetPacket] of enet.h, with the readable
    fields of a packet handle (data, length, flags, reference count). *)
Record ENetPacket := {
  packet_addr : nat;          (* where the engine allocated it *)
  referenceCount : Z;
  flags : Z;
  data : list byte            (* dataLength is the length of data *)
}.

Definition dataLength (p : ENetPacket) : Z := Z.of_nat (length (data p)).

(** Modelled from the spec: the flag "reliable" of enet.h, the default of
    [create] and [build]. *)
Definition ENET_PACKET_FLAG_RELIABLE : Z := 1.

(** Modelled from the spec: [createPacket(bytes, len, flags) -> handle] of
    the Transport Engine (enet_packet_create is not part of the sources).
    The engine copies the bytes into a packet of its own at the address
    [alloc]; [None] is the allocation failing, a null handle. *)
Definition enet_packet_create (alloc : option nat) (bytes : list byte)
    (pflags : Z) : option ENetPacket :=
  match alloc with
  | Some a =>
      Some {| packet_addr := a; referenceCount := 0; flags := pflags;
              data := bytes |}
  | None => None
  end.

(** Modelled from the spec: [ENetPeerState] of enet.h, the ten states of
    the peer state machine, which the enumerators of [PeerState] are
    defined from one by one. *)
Inductive ENetPeerState :=
| ENET_PEER_STATE_DISCONNECTED
| ENET_PEER_STATE_CONNECTING
| ENET_PEER_STATE_ACKNOWLEDGING_CONNECT
| ENET_PEER_STATE_CONNECTION_PENDING
| ENET_PEER_STATE_CONNECTION_SUCCEEDED
| ENET_PEER_STATE_CONNECTED
| ENET_PEER_STATE_DISCONNECT_LATER
| ENET_PEER_STATE_DISCONNECTING
| ENET_PEER_STATE_ACKNOWLEDGING_DISCONNECT
| ENET_PEER_STATE_ZOMBIE.

(** Modelled from the spec: [ENetAddress] of enet.h, a resolved host and
    a port. *)
Record ENetAddress := { host : Z; port : Z }.

(** Modelled from the spec: [ENetPeer] of enet.h, with the readable fields
    of a peer handle (state, address, round-trip time). *)
Record ENetPeer := {
  peer_addr : nat;            (* where the engine keeps it *)
  state : ENetPeerState;
  address : ENetAddress;
  roundTripTime : Z
}.

(** Modelled from the spec: [ENetEventType] and [ENetEvent] of enet.h,
    what [service] gets from the engine: a type (none, connect,
    disconnect, receive), a peer, data, a channel and a packet. *)
Inductive ENetEventType :=
| ENET_EVENT_TYPE_NONE
| ENET_EVENT_TYPE_CONNECT
| ENET_EVENT_TYPE_DISCONNECT
| ENET_EVENT_TYPE_RECEIVE.

Record ENetEvent := {
  ev_type : ENetEventType;
  ev_peer : option ENetPeer;
  ev_channelID : Z;
  ev_data : Z;
  ev_packet : option ENetPacket
}.

(** The calls by which this layer acts on an engine peer or disposes of
    an engine packet, with the addresses it passes. What the engine
    answers to a call whose result the layer reads (enet_host_service,
    enet_host_connect, enet_peer_send, the address look-ups) is an
    argument of the function that makes the call. *)
Inductive EngineCall :=
| enet_peer_send (peer : nat) (channel : Z) (packet : option nat)
| enet_host_broadcast (host_ : nat) (channel : Z) (packet : option nat)
| enet_packet_destroy (packet : nat)
| enet_peer_disconnect (peer : nat) (disconnectData : Z)
| enet_peer_disconnect_now (peer : nat) (disconnectData : Z)
| enet_peer_disconnect_later (peer : nat) (disconnectData : Z)
| enet_peer_ping (peer : nat)
| enet_peer_timeout (peer : nat) (limit minimum maximum : Z)
| enet_peer_reset (peer : nat).

(** Pointer equality on engine peers. *)
Definition same_peer (a b : option ENetPeer) : bool :=
  match a, b with
  | None, None => true
  | Some x, Some y => bool_decide (peer_addr x = peer_addr y)
  | _, _ => false
  end.

(** The calls of a trace that hand the packet at [p] over to the engine or
    free it. *)
Definition disposes (p : nat) (c : EngineCall) : bool :=
  match c with
  | enet_peer_send _ _ (Some q) => bool_decide (q = p)
  | enet_host_broadcast _ _ (Some q) => bool_decide (q = p)
  | enet_packet_destroy q => bool_decide (q = p)
  | _ => false
  end.

(** The calls of a trace made on a peer. *)
Definition on_peer (c : EngineCall) : bool :=
  match c with
  | enet_peer_send _ _ _ | enet_peer_disconnect _ _
  | enet_peer_disconnect_now _ _ | enet_peer_disconnect_later _ _
  | enet_peer_ping _ | enet_peer_timeout _ _ _ _ | enet_peer_reset _ => true
  | enet_host_broadcast _ _ _ | enet_packet_destroy _ => false
  end.

End ENet.

Definition DEFAULT_FLAGS : Z := ENet.ENET_PACKET_FLAG_RELIABLE.

(** ** Packet *)

Module Packet.

Record t := { nativePacket_ : option ENet.ENetPacket }.

(** [Packet::Packet(const void*, size_t, PacketFlagsT)]: throws when the
    engine returns no packet. *)
Definition create (alloc : option nat) (packetData : list byte)
    (pflags : Z) : string + t :=
  match ENet.enet_packet_create alloc packetData pflags with
  | Some p => inr {| nativePacket_ := Some p |}
  | None => inl "Failed to create ENet packet"%string
  end.

Definition data (p : t) : list byte :=
  match nativePacket_ p with
  | None => []
  | Some n => ENet.data n
  end.

Definition size (p : t) : Z :=
  match nativePacket_ p with
  | Some n => ENet.dataLength n
  | None => 0
  end.

Definition nativeHandle (p : t) : option ENet.ENetPacket := nativePacket_ p.

(** [Packet::fromNative]: a null engine packet gives a null wrapper. *)
Definition fromNative (nativePacket : option ENet.ENetPacket) : option t :=
  match nativePacket with
  | None => None
  | Some n => Some {| nativePacket_ := Some n |}
  end.

(** [~Packet()]: the engine packet the wrapper still holds is destroyed. *)
Definition destroy (p : t) : list ENet.EngineCall :=
  match nativePacket_ p with
  | Some n => [ENet.enet_packet_destroy (ENet.packet_addr n)]
  | None => []
  end.

(** [Packet(Packet&& other)]: the new wrapper takes the handle and the
    moved-from wrapper is left with a null one. *)
Definition move (other : t) : t * t :=
  ({| nativePacket_ := nativePacket_ other |}, {| nativePacket_ := None |}).

Definition flags (p : t) : Z :=
  match nativePacket_ p with
  | Some n => ENet.flags n
  | None => 0
  end.

Definition referenceCount (p : t) : Z :=
  match nativePacket_ p with
  | Some n => ENet.referenceCount n
  | None => 0
  end.

(** [asString] and [toVector] copy the span [data()] gives. *)
Definition asString (p : t) : list byte := data p.

Definition toVector (p : t) : list byte := data p.

(** [nativePacket_ && (nativePacket_->flags & flag) != 0]. *)
Definition hasFlag (flag : Z) (p : t) : bool :=
  match nativePacket_ p with
  | Some n => bool_decide (Z.land (ENet.flags n) flag <> 0)
  | None => false
  end.

(** [resize(newSize)]: [rc] is what [enet_packet_resize] returns when it
    is called. The result is the message of the exception thrown, if one
    is. *)
Definition resize (rc : Z) (newSize : Z) (p : t) : option string :=
  match nativePacket_ p with
  | None => Some "Cannot resize null packet"%string
  | Some _ =>
      if bool_decide (rc <> 0) then Some "Failed to resize packet"%string
      else None
  end.

(** [operator=(Packet&& other)] on two distinct wrappers: the packet this
    one held is destroyed, the handle of [other] is taken and [other] is
    left with a null one. The result is this wrapper, [other], and the
    calls made. Assigning a wrapper to itself does nothing. *)
Definition move_assign (this other : t) : t * t * list ENet.EngineCall :=
  ({| nativePacket_ := nativePacket_ other |}, {| nativePacket_ := None |},
   destroy this).

Definition move_assign_self (this : t) : t * list ENet.EngineCall :=
  (this, []).

(** [template<Serializable T> Packet::create(const T&, flags)]: a packet
    over the [sizeof(T)] bytes of the value. *)
Definition create_value {T} `{Serializable T} (alloc : option nat)
    (packetData : T) (pflags : Z) : string + t :=
  create alloc (object_bytes packetData) pflags.

(** [template<Serializable T> as() -> const T&]: the value whose
    representation the first [sizeof(T)] bytes of the packet are. *)
Definition as_value (T : Type) `{Serializable T} (p : t) : string + T :=
  if bool_decide (size p < Z.of_nat (sizeof T))
  then inl "Packet too small for requested type"%string
  else inr (object_of_bytes (take (sizeof T) (data p))).

End Packet.

(** ** PacketBuilder *)

Module PacketBuilder.

Record t := { buffer_ : list byte }.

Definition new : t := {| buffer_ := [] |}.

(** [write(const void*, size_t)], [write(Span)], [write(const std::string&)]:
    [buffer_.insert(buffer_.end(), bytes, bytes + size)]. *)
Definition write (packetData : list byte) (b : t) : t :=
  {| buffer_ := buffer_ b ++ packetData |}.

(** [template<Serializable T> write(const T& value)]. *)
Definition write_value {T} `{Serializable T} (value : T) (b : t) : t :=
  write (object_bytes value) b.

(** [buffer_.push_back(value)]. *)
Definition writeUint8 (value : uint8_t) (b : t) : t :=
  {| buffer_ := buffer_ b ++ [byte_of_Z (u8 value)] |}.

Definition writeUint16 (value : uint16_t) (b : t) : t :=
  write (object_bytes value) b.

Definition writeUint32 (value : uint32_t) (b : t) : t :=
  write (object_bytes value) b.

Definition writeUint64 (value : uint64_t) (b : t) : t :=
  write (object_bytes value) b.

(** [writeUint32(static_cast<uint32_t>(str.size())); return write(str);] *)
Definition writeString (str : list byte) (b : t) : t :=
  write str
    (writeUint32 (U32 (uint_wrap 32 (Z.of_nat (length str)))) b).

Definition clear (b : t) : t := {| buffer_ := [] |}.

Definition size (b : t) : Z := Z.of_nat (length (buffer_ b)).

Definition empty (b : t) : bool := bool_decide (buffer_ b = []).

(** [data()]: the span over the buffer. *)
Definition data (b : t) : list byte := buffer_ b.

(** [build(flags)]: a new packet over a copy of the buffer; the builder is
    left as it is. *)
Definition build (alloc : option nat) (pflags : Z) (b : t)
    : string + Packet.t :=
  Packet.create alloc (buffer_ b) pflags.

End PacketBuilder.

(** ** PacketReader *)

Module PacketReader.

Record t := { data_ : list byte; position_ : Z }.

(** [PacketReader(Span<const uint8_t>)] and [PacketReader(const Packet&)]. *)
Definition of_span (packetData : list byte) : t :=
  {| data_ := packetData; position_ := 0 |}.

Definition of_packet (pkt : Packet.t) : t := of_span (Packet.data pkt).

(** [data_.size()]. *)
Definition size (r : t) : Z := Z.of_nat (length (data_ r)).

Definition position (r : t) : Z := position_ r.

(** [data_.size() - position_], in [size_t]. *)
Definition remaining (r : t) : Z := size_t_wrap (size r - position_ r).

Definition atEnd (r : t) : bool := bool_decide (position_ r >= size r).

Definition with_position (r : t) (p : Z) : t :=
  {| data_ := data_ r; position_ := p |}.

(** Reading [n] bytes at offset [off] of the span, as [std::memcpy] and the
    [std::string(const char*, size_t)] constructor do. The behaviour is
    defined only when the bytes read lie inside the span. *)
Definition copy_from (src : list byte) (off n : Z) : option (list byte) :=
  if bool_decide (off + n <= Z.of_nat (length src))
  then Some (take (Z.to_nat n) (drop (Z.to_nat off) src))
  else None.

(** [read(void* buffer, size_t size) -> bool]. The result [Some bytes] is
    [true] with [bytes] stored in the caller's buffer, [None] is [false]
    with the buffer untouched. *)
Definition read (size_ : Z) (r : t) : outcome t (option (list byte)) :=
  if bool_decide (size_t_wrap (position_ r + size_) > size r)
  then Returned None r
  else
    match copy_from (data_ r) (position_ r) size_ with
    | Some bytes =>
        Returned (Some bytes)
          (with_position r (size_t_wrap (position_ r + size_)))
    | None => Undefined
    end.

(** [readUint8]: [data_[position_++]] behind its own bound check. *)
Definition readUint8 (r : t) : outcome t uint8_t :=
  if bool_decide (position_ r >= size r)
  then Threw "Not enough data to read uint8" r
  else
    match data_ r !! Z.to_nat (position_ r) with
    | Some b =>
        Returned (U8 (Z_of_byte b))
          (with_position r (size_t_wrap (position_ r + 1)))
    | None => Undefined
    end.

(** The shape shared by [readUint16], [readUint32], [readUint64] and
    [read<T>]: [T value; if (!read(&value, sizeof(T))) throw ...; return
    value;]. *)
Definition read_object {T} `{Serializable T} (what : string) (r : t)
    : outcome t T :=
  bind_outcome (read (Z.of_nat (sizeof T)) r) (fun filled r' =>
    match filled with
    | Some bytes => Returned (object_of_bytes bytes) r'
    | None => Threw what r'
    end).

Definition readUint16 : t -> outcome t uint16_t :=
  read_object "Not enough data to read uint16".

Definition readUint32 : t -> outcome t uint32_t :=
  read_object "Not enough data to read uint32".

Definition readUint64 : t -> outcome t uint64_t :=
  read_object "Not enough data to read uint64".

(** [template<Serializable T> read() -> T]. *)
Definition read_value (T : Type) `{Serializable T} : t -> outcome t T :=
  read_object "Not enough data to read requested type".

(** [readString(size_t length)]. *)
Definition readString (length_ : Z) (r : t) : outcome t (list byte) :=
  if bool_decide (size_t_wrap (position_ r + length_) > size r)
  then Threw "Not enough data to read string" r
  else
    match copy_from (data_ r) (position_ r) length_ with
    | Some result =>
        Returned result (with_position r (size_t_wrap (position_ r + length_)))
    | None => Undefined
    end.

(** [position_ = position < data_.size() ? position : data_.size();] *)
Definition seek (position : Z) (r : t) : t :=
  with_position r
    (if bool_decide (position < size r) then position else size r).

(** [size_t newPos = position_ + bytes;
     position_ = newPos < data_.size() ? newPos : data_.size();] *)
Definition skip (bytes : Z) (r : t) : t :=
  let newPos := size_t_wrap (position_ r + bytes) in
  with_position r (if bool_decide (newPos < size r) then newPos else size r).

Definition reset (r : t) : t := with_position r 0.

Definition asString (r : t) : list byte := data_ r.

End PacketReader.

(** The reader's invariant, and the bound every span obeys: its size is a
    [size_t]. *)
Definition cursor_ok (r : PacketReader.t) : Prop :=
  0 <= PacketReader.position_ r <= PacketReader.size r.

Definition span_ok (r : PacketReader.t) : Prop :=
  PacketReader.size r <= SIZE_MAX.

(** ** examples/basic/packet_builder_example.cpp *)

Module PacketBuilderExample.

Definition message : list byte := String.list_byte_of_string "Hello, World!".

(** [builder.writeUint32(0x12345678).writeString("Hello, World!")
            .writeUint32(314159).writeUint8(255);] *)
Definition builder : PacketBuilder.t :=
  PacketBuilder.writeUint8 (U8 255)
    (PacketBuilder.writeUint32 (U32 314159)
       (PacketBuilder.writeString message
          (PacketBuilder.writeUint32 (U32 305419896) PacketBuilder.new))).

(** How the examples read a string back:
    [auto str_len = reader.readUint32();
     auto message = reader.readString(str_len);] *)
Definition read_string : action PacketReader.t (list byte) :=
  let! str_len := PacketReader.readUint32 in
  PacketReader.readString (u32 str_len).

(** The five reads of the example, in order. *)
Definition read_back
    : action PacketReader.t (uint32_t * list byte * uint32_t * uint8_t) :=
  let! magic := PacketReader.readUint32 in
  let! str_len := PacketReader.readUint32 in
  let! text := PacketReader.readString (u32 str_len) in
  let! number := PacketReader.readUint32 in
  let! max_byte := PacketReader.readUint8 in
  ret (magic, text, number, max_byte).

End PacketBuilderExample.

(** ** Messages: sequences of calls on a builder and on a reader

    A field is one call of [writeUint8], [writeUint16], [writeUint32],
    [writeUint64], [writeString] or [write(const std::string&)] with its
    argument; a message is the fields written one after the other. Its
    layout tells the reader which call gives each field back: the typed
    read, [readUint32] then [readString] for a string behind its length,
    [readString(n)] for [n] raw bytes. *)

Module Message.

Inductive field :=
| Uint8 (v : uint8_t)
| Uint16 (v : uint16_t)
| Uint32 (v : uint32_t)
| Uint64 (v : uint64_t)
| String (str : list byte)
| Raw (bytes : list byte).

Inductive kind :=
| KUint8
| KUint16
| KUint32
| KUint64
| KString
| KRaw (n : Z).

Definition kind_of (f : field) : kind :=
  match f with
  | Uint8 _ => KUint8
  | Uint16 _ => KUint16
  | Uint32 _ => KUint32
  | Uint64 _ => KUint64
  | String _ => KString
  | Raw bytes => KRaw (Z.of_nat (length bytes))
  end.

Definition write_field (b : PacketBuilder.t) (f : field) : PacketBuilder.t :=
  match f with
  | Uint8 v => PacketBuilder.writeUint8 v b
  | Uint16 v => PacketBuilder.writeUint16 v b
  | Uint32 v => PacketBuilder.writeUint32 v b
  | Uint64 v => PacketBuilder.writeUint64 v b
  | String str => PacketBuilder.writeString str b
  | Raw bytes => PacketBuilder.write bytes b
  end.

(** [builder.write...(f1).write...(f2)...]. *)
Definition write_fields (b : PacketBuilder.t) (fs : list field)
    : PacketBuilder.t :=
  foldl write_field b fs.

Definition read_field (k : kind) : action PacketReader.t field :=
  match k with
  | KUint8 => let! v := PacketReader.readUint8 in ret (Uint8 v)
  | KUint16 => let! v := PacketReader.readUint16 in ret (Uint16 v)
  | KUint32 => let! v := PacketReader.readUint32 in ret (Uint32 v)
  | KUint64 => let! v := PacketReader.readUint64 in ret (Uint64 v)
  | KString =>
      let! str_len := PacketReader.readUint32 in
      let! str := PacketReader.readString (u32 str_len) in
      ret (String str)
  | KRaw n => let! bytes := PacketReader.readString n in ret (Raw bytes)
  end.

(** The reads of a layout, in order; the first one that throws ends
    them. *)
Fixpoint read_fields (ks : list kind) : action PacketReader.t (list field) :=
  match ks with
  | [] => ret []
  | k :: rest =>
      let! f := read_field k in
      let! fs := read_fields rest in
      ret (f :: fs)
  end.

(** The number of bytes a field takes in the buffer. *)
Definition field_size (f : field) : Z :=
  match f with
  | Uint8 _ => 1
  | Uint16 _ => 2
  | Uint32 _ => 4
  | Uint64 _ => 8
  | String str => 4 + Z.of_nat (length str)
  | Raw bytes => Z.of_nat (length bytes)
  end.

Definition size_of (fs : list field) : Z :=
  foldr (fun f total => field_size f + total) 0 fs.

(** The bytes a field is in the buffer, and those of a message. *)
Definition bytes_of_field (f : field) : list byte :=
  match f with
  | Uint8 v => [byte_of_Z (u8 v)]
  | Uint16 v => le_bytes 2 (u16 v)
  | Uint32 v => le_bytes 4 (u32 v)
  | Uint64 v => le_bytes 8 (u64 v)
  | String str =>
      le_bytes 4 (uint_wrap 32 (Z.of_nat (length str))) ++ str
  | Raw bytes => bytes
  end.

Definition bytes_of (fs : list field) : list byte :=
  concat (map bytes_of_field fs).

(** The values a field of the C++ types can hold: integers in range, and
    strings whose size a [uint32_t] holds. *)
Definition field_ok (f : field) : Prop :=
  match f with
  | Uint8 v => uint_range 8 (u8 v)
  | Uint16 v => uint_range 16 (u16 v)
  | Uint32 v => uint_range 32 (u32 v)
  | Uint64 v => uint_range 64 (u64 v)
  | String str => Z.of_nat (length str) < 2 ^ 32
  | Raw _ => True
  end.

End Message.

(** ** Library (library.cpp)

    [initialized_] is the one static flag. The calls into the engine are
    recorded; [rc] is what [enet_initialize] returns when it is called. *)

Module Library.

Inductive EngineCall :=
| enet_initialize (rc : Z)
| enet_deinitialize.

Definition initialize (rc : Z) (initialized_ : bool)
    : bool * bool * list EngineCall :=
  if initialized_ then (true, true, [])
  else if bool_decide (rc = 0) then (true, true, [enet_initialize rc])
  else (false, false, [enet_initialize rc]).

Definition deinitialize (initialized_ : bool) : bool * list EngineCall :=
  if initialized_ then (false, [enet_deinitialize]) else (false, []).

Definition isInitialized (initialized_ : bool) : bool := initialized_.

(** A program's calls of [initialize] and [deinitialize], in order. *)
Inductive call :=
| Initialize (rc : Z)
| Deinitialize.

Definition step (st : bool * list EngineCall) (c : call)
    : bool * list EngineCall :=
  match c with
  | Initialize rc =>
      let '(_, flag, made) := initialize rc (fst st) in (flag, snd st ++ made)
  | Deinitialize =>
      let '(flag, made) := deinitialize (fst st) in (flag, snd st ++ made)
  end.

(** The flag and the calls made into the engine after a program that
    starts with the library not initialised. *)
Definition run (cs : list call) : bool * list EngineCall :=
  foldl step (false, []) cs.

(** What the engine is after a trace of calls from the state [up]
    (initialised or not), when the trace respects the engine's protocol:
    it is initialised only while it is down and shut down only while it
    is up. [None] is a trace that breaks the protocol. *)
Fixpoint engine_after (up : bool) (made : list EngineCall) : option bool :=
  match made with
  | [] => Some up
  | enet_initialize rc :: rest =>
      if up then None else engine_after (bool_decide (rc = 0)) rest
  | enet_deinitialize :: rest =>
      if up then engine_after false rest else None
  end.

End Library.

(** ** Owning pointers

    A [std::unique_ptr<Packet>] is an [option]: [None] is the null pointer.
    A [std::shared_ptr<Peer>] or [std::weak_ptr<Peer>] is the address of the
    Peer object it designates (for the shared pointer, [None] is null). *)

Abbreviation unique_ptr A := (option A) (only parsing).

(** [std::move(p)] into a by-value parameter: the parameter is
    move-constructed from [p], which is left null. The pair is the
    parameter and the caller's pointer afterwards. *)
Definition move_unique_ptr {A} (p : unique_ptr A) : unique_ptr A * unique_ptr A :=
  (p, None).

(** The destructor of a [unique_ptr<Packet>] deletes the wrapper it still
    owns. *)
Definition unique_ptr_destroy (p : unique_ptr Packet.t) : list ENet.EngineCall :=
  match p with
  | Some wrapper => Packet.destroy wrapper
  | None => []
  end.

(** ** Endpoint *)

Module Endpoint.

Record t := { host : string; port : Z }.

(** [toEnetAddress]: [resolve] is the engine's [enet_address_set_host]. *)
Definition toEnetAddress (resolve : string -> option Z) (e : t)
    : string + ENet.ENetAddress :=
  match resolve (host e) with
  | None => inl ("Failed to resolve hostname: " +:+ host e)%string
  | Some h => inr {| ENet.host := h; ENet.port := port e |}
  end.

(** [fromEnetAddress]: [lookup] is the engine's [enet_address_get_host]. *)
Definition fromEnetAddress (lookup : ENet.ENetAddress -> option string)
    (addr : ENet.ENetAddress) : string + t :=
  match lookup addr with
  | None => inl "Failed to get hostname from address"%string
  | Some hostname => inr {| host := hostname; port := ENet.port addr |}
  end.

End Endpoint.

(** ** Peer *)

(** [enum class PeerState]: each enumerator is defined as the engine's
    constant of the same name. *)
Module PeerState.

Inductive t :=
| disconnected
| connecting
| acknowledgingConnect
| connectionPending
| connectionSucceeded
| connected
| disconnectLater
| disconnecting
| acknowledgingDisconnect
| zombie.

#[export] Instance eq_dec : EqDecision t.
Proof. solve_decision. Defined.

(** [static_cast<PeerState>(nativePeer_->state)]: the cast keeps the value,
    so an engine state is the enumerator defined from it. *)
Definition static_cast (s : ENet.ENetPeerState) : t :=
  match s with
  | ENet.ENET_PEER_STATE_DISCONNECTED => disconnected
  | ENet.ENET_PEER_STATE_CONNECTING => connecting
  | ENet.ENET_PEER_STATE_ACKNOWLEDGING_CONNECT => acknowledgingConnect
  | ENet.ENET_PEER_STATE_CONNECTION_PENDING => connectionPending
  | ENet.ENET_PEER_STATE_CONNECTION_SUCCEEDED => connectionSucceeded
  | ENet.ENET_PEER_STATE_CONNECTED => connected
  | ENet.ENET_PEER_STATE_DISCONNECT_LATER => disconnectLater
  | ENet.ENET_PEER_STATE_DISCONNECTING => disconnecting
  | ENet.ENET_PEER_STATE_ACKNOWLEDGING_DISCONNECT => acknowledgingDisconnect
  | ENet.ENET_PEER_STATE_ZOMBIE => zombie
  end.

End PeerState.
Export (hints) PeerState.

Module Peer.

Record t := {
  nativePeer_ : option ENet.ENetPeer;
  host_ : option nat;         (* std::weak_ptr<Host>: the Host's address *)
  userData_ : option nat
}.

(** [Peer(ENetPeer* nativePeer, std::shared_ptr<Host> hostPtr)]. *)
Definition new (nativePeer : option ENet.ENetPeer) (hostPtr : option nat) : t :=
  {| nativePeer_ := nativePeer; host_ := hostPtr; userData_ := None |}.

(** What a call of [send] leaves behind: the value returned, the calls
    made into the engine, and the wrapper [pkt.release()] let go of (it is
    never deleted). *)
Record sent := {
  returned : bool;
  calls : list ENet.EngineCall;
  released : option Packet.t
}.

(** [send(ChannelIdT channel, std::unique_ptr<Packet> pkt)]; [rc] is what
    [enet_peer_send] returns. On the early return the parameter [pkt] goes
    out of scope and deletes the wrapper it owns. *)
Definition send (rc : Z) (channel : Z) (pkt : unique_ptr Packet.t) (p : t)
    : sent :=
  match nativePeer_ p, pkt with
  | Some peer, Some wrapper =>
      let nativePacket := Packet.nativeHandle wrapper in
      {| returned := bool_decide (rc = 0);
         calls := [ENet.enet_peer_send (ENet.peer_addr peer) channel
                     (ENet.packet_addr <$> nativePacket)];
         released := Some wrapper |}
  | _, _ =>
      {| returned := false; calls := unique_ptr_destroy pkt;
         released := None |}
  end.

(** [send(std::unique_ptr<Packet> pkt)]. *)
Definition send0 (rc : Z) (pkt : unique_ptr Packet.t) (p : t) : sent :=
  send rc 0 pkt p.

(** [template<typename T> send(channel, const T& packetData, flags)]: the
    packet is created first, which throws when the engine has none. *)
Definition send_data (alloc : option nat) (rc : Z) (channel : Z)
    (packetData : list byte) (pflags : Z) (p : t) : string + sent :=
  match Packet.create alloc packetData pflags with
  | inl what => inl what
  | inr pkt => inr (send rc channel (Some pkt) p)
  end.

(** [template<typename T> send(const T& packetData, flags)]:
    [return send(0, packetData, flags);] *)
Definition send_data0 (alloc : option nat) (rc : Z) (packetData : list byte)
    (pflags : Z) (p : t) : string + sent :=
  send_data alloc rc 0 packetData pflags p.

Definition disconnect (disconnectData : Z) (p : t) : list ENet.EngineCall :=
  match nativePeer_ p with
  | Some peer => [ENet.enet_peer_disconnect (ENet.peer_addr peer) disconnectData]
  | None => []
  end.

Definition disconnectNow (disconnectData : Z) (p : t) : list ENet.EngineCall :=
  match nativePeer_ p with
  | Some peer =>
      [ENet.enet_peer_disconnect_now (ENet.peer_addr peer) disconnectData]
  | None => []
  end.

Definition disconnectLater (disconnectData : Z) (p : t) : list ENet.EngineCall :=
  match nativePeer_ p with
  | Some peer =>
      [ENet.enet_peer_disconnect_later (ENet.peer_addr peer) disconnectData]
  | None => []
  end.

Definition ping (p : t) : list ENet.EngineCall :=
  match nativePeer_ p with
  | Some peer => [ENet.enet_peer_ping (ENet.peer_addr peer)]
  | None => []
  end.

(** The three durations are cast to [uint32_t]. *)
Definition timeout (timeoutLimit timeoutMinimum timeoutMaximum : Z) (p : t)
    : list ENet.EngineCall :=
  match nativePeer_ p with
  | Some peer =>
      [ENet.enet_peer_timeout (ENet.peer_addr peer)
         (uint_wrap 32 timeoutLimit) (uint_wrap 32 timeoutMinimum)
         (uint_wrap 32 timeoutMaximum)]
  | None => []
  end.

Definition reset (p : t) : list ENet.EngineCall :=
  match nativePeer_ p with
  | Some peer => [ENet.enet_peer_reset (ENet.peer_addr peer)]
  | None => []
  end.

Definition state (p : t) : PeerState.t :=
  match nativePeer_ p with
  | Some peer => PeerState.static_cast (ENet.state peer)
  | None => PeerState.disconnected
  end.

Definition endpoint (lookup : ENet.ENetAddress -> option string) (p : t)
    : string + Endpoint.t :=
  match nativePeer_ p with
  | None => inr {| Endpoint.host := ""; Endpoint.port := 0 |}
  | Some peer => Endpoint.fromEnetAddress lookup (ENet.address peer)
  end.

Definition roundTripTime (p : t) : Z :=
  match nativePeer_ p with
  | Some peer => ENet.roundTripTime peer
  | None => 0
  end.

Definition isConnected (p : t) : bool := bool_decide (state p = PeerState.connected).

Definition isConnecting (p : t) : bool :=
  let currentState := state p in
  bool_decide (currentState = PeerState.connecting)
  || bool_decide (currentState = PeerState.acknowledgingConnect)
  || bool_decide (currentState = PeerState.connectionPending)
  || bool_decide (currentState = PeerState.connectionSucceeded).

Definition isDisconnecting (p : t) : bool :=
  let currentState := state p in
  bool_decide (currentState = PeerState.disconnectLater)
  || bool_decide (currentState = PeerState.disconnecting)
  || bool_decide (currentState = PeerState.acknowledgingDisconnect).

Definition isDisconnected (p : t) : bool :=
  bool_decide (state p = PeerState.disconnected).

Definition nativeHandle (p : t) : option ENet.ENetPeer := nativePeer_ p.

(** [host_.lock()]; [alive] tells which Host objects still exist. *)
Definition hostHandle (alive : nat -> bool) (p : t) : option nat :=
  match host_ p with
  | Some h => if alive h then Some h else None
  | None => None
  end.

(** The member functions of peer.cpp as one interface: an operation with
    its arguments, and what running it on a peer gives. *)
Inductive op :=
| Send (rc : Z) (channel : Z) (pkt : unique_ptr Packet.t)
| Send0 (rc : Z) (pkt : unique_ptr Packet.t)
| Disconnect (disconnectData : Z)
| DisconnectNow (disconnectData : Z)
| DisconnectLater (disconnectData : Z)
| Ping
| Timeout (timeoutLimit timeoutMinimum timeoutMaximum : Z)
| Reset
| State
| GetEndpoint (lookup : ENet.ENetAddress -> option string)
| RoundTripTime
| IsConnected
| IsConnecting
| IsDisconnecting
| IsDisconnected
| NativeHandle
| HostHandle (alive : nat -> bool).

Inductive result :=
| Void
| Bool (b : bool)
| AState (s : PeerState.t)
| AnEndpoint (e : Endpoint.t)
| Millis (ms : Z)
| Native (h : option ENet.ENetPeer)
| AHost (h : option nat)
| Exception (what : string).

Definition run (o : op) (p : t) : result * list ENet.EngineCall :=
  match o with
  | Send rc channel pkt =>
      let r := send rc channel pkt p in (Bool (returned r), calls r)
  | Send0 rc pkt => let r := send0 rc pkt p in (Bool (returned r), calls r)
  | Disconnect d => (Void, disconnect d p)
  | DisconnectNow d => (Void, disconnectNow d p)
  | DisconnectLater d => (Void, disconnectLater d p)
  | Ping => (Void, ping p)
  | Timeout l mn mx => (Void, timeout l mn mx p)
  | Reset => (Void, reset p)
  | State => (AState (state p), [])
  | GetEndpoint lookup =>
      match endpoint lookup p with
      | inl what => (Exception what, [])
      | inr e => (AnEndpoint e, [])
      end
  | RoundTripTime => (Millis (roundTripTime p), [])
  | IsConnected => (Bool (isConnected p), [])
  | IsConnecting => (Bool (isConnecting p), [])
  | IsDisconnecting => (Bool (isDisconnecting p), [])
  | IsDisconnected => (Bool (isDisconnected p), [])
  | NativeHandle => (Native (nativeHandle p), [])
  | HostHandle alive => (AHost (hostHandle alive p), [])
  end.

(** [Peer(Peer&& other)] and [operator=(Peer&& other)] on two distinct
    objects: the handle, the host and the user data go to the new object
    and the moved-from one is left with none. The pair is the new object
    and [other] afterwards. *)
Definition move (other : t) : t * t :=
  ({| nativePeer_ := nativePeer_ other; host_ := host_ other;
      userData_ := userData_ other |},
   {| nativePeer_ := None; host_ := None; userData_ := None |}).

(** [Peer::fromNative]: no wrapper for a null engine peer. *)
Definition fromNative (nativePeer : option ENet.ENetPeer)
    (hostPtr : option nat) : option t :=
  match nativePeer with
  | None => None
  | Some _ => Some (new nativePeer hostPtr)
  end.

End Peer.

(** ** Events *)

Abbreviation shared_ptr_Peer := (option nat) (only parsing).
Abbreviation weak_ptr_Peer := nat (only parsing).

Module ConnectEvent.
Record t := {
  peerHandle : shared_ptr_Peer;
  remoteEndpoint : Endpoint.t;
  data : Z
}.
End ConnectEvent.

Module DisconnectEvent.
Record t := {
  peerHandle : shared_ptr_Peer;
  remoteEndpoint : Endpoint.t;
  data : Z
}.
End DisconnectEvent.

Module ReceiveEvent.
Record t := {
  peerHandle : shared_ptr_Peer;
  packetData : unique_ptr Packet.t;
  channel : Z                 (* ChannelIdT, a uint8_t *)
}.
End ReceiveEvent.

(** ** EventDispatcher

    A handler is a [std::function<void(const Event&)>]: user code that runs
    to completion on the application's state [App] before the call
    returns. Handlers that call the layer themselves, or throw, are those
    of [Callbacks] further down; the handlers here are the ones among
    them that only change the application's state. *)

Module EventDispatcher.

Definition Handler (App Event : Type) : Type := Event -> App -> App.

Record t (App : Type) := {
  connectHandlers_ : list (Handler App ConnectEvent.t);
  disconnectHandlers_ : list (Handler App DisconnectEvent.t);
  receiveHandlers_ : list (Handler App ReceiveEvent.t);
  channelHandlers_ : gmap Z (list (Handler App ReceiveEvent.t))
}.
Arguments connectHandlers_ {App} _.
Arguments disconnectHandlers_ {App} _.
Arguments receiveHandlers_ {App} _.
Arguments channelHandlers_ {App} _.

Section WithApp.
Context {App : Type}.

Definition new : t App :=
  {| connectHandlers_ := []; disconnectHandlers_ := [];
     receiveHandlers_ := []; channelHandlers_ := ∅ |}.

Definition onConnect (handler : Handler App ConnectEvent.t) (d : t App) : t App :=
  {| connectHandlers_ := connectHandlers_ d ++ [handler];
     disconnectHandlers_ := disconnectHandlers_ d;
     receiveHandlers_ := receiveHandlers_ d;
     channelHandlers_ := channelHandlers_ d |}.

Definition onDisconnect (handler : Handler App DisconnectEvent.t) (d : t App)
    : t App :=
  {| connectHandlers_ := connectHandlers_ d;
     disconnectHandlers_ := disconnectHandlers_ d ++ [handler];
     receiveHandlers_ := receiveHandlers_ d;
     channelHandlers_ := channelHandlers_ d |}.

Definition onReceive (handler : Handler App ReceiveEvent.t) (d : t App) : t App :=
  {| connectHandlers_ := connectHandlers_ d;
     disconnectHandlers_ := disconnectHandlers_ d;
     receiveHandlers_ := receiveHandlers_ d ++ [handler];
     channelHandlers_ := channelHandlers_ d |}.

(** [channelHandlers_[channel].push_back(std::move(handler))]: indexing
    the map creates the empty vector of a channel not yet in it. *)
Definition onReceiveChannel (channel : Z) (handler : Handler App ReceiveEvent.t)
    (d : t App) : t App :=
  {| connectHandlers_ := connectHandlers_ d;
     disconnectHandlers_ := disconnectHandlers_ d;
     receiveHandlers_ := receiveHandlers_ d;
     channelHandlers_ :=
       <[channel := default [] (channelHandlers_ d !! channel) ++ [handler]]>
         (channelHandlers_ d) |}.

Definition clearHandlers (d : t App) : t App := new.

(** [for (const auto& handler : handlers) handler(event);] *)
Definition invoke_all {Event} (handlers : list (Handler App Event))
    (event : Event) (app : App) : App :=
  foldl (fun a handler => handler event a) app handlers.

Definition dispatchConnect (d : t App) (event : ConnectEvent.t) (app : App) : App :=
  invoke_all (connectHandlers_ d) event app.

Definition dispatchDisconnect (d : t App) (event : DisconnectEvent.t)
    (app : App) : App :=
  invoke_all (disconnectHandlers_ d) event app.

Definition dispatchReceive (d : t App) (event : ReceiveEvent.t) (app : App)
    : App :=
  let app' := invoke_all (receiveHandlers_ d) event app in
  match channelHandlers_ d !! ReceiveEvent.channel event with
  | Some handlers => invoke_all handlers event app'
  | None => app'
  end.

(** Registrations, to speak of the order in which handlers were added. *)
Inductive registration :=
| OnConnect (handler : Handler App ConnectEvent.t)
| OnDisconnect (handler : Handler App DisconnectEvent.t)
| OnReceive (handler : Handler App ReceiveEvent.t)
| OnReceiveChannel (channel : Z) (handler : Handler App ReceiveEvent.t).

Definition register (d : t App) (r : registration) : t App :=
  match r with
  | OnConnect h => onConnect h d
  | OnDisconnect h => onDisconnect h d
  | OnReceive h => onReceive h d
  | OnReceiveChannel c h => onReceiveChannel c h d
  end.

(** The dispatcher after a sequence of registrations, first to last. *)
Definition register_all (d : t App) (rs : list registration) : t App :=
  foldl register d rs.

(** The global receive handlers a sequence registered, first to last. *)
Fixpoint global_receive (rs : list registration)
    : list (Handler App ReceiveEvent.t) :=
  match rs with
  | [] => []
  | OnReceive h :: rest => h :: global_receive rest
  | _ :: rest => global_receive rest
  end.

(** The handlers a sequence registered for one channel, first to last. *)
Fixpoint channel_receive (channel : Z) (rs : list registration)
    : list (Handler App ReceiveEvent.t) :=
  match rs with
  | [] => []
  | OnReceiveChannel c h :: rest =>
      if bool_decide (c = channel) then h :: channel_receive channel rest
      else channel_receive channel rest
  | _ :: rest => channel_receive channel rest
  end.

(** Handlers run one after the other: the next one starts on the state the
    previous one left. *)
Fixpoint in_sequence {Event} (handlers : list (Handler App Event))
    (event : Event) (app : App) : App :=
  match handlers with
  | [] => app
  | handler :: rest => in_sequence rest event (handler event app)
  end.

End WithApp.

Section CommandSequences.
Context {App : Type}.

(** The connect and the disconnect handlers a sequence of registrations
    registered, first to last. *)
Fixpoint connect_handlers (rs : list (@registration App))
    : list (Handler App ConnectEvent.t) :=
  match rs with
  | [] => []
  | OnConnect h :: rest => h :: connect_handlers rest
  | _ :: rest => connect_handlers rest
  end.

Fixpoint disconnect_handlers (rs : list (@registration App))
    : list (Handler App DisconnectEvent.t) :=
  match rs with
  | [] => []
  | OnDisconnect h :: rest => h :: disconnect_handlers rest
  | _ :: rest => disconnect_handlers rest
  end.

(** Registrations and calls of [clearHandlers], in the order a program
    makes them. *)
Inductive command :=
| Register (r : @registration App)
| ClearHandlers.

Definition execute (d : t App) (c : command) : t App :=
  match c with
  | Register r => register d r
  | ClearHandlers => clearHandlers d
  end.

Definition execute_all (d : t App) (cs : list command) : t App :=
  foldl execute d cs.

(** Whether a sequence of commands cleared the handlers, and the
    registrations it made since it last did. *)
Definition since_clear (cs : list command) : bool * list (@registration App) :=
  foldl (fun st c =>
           match c with
           | Register r => (fst st, snd st ++ [r])
           | ClearHandlers => (true, [])
           end)
        (false, []) cs.

End CommandSequences.

End EventDispatcher.

(** ** Host

    Peer objects live in a heap indexed by address; [make_shared] puts a
    new object at a fresh address. An object is alive while a
    [shared_ptr] designates it. The shared pointers a member function of
    [Host] holds are locals that are gone when it returns, and none is
    held where it asks whether an entry has expired (handlers do not call
    back into the Host here); the ones that last are those application
    code holds: [owns app a] says that the application state [app] holds
    a [shared_ptr] to the Peer at [a]. A [weak_ptr] to [a] has expired
    when no such pointer is left. *)

Module Host.

Record t (App : Type) := {
  self : nat;                 (* the address shared_from_this() gives *)
  nativeHost_ : option nat;
  isServer_ : bool;
  dispatcher_ : option (EventDispatcher.t App);
  peers_ : list weak_ptr_Peer;
  serviceThreadRunning_ : bool
}.
Arguments self {App} _.
Arguments nativeHost_ {App} _.
Arguments isServer_ {App} _.
Arguments dispatcher_ {App} _.
Arguments peers_ {App} _.
Arguments serviceThreadRunning_ {App} _.

(** The Host, the Peer objects, the application's state and the calls made
    into the engine so far. *)
Record World (App : Type) := {
  host : t App;
  heap : list Peer.t;
  app : App;
  trace : list ENet.EngineCall
}.
Arguments host {App} _.
Arguments heap {App} _.
Arguments app {App} _.
Arguments trace {App} _.

(** [Host(ENetHost* nativeHost, bool isServer)], the constructor behind
    createServer and createClient; [this] is where the Host is. *)
Definition create {App : Type} (this : nat) (nativeHost : option nat)
    (isServer : bool) : t App :=
  {| self := this; nativeHost_ := nativeHost; isServer_ := isServer;
     dispatcher_ := Some EventDispatcher.new; peers_ := [];
     serviceThreadRunning_ := false |}.

(** Application code running between two calls of the layer. *)
Definition with_app {App : Type} (w : World App) (a : App) : World App :=
  {| host := host w; heap := heap w; app := a; trace := trace w |}.

(** Every entry of the registry designates an object of the heap, and no
    two entries designate the same one. *)
Definition registry_ok {App : Type} (w : World App) : Prop :=
  NoDup (peers_ (host w))
  /\ Forall (fun e => (e < length (heap w))%nat) (peers_ (host w)).

Section WithApp.
Context {App : Type} (owns : App -> nat -> bool).

Definition with_peers (h : t App) (ps : list weak_ptr_Peer) : t App :=
  {| self := self h; nativeHost_ := nativeHost_ h; isServer_ := isServer_ h;
     dispatcher_ := dispatcher_ h; peers_ := ps;
     serviceThreadRunning_ := serviceThreadRunning_ h |}.

Definition with_host (w : World App) (h : t App) : World App :=
  {| host := h; heap := heap w; app := app w; trace := trace w |}.

(** [std::make_shared<Peer>(nativePeer, shared_from_this())]. *)
Definition make_shared (obj : Peer.t) (objs : list Peer.t)
    : nat * list Peer.t :=
  (length objs, objs ++ [obj]).

(** [weakPeer.expired()] and [weakPeer.lock()]. *)
Definition expired (a : App) (weakPeer : weak_ptr_Peer) : bool :=
  negb (owns a weakPeer).

Definition lock (a : App) (weakPeer : weak_ptr_Peer) : shared_ptr_Peer :=
  if owns a weakPeer then Some weakPeer else None.

(** [connect]: [resolve] is the engine's [enet_address_set_host] and
    [nativePeer] what [enet_host_connect] returned ([channels] and
    [connectData] only go to that call). The value is the shared pointer
    handed to the caller. *)
Definition connect (resolve : string -> option Z)
    (nativePeer : option ENet.ENetPeer) (remoteEndpoint : Endpoint.t)
    (w : World App) : outcome (World App) shared_ptr_Peer :=
  match nativeHost_ (host w) with
  | None => Threw "Invalid host" w
  | Some _ =>
      match Endpoint.toEnetAddress resolve remoteEndpoint with
      | inl what => Threw what w
      | inr _ =>
          match nativePeer with
          | None => Threw "Failed to initiate connection" w
          | Some _ =>
              let '(peerWrapper, objs) :=
                make_shared (Peer.new nativePeer (Some (self (host w))))
                  (heap w) in
              Returned (Some peerWrapper)
                {| host := with_peers (host w) (peers_ (host w) ++ [peerWrapper]);
                   heap := objs; app := app w; trace := trace w |}
          end
      end
  end.

(** [peerCount]: the loop counting the entries that have not expired. *)
Definition peerCount (w : World App) : Z :=
  foldl (fun count weakPeer =>
           if expired (app w) weakPeer then count else count + 1)
        0 (peers_ (host w)).

(** The loop of [getPeers]: an entry that locks is pushed on activePeers
    and kept, an expired one is erased. The pair is activePeers and what
    is left of peers_. *)
Fixpoint getPeers_loop (a : App) (entries : list weak_ptr_Peer)
    : list nat * list weak_ptr_Peer :=
  match entries with
  | [] => ([], [])
  | weakPeer :: rest =>
      let '(activePeers, kept) := getPeers_loop a rest in
      match lock a weakPeer with
      | Some peerPtr => (peerPtr :: activePeers, weakPeer :: kept)
      | None => (activePeers, kept)
      end
  end.

Definition getPeers (w : World App) : list nat * World App :=
  let '(activePeers, kept) := getPeers_loop (app w) (peers_ (host w)) in
  (activePeers, with_host w (with_peers (host w) kept)).

(** [peerPtr->nativeHandle() == nativePeer] on the object at [a]. *)
Definition wraps (objs : list Peer.t) (nativePeer : option ENet.ENetPeer)
    (a : nat) : bool :=
  match objs !! a with
  | Some obj => ENet.same_peer (Peer.nativeHandle obj) nativePeer
  | None => false
  end.

(** The loop of [findPeerByNative]: the first live wrapper of the engine
    peer, or null. *)
Fixpoint first_wrapping (objs : list Peer.t)
    (nativePeer : option ENet.ENetPeer) (peers : list nat) : shared_ptr_Peer :=
  match peers with
  | [] => None
  | peerPtr :: rest =>
      if wraps objs nativePeer peerPtr then Some peerPtr
      else first_wrapping objs nativePeer rest
  end.

Definition findPeerByNative (nativePeer : option ENet.ENetPeer)
    (w : World App) : shared_ptr_Peer * World App :=
  let '(peers, w') := getPeers w in
  (first_wrapping (heap w) nativePeer peers, w').

(** The address of the engine peer an event names; dereferencing a null
    [event.peer] is undefined. *)
Definition peer_address (event : ENet.ENetEvent) : option ENet.ENetAddress :=
  ENet.address <$> ENet.ev_peer event.

(** [processEvent]. The value is the Packet wrapper the call built over
    the event's packet, if it built one; the wrapper is deleted, and the
    engine packet with it, when the ReceiveEvent goes out of scope. *)
Definition processEvent (lookup : ENet.ENetAddress -> option string)
    (event : ENet.ENetEvent) (w : World App)
    : outcome (World App) (unique_ptr Packet.t) :=
  match dispatcher_ (host w) with
  | None => Returned None w
  | Some dispatcher =>
      match ENet.ev_type event with
      | ENet.ENET_EVENT_TYPE_CONNECT =>
          let '(peerWrapper, objs) :=
            make_shared (Peer.new (ENet.ev_peer event) (Some (self (host w))))
              (heap w) in
          let w1 :=
            {| host := with_peers (host w) (peers_ (host w) ++ [peerWrapper]);
               heap := objs; app := app w; trace := trace w |} in
          match peer_address event with
          | None => Undefined
          | Some addr =>
              match Endpoint.fromEnetAddress lookup addr with
              | inl what => Threw what w1
              | inr remote =>
                  let connectEvt :=
                    {| ConnectEvent.peerHandle := Some peerWrapper;
                       ConnectEvent.remoteEndpoint := remote;
                       ConnectEvent.data := ENet.ev_data event |} in
                  Returned None
                    {| host := host w1; heap := heap w1;
                       app := EventDispatcher.dispatchConnect dispatcher
                                connectEvt (app w1);
                       trace := trace w1 |}
              end
          end
      | ENet.ENET_EVENT_TYPE_DISCONNECT =>
          let '(peerWrapper, w1) := findPeerByNative (ENet.ev_peer event) w in
          match peerWrapper with
          | None => Returned None w1
          | Some _ =>
              match peer_address event with
              | None => Undefined
              | Some addr =>
                  match Endpoint.fromEnetAddress lookup addr with
                  | inl what => Threw what w1
                  | inr remote =>
                      let disconnectEvt :=
                        {| DisconnectEvent.peerHandle := peerWrapper;
                           DisconnectEvent.remoteEndpoint := remote;
                           DisconnectEvent.data := ENet.ev_data event |} in
                      Returned None
                        {| host := host w1; heap := heap w1;
                           app := EventDispatcher.dispatchDisconnect dispatcher
                                    disconnectEvt (app w1);
                           trace := trace w1 |}
                  end
              end
          end
      | ENet.ENET_EVENT_TYPE_RECEIVE =>
          let '(peerWrapper, w1) := findPeerByNative (ENet.ev_peer event) w in
          match peerWrapper, ENet.ev_packet event with
          | Some _, Some _ =>
              let packetWrapper := Packet.fromNative (ENet.ev_packet event) in
              let receiveEvt :=
                {| ReceiveEvent.peerHandle := peerWrapper;
                   ReceiveEvent.packetData := packetWrapper;
                   ReceiveEvent.channel := ENet.ev_channelID event |} in
              Returned packetWrapper
                {| host := host w1; heap := heap w1;
                   app := EventDispatcher.dispatchReceive dispatcher
                            receiveEvt (app w1);
                   trace := trace w1 ++ unique_ptr_destroy packetWrapper |}
          | _, _ => Returned None w1
          end
      | ENet.ENET_EVENT_TYPE_NONE => Returned None w
      end
  end.

(** [service(timeout)]: [result] and [event] are what [enet_host_service]
    gave within the timeout. The value is the result and the wrapper
    [processEvent] built. *)
Definition service (lookup : ENet.ENetAddress -> option string)
    (result : Z) (event : ENet.ENetEvent) (w : World App)
    : outcome (World App) (Z * unique_ptr Packet.t) :=
  match nativeHost_ (host w) with
  | None => Returned (0, None) w
  | Some _ =>
      if bool_decide (result > 0)
      then bind_outcome (processEvent lookup event w)
             (fun wrapped w' => Returned (result, wrapped) w')
      else Returned (result, None) w
  end.

(** What a call of [broadcast] leaves behind. *)
Record broadcast_result := {
  calls : list ENet.EngineCall;
  released : option Packet.t
}.

(** [broadcast(ChannelIdT channel, std::unique_ptr<Packet> pkt)]. *)
Definition broadcast (channel : Z) (pkt : unique_ptr Packet.t) (h : t App)
    : broadcast_result :=
  match nativeHost_ h, pkt with
  | Some nativeHost, Some wrapper =>
      let nativePacket := Packet.nativeHandle wrapper in
      {| calls := [ENet.enet_host_broadcast nativeHost channel
                     (ENet.packet_addr <$> nativePacket)];
         released := Some wrapper |}
  | _, _ => {| calls := unique_ptr_destroy pkt; released := None |}
  end.

(** [broadcast(std::unique_ptr<Packet> pkt)]. *)
Definition broadcast0 (pkt : unique_ptr Packet.t) (h : t App)
    : broadcast_result :=
  broadcast 0 pkt h.

(** [flush()]: the engine is asked to send what is queued, if there is a
    host. The result is whether [enet_host_flush] is called. *)
Definition flush (h : t App) : bool :=
  match nativeHost_ h with
  | Some _ => true
  | None => false
  end.

Definition isServer (h : t App) : bool := isServer_ h.

Definition isClient (h : t App) : bool := negb (isServer_ h).

(** The loop of [findPeer] over the peers [getPeers()] gave, in the world
    [getPeers()] left: the first one whose endpoint has the host and the
    port asked for. [endpoint()] is called for the host and, when the
    hosts are equal, once more for the port; both calls give the same
    endpoint, or throw. An entry that locked designates a live object. *)
Fixpoint first_at (lookup : ENet.ENetAddress -> option string)
    (remoteEndpoint : Endpoint.t) (w' : World App) (peers : list nat)
    : outcome (World App) shared_ptr_Peer :=
  match peers with
  | [] => Returned None w'
  | peerPtr :: rest =>
      match heap w' !! peerPtr with
      | None => Undefined
      | Some obj =>
          match Peer.endpoint lookup obj with
          | inl what => Threw what w'
          | inr e =>
              if bool_decide (Endpoint.host e = Endpoint.host remoteEndpoint)
                 && bool_decide (Endpoint.port e = Endpoint.port remoteEndpoint)
              then Returned (Some peerPtr) w'
              else first_at lookup remoteEndpoint w' rest
          end
      end
  end.

Definition findPeer (lookup : ENet.ENetAddress -> option string)
    (remoteEndpoint : Endpoint.t) (w : World App)
    : outcome (World App) shared_ptr_Peer :=
  let '(peers, w') := getPeers w in
  first_at lookup remoteEndpoint w' peers.

(** The calls a program makes on a Host, with what the engine answers to
    each, and the steps of application code in between. *)
Inductive op :=
| Connect (resolve : string -> option Z) (nativePeer : option ENet.ENetPeer)
    (remoteEndpoint : Endpoint.t)
| Service (lookup : ENet.ENetAddress -> option string) (result : Z)
    (event : ENet.ENetEvent)
| GetPeers
| FindPeer (lookup : ENet.ENetAddress -> option string)
    (remoteEndpoint : Endpoint.t)
| Application (code : App -> App).

(** The world a call leaves, whether it returned or threw (the program
    catches what is thrown and goes on); there is none after a call whose
    behaviour is undefined. *)
Definition world_after {A : Type} (o : outcome (World App) A)
    : option (World App) :=
  match o with
  | Returned _ w' => Some w'
  | Threw _ w' => Some w'
  | Undefined => None
  end.

Definition step (w : World App) (o : op) : option (World App) :=
  match o with
  | Connect resolve nativePeer remoteEndpoint =>
      world_after (connect resolve nativePeer remoteEndpoint w)
  | Service lookup result event =>
      world_after (service lookup result event w)
  | GetPeers => Some (snd (getPeers w))
  | FindPeer lookup remoteEndpoint =>
      world_after (findPeer lookup remoteEndpoint w)
  | Application code => Some (with_app w (code (app w)))
  end.

(** The world after a program's calls, first to last. *)
Fixpoint run (w : World App) (ops : list op) : option (World App) :=
  match ops with
  | [] => Some w
  | o :: rest =>
      match step w o with
      | Some w' => run w' rest
      | None => None
      end
  end.

(** The events that name an engine peer; the engine gives no other with a
    Connect or a Disconnect. *)
Definition names_peer (o : op) : Prop :=
  match o with
  | Service _ _ event => is_Some (ENet.ev_peer event)
  | _ => True
  end.

End WithApp.

End Host.

(** ** Handlers that call the layer

    A [std::function<void(const Event&)>] holds any code. The handlers of
    the examples send on the event's peer, count and list the peers of
    the Host and broadcast; a handler can also throw. Such a handler is a
    step on the whole world, which returns or throws. What it cannot do
    is register or clear handlers while it runs: the loops of the
    dispatcher run over the vectors these calls change, and make no
    allowance for it. So the handlers are not part of the world a handler
    acts on, and [processEvent] takes what [dispatcher_] points to as an
    argument. *)

Module Callbacks.

Definition Handler (App Event : Type) : Type :=
  Event -> action (Host.World App) unit.

Record t (App : Type) := {
  connectHandlers_ : list (Handler App ConnectEvent.t);
  disconnectHandlers_ : list (Handler App DisconnectEvent.t);
  receiveHandlers_ : list (Handler App ReceiveEvent.t);
  channelHandlers_ : gmap Z (list (Handler App ReceiveEvent.t))
}.
Arguments connectHandlers_ {App} _.
Arguments disconnectHandlers_ {App} _.
Arguments receiveHandlers_ {App} _.
Arguments channelHandlers_ {App} _.

Section WithApp.
Context {App : Type} (owns : App -> nat -> bool).

(** [for (const auto& handler : handlers) handler(event);] a handler that
    throws ends the loop, and the handlers after it do not run. *)
Fixpoint invoke_all {Event} (handlers : list (Handler App Event))
    (event : Event) : action (Host.World App) unit :=
  match handlers with
  | [] => ret tt
  | handler :: rest =>
      and_then (handler event) (fun _ => invoke_all rest event)
  end.

Definition dispatchConnect (d : t App) (event : ConnectEvent.t)
    : action (Host.World App) unit :=
  invoke_all (connectHandlers_ d) event.

Definition dispatchDisconnect (d : t App) (event : DisconnectEvent.t)
    : action (Host.World App) unit :=
  invoke_all (disconnectHandlers_ d) event.

Definition dispatchReceive (d : t App) (event : ReceiveEvent.t)
    : action (Host.World App) unit :=
  and_then (invoke_all (receiveHandlers_ d) event) (fun _ =>
    match channelHandlers_ d !! ReceiveEvent.channel event with
    | Some handlers => invoke_all handlers event
    | None => ret tt
    end).

(** The end of the scope of a ReceiveEvent: the Packet wrapper it owns is
    deleted, whether the scope is left by a return or by an exception. *)
Definition leave_scope (packetWrapper : unique_ptr Packet.t)
    (w : Host.World App) : Host.World App :=
  {| Host.host := Host.host w; Host.heap := Host.heap w; Host.app := Host.app w;
     Host.trace := Host.trace w ++ unique_ptr_destroy packetWrapper |}.

(** [processEvent], with [dispatcher_] the dispatcher the pointer of that
    name designates, [None] for a null pointer. *)
Definition processEvent (lookup : ENet.ENetAddress -> option string)
    (dispatcher_ : option (t App)) (event : ENet.ENetEvent)
    (w : Host.World App) : outcome (Host.World App) (unique_ptr Packet.t) :=
  match dispatcher_ with
  | None => Returned None w
  | Some dispatcher =>
      match ENet.ev_type event with
      | ENet.ENET_EVENT_TYPE_CONNECT =>
          let '(peerWrapper, objs) :=
            Host.make_shared
              (Peer.new (ENet.ev_peer event) (Some (Host.self (Host.host w))))
              (Host.heap w) in
          let w1 :=
            {| Host.host :=
                 Host.with_peers (Host.host w)
                   (Host.peers_ (Host.host w) ++ [peerWrapper]);
               Host.heap := objs; Host.app := Host.app w;
               Host.trace := Host.trace w |} in
          match Host.peer_address event with
          | None => Undefined
          | Some addr =>
              match Endpoint.fromEnetAddress lookup addr with
              | inl what => Threw what w1
              | inr remote =>
                  let connectEvt :=
                    {| ConnectEvent.peerHandle := Some peerWrapper;
                       ConnectEvent.remoteEndpoint := remote;
                       ConnectEvent.data := ENet.ev_data event |} in
                  bind_outcome (dispatchConnect dispatcher connectEvt w1)
                    (fun _ w2 => Returned None w2)
              end
          end
      | ENet.ENET_EVENT_TYPE_DISCONNECT =>
          let '(peerWrapper, w1) :=
            Host.findPeerByNative owns (ENet.ev_peer event) w in
          match peerWrapper with
          | None => Returned None w1
          | Some _ =>
              match Host.peer_address event with
              | None => Undefined
              | Some addr =>
                  match Endpoint.fromEnetAddress lookup addr with
                  | inl what => Threw what w1
                  | inr remote =>
                      let disconnectEvt :=
                        {| DisconnectEvent.peerHandle := peerWrapper;
                           DisconnectEvent.remoteEndpoint := remote;
                           DisconnectEvent.data := ENet.ev_data event |} in
                      bind_outcome
                        (dispatchDisconnect dispatcher disconnectEvt w1)
                        (fun _ w2 => Returned None w2)
                  end
              end
          end
      | ENet.ENET_EVENT_TYPE_RECEIVE =>
          let '(peerWrapper, w1) :=
            Host.findPeerByNative owns (ENet.ev_peer event) w in
          match peerWrapper, ENet.ev_packet event with
          | Some _, Some _ =>
              let packetWrapper := Packet.fromNative (ENet.ev_packet event) in
              let receiveEvt :=
                {| ReceiveEvent.peerHandle := peerWrapper;
                   ReceiveEvent.packetData := packetWrapper;
                   ReceiveEvent.channel := ENet.ev_channelID event |} in
              match dispatchReceive dispatcher receiveEvt w1 with
              | Returned _ w2 =>
                  Returned packetWrapper (leave_scope packetWrapper w2)
              | Threw what w2 => Threw what (leave_scope packetWrapper w2)
              | Undefined => Undefined
              end
          | _, _ => Returned None w1
          end
      | ENet.ENET_EVENT_TYPE_NONE => Returned None w
      end
  end.

(** [service(timeout)], as [Host.service]. *)
Definition service (lookup : ENet.ENetAddress -> option string)
    (dispatcher_ : option (t App)) (result : Z) (event : ENet.ENetEvent)
    (w : Host.World App) : outcome (Host.World App) (Z * unique_ptr Packet.t) :=
  match Host.nativeHost_ (Host.host w) with
  | None => Returned (0, None) w
  | Some _ =>
      if bool_decide (result > 0)
      then bind_outcome (processEvent lookup dispatcher_ event w)
             (fun wrapped w' => Returned (result, wrapped) w')
      else Returned (result, None) w
  end.

(** A handler that only changes the application's state, as a handler of
    this kind, and a dispatcher of such handlers. *)
Definition of_pure {Event} (handler : EventDispatcher.Handler App Event)
    : Handler App Event :=
  fun event w => Returned tt (Host.with_app w (handler event (Host.app w))).

Definition of_dispatcher (d : EventDispatcher.t App) : t App :=
  {| connectHandlers_ := of_pure <$> EventDispatcher.connectHandlers_ d;
     disconnectHandlers_ := of_pure <$> EventDispatcher.disconnectHandlers_ d;
     receiveHandlers_ := of_pure <$> EventDispatcher.receiveHandlers_ d;
     channelHandlers_ :=
       fmap (M := gmap Z) (fmap of_pure) (EventDispatcher.channelHandlers_ d) |}.

End WithApp.

End Callbacks.

(** The entries of a registry that some shared pointer still designates. *)
Definition live_entries {App : Type} (owns : App -> nat -> bool) (a : App)
    (entries : list nat) : list nat :=
  filter (fun e => owns a e = true) entries.

(** ** Application code used to observe the layer *)

(** A handler that only writes its name at the end of a log. *)
Definition note {Event : Type} (name : string)
    : EventDispatcher.Handler (list string) Event :=
  fun _ log => log ++ [name].

(** An application that keeps the shared pointers it is given in a list:
    it owns the Peer objects in that list. *)
Definition keeps (held : list nat) (a : nat) : bool := bool_decide (a ∈ held).

(** A connect handler that keeps the event's peerHandle. *)
Definition keep_peer : EventDispatcher.Handler (list nat) ConnectEvent.t :=
  fun event held =>
    match ConnectEvent.peerHandle event with
    | Some a => held ++ [a]
    | None => held
    end.

(** A receive handler that logs the event's peerHandle as one it was
    given again. *)
Definition keep_sender : EventDispatcher.Handler (list nat) ReceiveEvent.t :=
  fun event held => held ++ option_list (ReceiveEvent.peerHandle event).





(** An engine peer in the connected state, at an address of its own. *)
Definition engine_peer (where_ : nat) (port : Z) : ENet.ENetPeer :=
  {| ENet.peer_addr := where_; ENet.state := ENet.ENET_PEER_STATE_CONNECTED;
     ENet.address := {| ENet.host := 2130706433; ENet.port := port |};
     ENet.roundTripTime := 0 |}.

(** A server with two connected peers, whose application keeps the
    wrappers of both. *)
Definition two_peer_server : Host.World (list nat) :=
  {| Host.host :=
       {| Host.self := 0; Host.nativeHost_ := Some 9%nat;
          Host.isServer_ := true;
          Host.dispatcher_ :=
            Some (EventDispatcher.onReceive keep_sender
                    (EventDispatcher.onConnect keep_peer EventDispatcher.new));
          Host.peers_ := [0; 1]%nat; Host.serviceThreadRunning_ := false |};
     Host.heap :=
       [Peer.new (Some (engine_peer 1 4001)) (Some 0%nat);
        Peer.new (Some (engine_peer 2 4002)) (Some 0%nat)];
     Host.app := [0; 1]%nat; Host.trace := [] |}.

(** The engine's name look-up in the examples: every peer is on the same
    machine. *)
Definition localhost (addr : ENet.ENetAddress) : option string :=
  Some "127.0.0.1"%string.

(** ** How a world grows

    What the calls on a Host keep of the world they start in: the Peer
    objects made so far and the calls made so far stay as they are, the
    Host keeps its address, its engine host and its role, and an entry of
    the registry is an old entry or designates a new object. *)
Definition grows_from {App : Type} (w w' : Host.World App) : Prop :=
  Host.heap w `prefix_of` Host.heap w'
  /\ Host.trace w `prefix_of` Host.trace w'
  /\ Host.self (Host.host w') = Host.self (Host.host w)
  /\ Host.nativeHost_ (Host.host w') = Host.nativeHost_ (Host.host w)
  /\ Host.isServer_ (Host.host w') = Host.isServer_ (Host.host w)
  /\ Host.dispatcher_ (Host.host w') = Host.dispatcher_ (Host.host w)
  /\ (forall e, e ∈ Host.peers_ (Host.host w') ->
        e ∈ Host.peers_ (Host.host w) \/ (length (Host.heap w) <= e)%nat).

(** The Peer object at [a] answers [endpoint()] with the host and the
    port of [remote], or with another endpoint. *)
Definition is_at (lookup : ENet.ENetAddress -> option string)
    (remote : Endpoint.t) (objs : list Peer.t) (a : nat) : Prop :=
  exists obj e,
    objs !! a = Some obj /\ Peer.endpoint lookup obj = inr e
    /\ Endpoint.host e = Endpoint.host remote
    /\ Endpoint.port e = Endpoint.port remote.

Definition is_elsewhere (lookup : ENet.ENetAddress -> option string)
    (remote : Endpoint.t) (objs : list Peer.t) (a : nat) : Prop :=
  exists obj e,
    objs !! a = Some obj /\ Peer.endpoint lookup obj = inr e
    /\ ~ (Endpoint.host e = Endpoint.host remote
          /\ Endpoint.port e = Endpoint.port remote).

(** ** What the operations of a Peer answer on a null handle

    Failure or the neutral value of the result type for each member
    function of peer.cpp, with the calls made into the engine: none on a
    peer; [send] deletes the packet it was given. *)
Definition invalid_handle_answer (o : Peer.op) (p : Peer.t)
    : Peer.result * list ENet.EngineCall :=
  match o with
  | Peer.Send _ _ pkt | Peer.Send0 _ pkt =>
      (Peer.Bool false, unique_ptr_destroy pkt)
  | Peer.Disconnect _ | Peer.DisconnectNow _ | Peer.DisconnectLater _
  | Peer.Ping | Peer.Timeout _ _ _ | Peer.Reset => (Peer.Void, [])
  | Peer.State => (Peer.AState PeerState.disconnected, [])
  | Peer.GetEndpoint _ =>
      (Peer.AnEndpoint {| Endpoint.host := ""; Endpoint.port := 0 |}, [])
  | Peer.RoundTripTime => (Peer.Millis 0, [])
  | Peer.IsConnected | Peer.IsConnecting | Peer.IsDisconnecting =>
      (Peer.Bool false, [])
  | Peer.IsDisconnected => (Peer.Bool true, [])
  | Peer.NativeHandle => (Peer.Native None, [])
  | Peer.HostHandle alive => (Peer.AHost (Peer.hostHandle alive p), [])
  end.

(** * Properties *)

(** ** Bytes and object representations *)

Lemma Z_of_byte_range (b : byte) : 0 <= Z_of_byte b < 256.
Proof.
  unfold Z_of_byte. pose proof (Byte.to_N_bounded b). lia.
Qed.

Lemma Z_of_byte_of_Z (z : Z) : Z_of_byte (byte_of_Z z) = z mod 256.
Proof.
  unfold Z_of_byte, byte_of_Z.
  pose proof (Z.mod_pos_bound z 256 ltac:(lia)) as Hm.
  destruct (Byte.of_N (Z.to_N (z mod 256))) as [b|] eqn:E; simpl.
  - apply Byte.to_of_N in E. rewrite E. apply Z2N.id. lia.
  - apply Byte.of_N_None_iff in E. lia.
Qed.

Lemma byte_of_Z_of_byte (b : byte) : byte_of_Z (Z_of_byte b) = b.
Proof.
  unfold byte_of_Z.
  rewrite Z.mod_small by apply Z_of_byte_range.
  unfold Z_of_byte. rewrite N2Z.id, Byte.of_to_N. reflexivity.
Qed.

Lemma length_le_bytes (n : nat) (v : Z) : length (le_bytes n v) = n.
Proof.
  revert v. induction n as [|k IH]; intros v; simpl; [reflexivity|].
  now rewrite IH.
Qed.

Lemma le_value_le_bytes (n : nat) (v : Z) :
  le_value (le_bytes n v) = v mod 2 ^ (8 * Z.of_nat n).
Proof.
  revert v. induction n as [|k IH]; intros v.
  - simpl. now rewrite Z.mod_1_r.
  - cbn [le_bytes le_value]. rewrite Z_of_byte_of_Z, IH.
    replace (8 * Z.of_nat (S k)) with (8 + 8 * Z.of_nat k) by lia.
    rewrite Z.pow_add_r by lia. change (2 ^ 8) with 256.
    rewrite Z.rem_mul_r by lia. reflexivity.
Qed.

Lemma le_value_le_bytes_id (n : nat) (v : Z) :
  uint_range (8 * Z.of_nat n) v -> le_value (le_bytes n v) = v.
Proof.
  intros Hv. rewrite le_value_le_bytes. apply Z.mod_small. exact Hv.
Qed.

Lemma uint8_trivially_copyable : TriviallyCopyable uint8_t.
Proof.
  split.
  - intros v. apply length_le_bytes.
  - intros [v] Hv. change (U8 (le_value (le_bytes 1 v)) = U8 v).
    f_equal. apply le_value_le_bytes_id. exact Hv.
Qed.

Lemma uint16_trivially_copyable : TriviallyCopyable uint16_t.
Proof.
  split.
  - intros v. apply length_le_bytes.
  - intros [v] Hv. change (U16 (le_value (le_bytes 2 v)) = U16 v).
    f_equal. apply le_value_le_bytes_id. exact Hv.
Qed.

Lemma uint32_trivially_copyable : TriviallyCopyable uint32_t.
Proof.
  split.
  - intros v. apply length_le_bytes.
  - intros [v] Hv. change (U32 (le_value (le_bytes 4 v)) = U32 v).
    f_equal. apply le_value_le_bytes_id. exact Hv.
Qed.

Lemma uint64_trivially_copyable : TriviallyCopyable uint64_t.
Proof.
  split.
  - intros v. apply length_le_bytes.
  - intros [v] Hv. change (U64 (le_value (le_bytes 8 v)) = U64 v).
    f_equal. apply le_value_le_bytes_id. exact Hv.
Qed.

#[export] Existing Instances uint8_trivially_copyable
  uint16_trivially_copyable uint32_trivially_copyable
  uint64_trivially_copyable.

(** ** The reader's arithmetic *)

Lemma size_t_wrap_small (z : Z) : 0 <= z <= SIZE_MAX -> size_t_wrap z = z.
Proof.
  intros Hz. unfold size_t_wrap, uint_wrap. apply Z.mod_small.
  unfold SIZE_MAX in Hz. lia.
Qed.

Lemma size_t_wrap_range (z : Z) : 0 <= size_t_wrap z <= SIZE_MAX.
Proof.
  unfold size_t_wrap, uint_wrap, SIZE_MAX, size_t_bits.
  pose proof (Z.mod_pos_bound z (2 ^ 64) ltac:(lia)). lia.
Qed.

Lemma size_nonneg (r : PacketReader.t) : 0 <= PacketReader.size r.
Proof. unfold PacketReader.size. lia. Qed.

Lemma copy_from_middle (before middle after : list byte) :
  PacketReader.copy_from (before ++ middle ++ after)
    (Z.of_nat (length before)) (Z.of_nat (length middle)) = Some middle.
Proof.
  unfold PacketReader.copy_from.
  rewrite bool_decide_eq_true_2 by (rewrite !length_app; lia).
  rewrite !Nat2Z.id, drop_app_length, take_app_length. reflexivity.
Qed.

(** Reading back, at the offset they were appended at, the bytes of a
    write. *)
Lemma read_middle (before middle after : list byte) :
  Z.of_nat (length (before ++ middle ++ after)) <= SIZE_MAX ->
  PacketReader.read (Z.of_nat (length middle))
    {| PacketReader.data_ := before ++ middle ++ after;
       PacketReader.position_ := Z.of_nat (length before) |}
  = Returned (Some middle)
      {| PacketReader.data_ := before ++ middle ++ after;
         PacketReader.position_ :=
           Z.of_nat (length before) + Z.of_nat (length middle) |}.
Proof.
  intros Hfit. unfold PacketReader.read, PacketReader.size. cbn.
  rewrite !length_app in Hfit.
  rewrite size_t_wrap_small by lia.
  rewrite bool_decide_eq_false_2 by (rewrite !length_app; lia).
  rewrite copy_from_middle. reflexivity.
Qed.

(** ** Framing round trip *)

(** Seeking to the size a builder had leads to the offset of what was
    appended next. *)
Lemma seek_to_offset (before rest : list byte) :
  PacketReader.seek (Z.of_nat (length before))
    (PacketReader.of_span (before ++ rest))
  = {| PacketReader.data_ := before ++ rest;
       PacketReader.position_ := Z.of_nat (length before) |}.
Proof.
  unfold PacketReader.seek, PacketReader.of_span, PacketReader.with_position,
    PacketReader.size. cbn. f_equal.
  case_bool_decide as Hlt; [reflexivity|].
  rewrite length_app in *. lia.
Qed.

(** [T value; read(&value, sizeof(T))] after [write(&value, sizeof(T))]. *)
Lemma read_object_round_trip (T : Type) `{TriviallyCopyable T}
    (what : string) (before after : list byte) (v : T) :
  representable v ->
  Z.of_nat (length (before ++ object_bytes v ++ after)) <= SIZE_MAX ->
  PacketReader.read_object what
    {| PacketReader.data_ := before ++ object_bytes v ++ after;
       PacketReader.position_ := Z.of_nat (length before) |}
  = Returned v
      {| PacketReader.data_ := before ++ object_bytes v ++ after;
         PacketReader.position_ :=
           Z.of_nat (length before) + Z.of_nat (sizeof T) |}.
Proof.
  intros Hv Hfit. unfold PacketReader.read_object.
  rewrite <- (object_bytes_length v).
  rewrite read_middle by exact Hfit. cbn.
  now rewrite object_of_bytes_inv.
Qed.

(** [data_[position_++]] after [buffer_.push_back(value)]. *)
Lemma readUint8_round_trip (before after : list byte) (v : uint8_t) :
  uint_range 8 (u8 v) ->
  Z.of_nat (length (before ++ [byte_of_Z (u8 v)] ++ after)) <= SIZE_MAX ->
  PacketReader.readUint8
    {| PacketReader.data_ := before ++ [byte_of_Z (u8 v)] ++ after;
       PacketReader.position_ := Z.of_nat (length before) |}
  = Returned v
      {| PacketReader.data_ := before ++ [byte_of_Z (u8 v)] ++ after;
         PacketReader.position_ := Z.of_nat (length before) + 1 |}.
Proof.
  intros Hv Hfit. unfold PacketReader.readUint8, PacketReader.size. cbn.
  rewrite !length_app in Hfit. cbn in Hfit.
  rewrite bool_decide_eq_false_2 by (rewrite !length_app; cbn; lia).
  rewrite Nat2Z.id, list_lookup_middle by reflexivity.
  rewrite Z_of_byte_of_Z, Z.mod_small by exact Hv.
  unfold PacketReader.with_position. cbn.
  rewrite size_t_wrap_small by lia. now destruct v.
Qed.

Lemma readString_middle (before middle after : list byte) :
  Z.of_nat (length (before ++ middle ++ after)) <= SIZE_MAX ->
  PacketReader.readString (Z.of_nat (length middle))
    {| PacketReader.data_ := before ++ middle ++ after;
       PacketReader.position_ := Z.of_nat (length before) |}
  = Returned middle
      {| PacketReader.data_ := before ++ middle ++ after;
         PacketReader.position_ :=
           Z.of_nat (length before) + Z.of_nat (length middle) |}.
Proof.
  intros Hfit. unfold PacketReader.readString, PacketReader.size. cbn.
  rewrite !length_app in Hfit.
  rewrite size_t_wrap_small by lia.
  rewrite bool_decide_eq_false_2 by (rewrite !length_app; lia).
  rewrite copy_from_middle. reflexivity.
Qed.

(** [readUint32] then [readString] after [writeString], for a string whose
    size a [uint32_t] holds. *)
Lemma read_string_round_trip (before str after : list byte) :
  Z.of_nat (length str) < 2 ^ 32 ->
  Z.of_nat (length (before
                    ++ le_bytes 4 (uint_wrap 32 (Z.of_nat (length str)))
                    ++ str ++ after)) <= SIZE_MAX ->
  PacketBuilderExample.read_string
    {| PacketReader.data_ :=
         before ++ le_bytes 4 (uint_wrap 32 (Z.of_nat (length str)))
         ++ str ++ after;
       PacketReader.position_ := Z.of_nat (length before) |}
  = Returned str
      {| PacketReader.data_ :=
           before ++ le_bytes 4 (uint_wrap 32 (Z.of_nat (length str)))
           ++ str ++ after;
         PacketReader.position_ :=
           Z.of_nat (length before) + 4 + Z.of_nat (length str) |}.
Proof.
  intros Hlen Hfit.
  unfold PacketBuilderExample.read_string, and_then, PacketReader.readUint32.
  assert (uint_wrap 32 (Z.of_nat (length str)) = Z.of_nat (length str)) as Hw
    by (apply Z.mod_small; lia).
  pose proof (read_object_round_trip uint32_t
    "Not enough data to read uint32" before (str ++ after)
    (U32 (uint_wrap 32 (Z.of_nat (length str))))) as Hread.
  cbn [object_bytes uint32_serializable u32 sizeof representable] in Hread.
  rewrite Hread; [|unfold uint_range; cbn [u32]; rewrite Hw; lia|exact Hfit].
  cbn [bind_outcome u32]. rewrite Hw at 1.
  pose proof (readString_middle
    (before ++ le_bytes 4 (uint_wrap 32 (Z.of_nat (length str)))) str after)
    as Hstr.
  rewrite <- !app_assoc in Hstr.
  replace (Z.of_nat (length (before
             ++ le_bytes 4 (uint_wrap 32 (Z.of_nat (length str))))))
    with (Z.of_nat (length before) + Z.of_nat 4) in Hstr
    by (rewrite length_app, length_le_bytes; lia).
  rewrite Hstr by exact Hfit. reflexivity.
Qed.

(** C1. Framing round trip: a trivially copyable value read back as the
    same type, from the offset at which PacketBuilder wrote it, is the
    value written, whatever was written before and after it; the same
    holds of writeUint8/readUint8, which go through push_back and
    indexing, of writeUint16/readUint16, writeUint32/readUint32 and
    writeUint64/readUint64, each a function of its own, and of a string
    of fewer than 2^32 bytes written by writeString and read back as its
    uint32 length and then that many bytes. The builder of packet_builder_example.cpp (uint32
    0x12345678, the string "Hello, World!" behind its uint32 length,
    uint32 314159, uint8 255) holds exactly 26 bytes, so does the packet
    built from it, and the example's five reads give back those values and
    leave the cursor at 26. *)
Theorem framing_round_trip :
  (forall (T : Type) (S : Serializable T) (TC : TriviallyCopyable T)
      (b : PacketBuilder.t) (v : T) (later : list byte),
      representable v ->
      Z.of_nat (length (PacketBuilder.buffer_ (PacketBuilder.write_value v b)
                          ++ later)) <= SIZE_MAX ->
      PacketReader.read_value T
        (PacketReader.seek (PacketBuilder.size b)
           (PacketReader.of_span
              (PacketBuilder.buffer_ (PacketBuilder.write_value v b) ++ later)))
      = Returned v
          {| PacketReader.data_ :=
               PacketBuilder.buffer_ (PacketBuilder.write_value v b) ++ later;
             PacketReader.position_ :=
               PacketBuilder.size b + Z.of_nat (sizeof T) |})
  /\ (forall (b : PacketBuilder.t) (v : uint8_t) (later : list byte),
      uint_range 8 (u8 v) ->
      Z.of_nat (length (PacketBuilder.buffer_ (PacketBuilder.writeUint8 v b)
                          ++ later)) <= SIZE_MAX ->
      PacketReader.readUint8
        (PacketReader.seek (PacketBuilder.size b)
           (PacketReader.of_span
              (PacketBuilder.buffer_ (PacketBuilder.writeUint8 v b) ++ later)))
      = Returned v
          {| PacketReader.data_ :=
               PacketBuilder.buffer_ (PacketBuilder.writeUint8 v b) ++ later;
             PacketReader.position_ := PacketBuilder.size b + 1 |})
  /\ (forall (b : PacketBuilder.t) (str later : list byte),
      Z.of_nat (length str) < 2 ^ 32 ->
      Z.of_nat (length (PacketBuilder.buffer_ (PacketBuilder.writeString str b)
                          ++ later)) <= SIZE_MAX ->
      PacketBuilderExample.read_string
        (PacketReader.seek (PacketBuilder.size b)
           (PacketReader.of_span
              (PacketBuilder.buffer_ (PacketBuilder.writeString str b)
               ++ later)))
      = Returned str
          {| PacketReader.data_ :=
               PacketBuilder.buffer_ (PacketBuilder.writeString str b) ++ later;
             PacketReader.position_ :=
               PacketBuilder.size b + 4 + Z.of_nat (length str) |})
  /\ (forall (b : PacketBuilder.t) (v : uint16_t) (later : list byte),
      uint_range 16 (u16 v) ->
      Z.of_nat (length (PacketBuilder.buffer_ (PacketBuilder.writeUint16 v b)
                          ++ later)) <= SIZE_MAX ->
      PacketReader.readUint16
        (PacketReader.seek (PacketBuilder.size b)
           (PacketReader.of_span
              (PacketBuilder.buffer_ (PacketBuilder.writeUint16 v b) ++ later)))
      = Returned v
          {| PacketReader.data_ :=
               PacketBuilder.buffer_ (PacketBuilder.writeUint16 v b) ++ later;
             PacketReader.position_ := PacketBuilder.size b + 2 |})
  /\ (forall (b : PacketBuilder.t) (v : uint32_t) (later : list byte),
      uint_range 32 (u32 v) ->
      Z.of_nat (length (PacketBuilder.buffer_ (PacketBuilder.writeUint32 v b)
                          ++ later)) <= SIZE_MAX ->
      PacketReader.readUint32
        (PacketReader.seek (PacketBuilder.size b)
           (PacketReader.of_span
              (PacketBuilder.buffer_ (PacketBuilder.writeUint32 v b) ++ later)))
      = Returned v
          {| PacketReader.data_ :=
               PacketBuilder.buffer_ (PacketBuilder.writeUint32 v b) ++ later;
             PacketReader.position_ := PacketBuilder.size b + 4 |})
  /\ (forall (b : PacketBuilder.t) (v : uint64_t) (later : list byte),
      uint_range 64 (u64 v) ->
      Z.of_nat (length (PacketBuilder.buffer_ (PacketBuilder.writeUint64 v b)
                          ++ later)) <= SIZE_MAX ->
      PacketReader.readUint64
        (PacketReader.seek (PacketBuilder.size b)
           (PacketReader.of_span
              (PacketBuilder.buffer_ (PacketBuilder.writeUint64 v b) ++ later)))
      = Returned v
          {| PacketReader.data_ :=
               PacketBuilder.buffer_ (PacketBuilder.writeUint64 v b) ++ later;
             PacketReader.position_ := PacketBuilder.size b + 8 |})
  /\ PacketBuilder.size PacketBuilderExample.builder = 26
  /\ (forall (a : nat) (pflags : Z),
      exists pkt : Packet.t,
        PacketBuilder.build (Some a) pflags PacketBuilderExample.builder
        = inr pkt
        /\ Packet.size pkt = 26
        /\ PacketBuilderExample.read_back (PacketReader.of_packet pkt)
           = Returned
               (U32 305419896, PacketBuilderExample.message, U32 314159,
                U8 255)
               (PacketReader.with_position (PacketReader.of_packet pkt) 26)).
Proof.
  split; [|split; [|split; [|split; [|split; [|split; [|split]]]]]].
  - intros T S TC b v later Hv Hfit.
    unfold PacketBuilder.write_value, PacketBuilder.write,
      PacketBuilder.size, PacketReader.read_value in *. cbn in *.
    rewrite <- app_assoc in *. rewrite seek_to_offset.
    now apply read_object_round_trip.
  - intros b v later Hv Hfit.
    unfold PacketBuilder.writeUint8, PacketBuilder.size in *. cbn in *.
    rewrite <- app_assoc in *. rewrite seek_to_offset.
    now apply readUint8_round_trip.
  - intros b str later Hlen Hfit.
    unfold PacketBuilder.writeString, PacketBuilder.writeUint32,
      PacketBuilder.write, PacketBuilder.size in *.
    cbn [PacketBuilder.buffer_ object_bytes uint32_serializable u32] in *.
    rewrite <- !app_assoc in *. rewrite seek_to_offset.
    now apply read_string_round_trip.
  - intros b v later Hv Hfit.
    unfold PacketBuilder.writeUint16, PacketBuilder.write,
      PacketBuilder.size, PacketReader.readUint16 in *.
    cbn [PacketBuilder.buffer_] in *.
    rewrite <- app_assoc in *. rewrite seek_to_offset.
    pose proof (read_object_round_trip uint16_t
      "Not enough data to read uint16" (PacketBuilder.buffer_ b) later v)
      as Hread.
    exact (Hread Hv Hfit).
  - intros b v later Hv Hfit.
    unfold PacketBuilder.writeUint32, PacketBuilder.write,
      PacketBuilder.size, PacketReader.readUint32 in *.
    cbn [PacketBuilder.buffer_] in *.
    rewrite <- app_assoc in *. rewrite seek_to_offset.
    pose proof (read_object_round_trip uint32_t
      "Not enough data to read uint32" (PacketBuilder.buffer_ b) later v)
      as Hread.
    exact (Hread Hv Hfit).
  - intros b v later Hv Hfit.
    unfold PacketBuilder.writeUint64, PacketBuilder.write,
      PacketBuilder.size, PacketReader.readUint64 in *.
    cbn [PacketBuilder.buffer_] in *.
    rewrite <- app_assoc in *. rewrite seek_to_offset.
    pose proof (read_object_round_trip uint64_t
      "Not enough data to read uint64" (PacketBuilder.buffer_ b) later v)
      as Hread.
    exact (Hread Hv Hfit).
  - reflexivity.
  - intros a pflags. eexists. split; [reflexivity|].
    split; [reflexivity|]. vm_compute. reflexivity.
Qed.

Lemma framing_round_trip_witness :
  PacketReader.read_value uint32_t
    (PacketReader.seek (PacketBuilder.size PacketBuilder.new)
       (PacketReader.of_span
          (PacketBuilder.buffer_
             (PacketBuilder.write_value (U32 314159) PacketBuilder.new)
           ++ [])))
  = Returned (U32 314159)
      {| PacketReader.data_ :=
           PacketBuilder.buffer_
             (PacketBuilder.write_value (U32 314159) PacketBuilder.new) ++ [];
         PacketReader.position_ :=
           PacketBuilder.size PacketBuilder.new + Z.of_nat (sizeof uint32_t) |}.
Proof.
  apply (proj1 framing_round_trip uint32_t _ _ PacketBuilder.new (U32 314159) []).
  - unfold representable, uint32_serializable, uint_range. simpl. lia.
  - vm_compute. discriminate.
Defined.

(** ** Reads past the end *)

Lemma remaining_exact (r : PacketReader.t) :
  cursor_ok r -> span_ok r ->
  PacketReader.remaining r = PacketReader.size r - PacketReader.position_ r.
Proof.
  intros Hc Hs. unfold PacketReader.remaining.
  apply size_t_wrap_small. unfold cursor_ok, span_ok in *. lia.
Qed.

(** While the sum of the position and the size asked for is a [size_t],
    asking for more than remains makes [read] return [false] and leave
    the reader as it is. *)
Lemma read_underflow (n : Z) (r : PacketReader.t) :
  cursor_ok r -> span_ok r ->
  PacketReader.position_ r + n <= SIZE_MAX ->
  n > PacketReader.remaining r ->
  PacketReader.read n r = Returned None r.
Proof.
  intros Hc Hs Hsum Hn. rewrite remaining_exact in Hn by assumption.
  unfold PacketReader.read. unfold cursor_ok in Hc.
  rewrite size_t_wrap_small by lia.
  now rewrite bool_decide_eq_true_2 by lia.
Qed.

Lemma read_object_underflow (T : Type) `{Serializable T} (what : string)
    (r : PacketReader.t) :
  cursor_ok r -> span_ok r ->
  PacketReader.position_ r + Z.of_nat (sizeof T) <= SIZE_MAX ->
  Z.of_nat (sizeof T) > PacketReader.remaining r ->
  PacketReader.read_object what r = Threw what r.
Proof.
  intros Hc Hs Hsum Hn. unfold PacketReader.read_object.
  now rewrite read_underflow.
Qed.

Lemma readUint8_underflow (r : PacketReader.t) :
  cursor_ok r -> span_ok r ->
  1 > PacketReader.remaining r ->
  PacketReader.readUint8 r = Threw "Not enough data to read uint8" r.
Proof.
  intros Hc Hs Hn. rewrite remaining_exact in Hn by assumption.
  unfold PacketReader.readUint8.
  now rewrite bool_decide_eq_true_2 by lia.
Qed.

Lemma readString_underflow (n : Z) (r : PacketReader.t) :
  cursor_ok r -> span_ok r ->
  PacketReader.position_ r + n <= SIZE_MAX ->
  n > PacketReader.remaining r ->
  PacketReader.readString n r = Threw "Not enough data to read string" r.
Proof.
  intros Hc Hs Hsum Hn. rewrite remaining_exact in Hn by assumption.
  unfold PacketReader.readString. unfold cursor_ok in Hc.
  rewrite size_t_wrap_small by lia.
  now rewrite bool_decide_eq_true_2 by lia.
Qed.

(** C2, at the input where the code departs from it. A reader over the
    four bytes 01 02 03 04 stands at position 1 after one readUint8, with
    3 bytes remaining. Asked for SIZE_MAX bytes, far more than remain,
    [read] computes [position_ + size] as 0 in [size_t], so its bound
    check does not fire and the copy runs past the end of the span:
    the call does not return [false]. *)
Theorem read_bound_check_wraps :
  let start := PacketReader.of_span ["001"; "002"; "003"; "004"]%byte in
  let r := PacketReader.with_position start 1 in
  PacketReader.readUint8 start = Returned (U8 1) r
  /\ PacketReader.remaining r = 3
  /\ SIZE_MAX > PacketReader.remaining r
  /\ size_t_wrap (PacketReader.position_ r + SIZE_MAX) = 0
  /\ PacketReader.read SIZE_MAX r = Undefined
  /\ PacketReader.read SIZE_MAX r <> Returned None r.
Proof.
  cbv zeta. repeat split; try reflexivity. vm_compute. discriminate.
Qed.

(** ** The reader's cursor *)

Lemma cursor_ok_of_span (d : list byte) : cursor_ok (PacketReader.of_span d).
Proof. unfold cursor_ok, PacketReader.size. cbn. lia. Qed.

Lemma seek_position (p : Z) (r : PacketReader.t) :
  PacketReader.position_ (PacketReader.seek p r)
  = Z.min p (PacketReader.size r).
Proof.
  unfold PacketReader.seek. cbn. case_bool_decide; lia.
Qed.

Lemma skip_position (n : Z) (r : PacketReader.t) :
  PacketReader.position_ (PacketReader.skip n r)
  = Z.min (size_t_wrap (PacketReader.position_ r + n)) (PacketReader.size r).
Proof.
  unfold PacketReader.skip. cbn. case_bool_decide; lia.
Qed.

Lemma skip_position_no_wrap (n : Z) (r : PacketReader.t) :
  0 <= PacketReader.position_ r -> 0 <= n ->
  PacketReader.position_ r + n <= SIZE_MAX ->
  PacketReader.position_ (PacketReader.skip n r)
  = Z.min (PacketReader.position_ r + n) (PacketReader.size r).
Proof.
  intros Hp Hn Hsum. rewrite skip_position.
  now rewrite size_t_wrap_small by lia.
Qed.

Lemma cursor_ok_seek (p : Z) (r : PacketReader.t) :
  0 <= p -> cursor_ok (PacketReader.seek p r).
Proof.
  intros Hp. unfold cursor_ok. rewrite seek_position.
  change (PacketReader.size (PacketReader.seek p r)) with (PacketReader.size r).
  pose proof (size_nonneg r). lia.
Qed.

Lemma cursor_ok_skip (n : Z) (r : PacketReader.t) :
  cursor_ok (PacketReader.skip n r).
Proof.
  unfold cursor_ok. rewrite skip_position.
  change (PacketReader.size (PacketReader.skip n r)) with (PacketReader.size r).
  pose proof (size_nonneg r).
  pose proof (size_t_wrap_range (PacketReader.position_ r + n)). lia.
Qed.

Lemma cursor_ok_reset (r : PacketReader.t) : cursor_ok (PacketReader.reset r).
Proof.
  unfold cursor_ok, PacketReader.reset. cbn.
  change (PacketReader.size (PacketReader.with_position r 0))
    with (PacketReader.size r).
  pose proof (size_nonneg r). lia.
Qed.

(** A read that returns leaves the cursor inside the span; when it
    succeeded, the cursor moved by the number of bytes copied, which is
    the number asked for. *)
Lemma read_returned (n : Z) (r r' : PacketReader.t)
    (filled : option (list byte)) :
  cursor_ok r -> span_ok r -> 0 <= n ->
  PacketReader.read n r = Returned filled r' ->
  cursor_ok r'
  /\ PacketReader.data_ r' = PacketReader.data_ r
  /\ match filled with
     | Some bytes =>
         Z.of_nat (length bytes) = n
         /\ PacketReader.position_ r' = PacketReader.position_ r + n
     | None => r' = r
     end.
Proof.
  intros Hc Hs Hn. unfold PacketReader.read, PacketReader.copy_from.
  case_bool_decide as Hguard; [intros [= <- <-]; auto|].
  case_bool_decide as Hin; [|discriminate].
  intros [= <- <-]. unfold cursor_ok, span_ok, PacketReader.size in *. cbn.
  rewrite size_t_wrap_small by lia.
  repeat split; try lia.
  rewrite length_take, length_drop. lia.
Qed.

Lemma readString_returned (n : Z) (r r' : PacketReader.t) (s : list byte) :
  cursor_ok r -> span_ok r -> 0 <= n ->
  PacketReader.readString n r = Returned s r' ->
  cursor_ok r'
  /\ Z.of_nat (length s) = n
  /\ PacketReader.position_ r' = PacketReader.position_ r + n.
Proof.
  intros Hc Hs Hn. unfold PacketReader.readString, PacketReader.copy_from.
  case_bool_decide as Hguard; [discriminate|].
  case_bool_decide as Hin; [|discriminate].
  intros [= <- <-]. unfold cursor_ok, span_ok, PacketReader.size in *. cbn.
  rewrite size_t_wrap_small by lia.
  repeat split; try lia.
  rewrite length_take, length_drop. lia.
Qed.

Lemma readUint8_returned (r r' : PacketReader.t) (v : uint8_t) :
  cursor_ok r -> span_ok r ->
  PacketReader.readUint8 r = Returned v r' ->
  cursor_ok r'
  /\ PacketReader.position_ r' = PacketReader.position_ r + 1.
Proof.
  intros Hc Hs. unfold PacketReader.readUint8.
  case_bool_decide as Hguard; [discriminate|].
  destruct (PacketReader.data_ r !! _); [|discriminate].
  intros [= <- <-]. unfold cursor_ok, span_ok, PacketReader.size in *. cbn.
  rewrite size_t_wrap_small by lia. lia.
Qed.

Lemma read_never_throws (n : Z) (r r' : PacketReader.t) (what : string) :
  PacketReader.read n r <> Threw what r'.
Proof.
  unfold PacketReader.read. case_bool_decide; [discriminate|].
  destruct (PacketReader.copy_from _ _ _); discriminate.
Qed.

Lemma read_object_returned (T : Type) `{Serializable T} (what : string)
    (r r' : PacketReader.t) (v : T) :
  cursor_ok r -> span_ok r ->
  PacketReader.read_object what r = Returned v r' ->
  cursor_ok r'
  /\ PacketReader.position_ r'
     = PacketReader.position_ r + Z.of_nat (sizeof T).
Proof.
  intros Hc Hs. unfold PacketReader.read_object.
  destruct (PacketReader.read (Z.of_nat (sizeof T)) r)
    as [filled r1|what1 r1|] eqn:Hread; cbn; try discriminate.
  destruct filled as [bytes|]; [|discriminate]. intros [= _ <-].
  apply read_returned in Hread as (Hok & _ & _ & Hpos); try assumption; [|lia].
  now split.
Qed.

Lemma read_object_threw (T : Type) `{Serializable T} (what what' : string)
    (r r' : PacketReader.t) :
  cursor_ok r -> span_ok r ->
  PacketReader.read_object what r = Threw what' r' -> r' = r.
Proof.
  intros Hc Hs. unfold PacketReader.read_object.
  destruct (PacketReader.read (Z.of_nat (sizeof T)) r)
    as [filled r1|what1 r1|] eqn:Hread; cbn; try discriminate.
  - destruct filled as [bytes|]; [discriminate|]. intros [= _ <-].
    apply read_returned in Hread as (_ & _ & Hsame); try assumption; lia.
  - now apply read_never_throws in Hread.
Qed.

Lemma readString_threw (n : Z) (r r' : PacketReader.t) (what : string) :
  PacketReader.readString n r = Threw what r' -> r' = r.
Proof.
  unfold PacketReader.readString. case_bool_decide; [now intros [= _ <-]|].
  destruct (PacketReader.copy_from _ _ _); discriminate.
Qed.

Lemma readUint8_threw (r r' : PacketReader.t) (what : string) :
  PacketReader.readUint8 r = Threw what r' -> r' = r.
Proof.
  unfold PacketReader.readUint8. case_bool_decide; [now intros [= _ <-]|].
  destruct (PacketReader.data_ r !! _); discriminate.
Qed.

(** The cursor of a reader over a span whose size is a [size_t] stays
    inside the span: a new reader starts at 0; [seek], [skip] and [reset]
    never fail and leave the cursor in [0, size]; a read that returns
    leaves it there, having moved it by exactly the number of bytes it
    gave, and a read that throws (or [read] returning [false]) leaves the
    reader as it was. [seek(p)] lands on [min(p, size)]; [skip(n)] lands
    on [min(position + n, size)] as long as [position + n] is a
    [size_t]. *)
Theorem reader_cursor_invariant (r : PacketReader.t) (p n : Z) :
  cursor_ok r -> span_ok r -> 0 <= p -> 0 <= n ->
  (forall d : list byte, cursor_ok (PacketReader.of_span d))
  /\ cursor_ok (PacketReader.seek p r)
  /\ PacketReader.position_ (PacketReader.seek p r)
     = Z.min p (PacketReader.size r)
  /\ cursor_ok (PacketReader.skip n r)
  /\ (PacketReader.position_ r + n <= SIZE_MAX ->
      PacketReader.position_ (PacketReader.skip n r)
      = Z.min (PacketReader.position_ r + n) (PacketReader.size r))
  /\ cursor_ok (PacketReader.reset r)
  /\ (forall (filled : option (list byte)) (r' : PacketReader.t),
        PacketReader.read n r = Returned filled r' ->
        cursor_ok r'
        /\ match filled with
           | Some bytes =>
               Z.of_nat (length bytes) = n
               /\ PacketReader.position_ r' = PacketReader.position_ r + n
           | None => r' = r
           end)
  /\ (forall (s : list byte) (r' : PacketReader.t),
        PacketReader.readString n r = Returned s r' ->
        cursor_ok r'
        /\ Z.of_nat (length s) = n
        /\ PacketReader.position_ r' = PacketReader.position_ r + n)
  /\ (forall (what : string) (r' : PacketReader.t),
        PacketReader.readString n r = Threw what r' -> r' = r)
  /\ (forall (v : uint8_t) (r' : PacketReader.t),
        PacketReader.readUint8 r = Returned v r' ->
        cursor_ok r'
        /\ PacketReader.position_ r' = PacketReader.position_ r + 1)
  /\ (forall (what : string) (r' : PacketReader.t),
        PacketReader.readUint8 r = Threw what r' -> r' = r)
  /\ (forall (T : Type) (S : Serializable T) (what : string) (v : T)
         (r' : PacketReader.t),
        PacketReader.read_object what r = Returned v r' ->
        cursor_ok r'
        /\ PacketReader.position_ r'
           = PacketReader.position_ r + Z.of_nat (sizeof T))
  /\ (forall (T : Type) (S : Serializable T) (what what' : string)
         (r' : PacketReader.t),
        PacketReader.read_object (T := T) what r = Threw what' r' -> r' = r).
Proof.
  intros Hc Hs Hp Hn.
  split; [apply cursor_ok_of_span|].
  split; [now apply cursor_ok_seek|].
  split; [apply seek_position|].
  split; [apply cursor_ok_skip|].
  split; [intros Hsum; apply skip_position_no_wrap; unfold cursor_ok in Hc; lia|].
  split; [apply cursor_ok_reset|].
  split.
  { intros filled r' Hread.
    apply read_returned in Hread as (Hok & _ & Hrest); auto. }
  split; [intros s r' Hread; now apply readString_returned in Hread|].
  split; [intros what r'; apply readString_threw|].
  split; [intros v r' Hread; now apply readUint8_returned in Hread|].
  split; [intros what r'; apply readUint8_threw|].
  split.
  - intros T S what v r'. now apply read_object_returned.
  - intros T S what what' r'. now apply read_object_threw.
Qed.

Lemma reader_cursor_invariant_witness :
  let r := PacketReader.of_span ["001"; "002"; "003"; "004"]%byte in
  cursor_ok (PacketReader.seek 9 r)
  /\ PacketReader.position_ (PacketReader.seek 9 r) = 4
  /\ PacketReader.position_ (PacketReader.skip 3 r) = 3.
Proof.
  cbv zeta.
  assert (cursor_ok (PacketReader.of_span ["001"; "002"; "003"; "004"]%byte))
    as Hc by (vm_compute; split; discriminate).
  assert (span_ok (PacketReader.of_span ["001"; "002"; "003"; "004"]%byte))
    as Hs by (vm_compute; discriminate).
  destruct (reader_cursor_invariant
              (PacketReader.of_span ["001"; "002"; "003"; "004"]%byte) 9 3
              Hc Hs ltac:(lia) ltac:(lia))
    as (_ & Hseek & Hpos & _ & Hskip & _).
  split; [exact Hseek|]. split; [exact Hpos|].
  apply Hskip. vm_compute. discriminate.
Defined.

(** As long as the sum of the position and the size asked for is a
    [size_t], a read that asks for more than remains fails and leaves the
    reader, and so [remaining()], as it was: [read] returns [false], the
    typed reads and [readString] throw. *)
Theorem underflow_leaves_reader (r : PacketReader.t) (n : Z) :
  cursor_ok r -> span_ok r ->
  PacketReader.position_ r + n <= SIZE_MAX ->
  n > PacketReader.remaining r ->
  PacketReader.read n r = Returned None r
  /\ PacketReader.readString n r = Threw "Not enough data to read string" r
  /\ (n = 1 ->
      PacketReader.readUint8 r = Threw "Not enough data to read uint8" r)
  /\ (n = 2 ->
      PacketReader.readUint16 r = Threw "Not enough data to read uint16" r)
  /\ (n = 4 ->
      PacketReader.readUint32 r = Threw "Not enough data to read uint32" r)
  /\ (n = 8 ->
      PacketReader.readUint64 r = Threw "Not enough data to read uint64" r)
  /\ (forall (T : Type) (S : Serializable T),
        n = Z.of_nat (sizeof T) ->
        PacketReader.read_value T r
        = Threw "Not enough data to read requested type" r).
Proof.
  intros Hc Hs Hsum Hn.
  split; [now apply read_underflow|].
  split; [now apply readString_underflow|].
  split; [intros ->; now apply readUint8_underflow|].
  split; [intros ->; now apply (read_object_underflow uint16_t)|].
  split; [intros ->; now apply (read_object_underflow uint32_t)|].
  split; [intros ->; now apply (read_object_underflow uint64_t)|].
  intros T S ->. now apply read_object_underflow.
Qed.

Lemma underflow_leaves_reader_witness :
  let r :=
    PacketReader.with_position
      (PacketReader.of_span ["001"; "002"; "003"; "004"]%byte) 1 in
  PacketReader.read 4 r = Returned None r
  /\ PacketReader.readUint32 r = Threw "Not enough data to read uint32" r.
Proof.
  cbv zeta.
  destruct (underflow_leaves_reader
              (PacketReader.with_position
                 (PacketReader.of_span ["001"; "002"; "003"; "004"]%byte) 1) 4)
    as (Hread & _ & _ & _ & H32 & _).
  - vm_compute. split; discriminate.
  - vm_compute. discriminate.
  - vm_compute. discriminate.
  - vm_compute. reflexivity.
  - split; [exact Hread | exact (H32 eq_refl)].
Defined.

(** C8, at the input where the code departs from it. A reader over eight
    bytes stands at position 4, inside the span. [skip(SIZE_MAX)] computes
    [position_ + bytes] as 3 in [size_t] and moves the cursor back to 3;
    the minimum of [position + n] and the size is 8. *)
Theorem skip_sum_wraps :
  let r :=
    PacketReader.with_position
      (PacketReader.of_span
         ["001"; "002"; "003"; "004"; "005"; "006"; "007"; "008"]%byte) 4 in
  cursor_ok r
  /\ PacketReader.position_ (PacketReader.skip SIZE_MAX r) = 3
  /\ Z.min (PacketReader.position_ r + SIZE_MAX) (PacketReader.size r) = 8.
Proof.
  cbv zeta. split; [|split]; [|reflexivity|reflexivity].
  vm_compute. split; discriminate.
Qed.

(** ** Packets handed to the engine *)

Lemma send_null_packet (rc channel : Z) (p : Peer.t) :
  Peer.send rc channel None p
  = {| Peer.returned := false; Peer.calls := []; Peer.released := None |}.
Proof. unfold Peer.send. now destruct (Peer.nativePeer_ p). Qed.

Lemma broadcast_null_packet {App} (channel : Z) (h : Host.t App) :
  Host.broadcast channel None h
  = {| Host.calls := []; Host.released := None |}.
Proof. unfold Host.broadcast. now destruct (Host.nativeHost_ h). Qed.

(** C3, as stated, fails: the wrapper [send] and [broadcast] consume is let
    go of by [pkt.release()] with its native handle still set. Here a
    wrapper over the engine packet at address 7 is sent to a connected
    peer, and broadcast by a host. The wrapper let go of is not spent:
    owned again and sent again, it reaches the engine a second time with
    the same packet. *)
Lemma released_wrapper_keeps_handle :
  let native :=
    {| ENet.packet_addr := 7; ENet.referenceCount := 0; ENet.flags := 1;
       ENet.data := ["p"; "i"; "n"; "g"]%byte |} in
  let wrapper := {| Packet.nativePacket_ := Some native |} in
  let peer :=
    Peer.new
      (Some {| ENet.peer_addr := 1; ENet.state := ENet.ENET_PEER_STATE_CONNECTED;
               ENet.address := {| ENet.host := 0; ENet.port := 7777 |};
               ENet.roundTripTime := 0 |})
      (Some 0%nat) in
  let server : Host.t unit :=
    {| Host.self := 0; Host.nativeHost_ := Some 2%nat; Host.isServer_ := true;
       Host.dispatcher_ := Some EventDispatcher.new; Host.peers_ := [];
       Host.serviceThreadRunning_ := false |} in
  Packet.nativeHandle <$> Peer.released (Peer.send 0 0 (Some wrapper) peer)
  = Some (Some native)
  /\ Packet.nativeHandle <$> Host.released (Host.broadcast 0 (Some wrapper) server)
     = Some (Some native)
  /\ Packet.nativeHandle <$> Peer.released (Peer.send 0 0 (Some wrapper) peer)
     <> Some None
  /\ Peer.returned
       (Peer.send 0 0 (Peer.released (Peer.send 0 0 (Some wrapper) peer)) peer)
     = true
  /\ Peer.calls
       (Peer.send 0 0 (Peer.released (Peer.send 0 0 (Some wrapper) peer)) peer)
     = [ENet.enet_peer_send 1 0 (Some 7%nat)].
Proof. cbv zeta. repeat split. discriminate. Qed.

(** C3, amended. A packet is handed to [send] or [broadcast] by moving its
    owning pointer, which leaves the caller's pointer null. The call
    passes the engine packet on exactly once: to the engine, or to
    [enet_packet_destroy] when the peer or host handle is null. The
    wrapper itself is let go of with its handle as it was when the packet
    went to the engine. Sending the moved-from pointer again returns
    [false] from [Peer::send], and does nothing in [Host::broadcast]; no
    call into the engine is made, so nothing is sent or freed twice. *)
Theorem packet_transfer_single_use {App : Type} (p : Peer.t) (h : Host.t App)
    (rc rc' channel channel' : Z) (native : ENet.ENetPacket) :
  let wrapper := {| Packet.nativePacket_ := Some native |} in
  let pkt := fst (move_unique_ptr (Some wrapper)) in
  let mine := snd (move_unique_ptr (Some wrapper)) in
  let handed c := ENet.disposes (ENet.packet_addr native) c = true in
  mine = None
  /\ length (filter handed (Peer.calls (Peer.send rc channel pkt p))) = 1%nat
  /\ length (filter handed (Host.calls (Host.broadcast channel pkt h))) = 1%nat
  /\ Peer.released (Peer.send rc channel pkt p)
     = match Peer.nativePeer_ p with Some _ => Some wrapper | None => None end
  /\ Host.released (Host.broadcast channel pkt h)
     = match Host.nativeHost_ h with Some _ => Some wrapper | None => None end
  /\ Peer.returned (Peer.send rc' channel' mine p) = false
  /\ Peer.calls (Peer.send rc' channel' mine p) = []
  /\ Host.calls (Host.broadcast channel' mine h) = [].
Proof.
  cbv zeta. cbn [move_unique_ptr fst snd].
  rewrite send_null_packet, broadcast_null_packet.
  unfold Peer.send, Host.broadcast.
  destruct (Peer.nativePeer_ p), (Host.nativeHost_ h); cbn;
    rewrite ?bool_decide_eq_true_2 by reflexivity;
    rewrite ?decide_True by reflexivity; cbn; repeat split; reflexivity.
Qed.

(** ** Peer states *)

(** C4, as stated, fails: a peer whose engine handle is in the zombie
    state reports [zombie], not [disconnected], and [isDisconnected] is
    [false] for it. *)
Lemma zombie_is_not_collapsed :
  let p :=
    Peer.new
      (Some {| ENet.peer_addr := 1; ENet.state := ENet.ENET_PEER_STATE_ZOMBIE;
               ENet.address := {| ENet.host := 0; ENet.port := 7777 |};
               ENet.roundTripTime := 0 |})
      (Some 0%nat) in
  Peer.state p = PeerState.zombie
  /\ Peer.state p <> PeerState.disconnected
  /\ Peer.isDisconnected p = false.
Proof. cbv zeta. repeat split. discriminate. Qed.

Lemma isDisconnected_iff (q : Peer.t) :
  Peer.isDisconnected q = true
  <-> Peer.nativePeer_ q = None
      \/ exists n, Peer.nativePeer_ q = Some n
                   /\ ENet.state n = ENet.ENET_PEER_STATE_DISCONNECTED.
Proof.
  unfold Peer.isDisconnected, Peer.state.
  rewrite bool_decide_eq_true.
  destruct (Peer.nativePeer_ q) as [n|]; [|tauto].
  split.
  - intros Hs. right. exists n. split; [reflexivity|].
    destruct (ENet.state n); cbn in Hs; congruence.
  - intros [|(n' & [= <-] & ->)]; [discriminate|reflexivity].
Qed.

(** C4, amended. [state()] passes the engine's state through unchanged: for
    a peer whose engine handle is in the zombie state it reports [zombie],
    and [isDisconnected()], [isConnected()], [isConnecting()] and
    [isDisconnecting()] are all [false]. [isDisconnected()] holds exactly
    of a null handle and of a handle in the engine's disconnected state. *)
Theorem zombie_is_reported (p : Peer.t) (native : ENet.ENetPeer) :
  Peer.nativePeer_ p = Some native ->
  ENet.state native = ENet.ENET_PEER_STATE_ZOMBIE ->
  Peer.state p = PeerState.zombie
  /\ Peer.isDisconnected p = false
  /\ Peer.isConnected p = false
  /\ Peer.isConnecting p = false
  /\ Peer.isDisconnecting p = false
  /\ (forall q : Peer.t,
        Peer.isDisconnected q = true
        <-> Peer.nativePeer_ q = None
            \/ exists n, Peer.nativePeer_ q = Some n
                         /\ ENet.state n = ENet.ENET_PEER_STATE_DISCONNECTED).
Proof.
  intros Hp Hz.
  assert (Peer.state p = PeerState.zombie) as Hs
    by (unfold Peer.state; now rewrite Hp, Hz).
  unfold Peer.isDisconnected, Peer.isConnected, Peer.isConnecting,
    Peer.isDisconnecting. rewrite Hs.
  repeat split; try reflexivity; apply isDisconnected_iff.
Qed.

Lemma zombie_is_reported_witness :
  let native :=
    {| ENet.peer_addr := 1; ENet.state := ENet.ENET_PEER_STATE_ZOMBIE;
       ENet.address := {| ENet.host := 0; ENet.port := 7777 |};
       ENet.roundTripTime := 0 |} in
  Peer.state (Peer.new (Some native) None) = PeerState.zombie
  /\ Peer.isDisconnected (Peer.new (Some native) None) = false.
Proof.
  cbv zeta.
  pose proof (zombie_is_reported
    (Peer.new
       (Some {| ENet.peer_addr := 1; ENet.state := ENet.ENET_PEER_STATE_ZOMBIE;
                ENet.address := {| ENet.host := 0; ENet.port := 7777 |};
                ENet.roundTripTime := 0 |}) None)
    _ eq_refl eq_refl) as H.
  split; [exact (proj1 H) | exact (proj1 (proj2 H))].
Defined.

(** ** Null peer handles *)

(** The template overload of [send] throws when the engine has no packet
    for the data, whatever the peer. *)
Lemma send_data_without_packet (rc channel : Z) (packetData : list byte)
    (pflags : Z) (p : Peer.t) :
  Peer.send_data None rc channel packetData pflags p
  = inl "Failed to create ENet packet"%string.
Proof. reflexivity. Qed.

(** C5, as stated, fails: [send] can throw on a peer whose native handle
    is null. The template overloads of [send] create the packet before
    they look at the peer, and the constructor of the packet throws when
    the engine gives none. Here the peer has no handle, the engine has no
    packet to give, and both overloads throw "Failed to create ENet
    packet" instead of returning [false]. *)
Lemma template_send_throws_without_handle :
  let p := Peer.new None (Some 0%nat) in
  let hello := String.list_byte_of_string "Hello" in
  Peer.nativeHandle p = None
  /\ Peer.send_data None 0 1 hello DEFAULT_FLAGS p
     = inl "Failed to create ENet packet"%string
  /\ Peer.send_data0 None 0 hello DEFAULT_FLAGS p
     = inl "Failed to create ENet packet"%string
  /\ (forall r, Peer.send_data None 0 1 hello DEFAULT_FLAGS p <> inr r).
Proof. cbv zeta. repeat split. discriminate. Qed.

(** C5, amended. On a Peer whose native handle is null every member
    function of peer.cpp answers with failure or its neutral value,
    throws nothing and makes no call into the engine on a peer: [send]
    with a packet returns [false] (and deletes the packet it was given),
    [state()] is [disconnected], and [disconnect], [disconnectNow],
    [disconnectLater] and [ping] do nothing. The template overloads of
    [send], which take the data and not a packet, create the packet
    first: they throw "Failed to create ENet packet" exactly when the
    engine gives no packet, and otherwise return [false] and destroy the
    packet they created, whatever the engine would have answered to the
    send; they make no call on a peer either. *)
Theorem invalid_handle_tolerated (o : Peer.op) (p : Peer.t) :
  Peer.nativePeer_ p = None ->
  Peer.run o p = invalid_handle_answer o p
  /\ (forall what, fst (Peer.run o p) <> Peer.Exception what)
  /\ filter (fun c => ENet.on_peer c = true) (snd (Peer.run o p)) = []
  /\ (forall rc channel pkt,
        Peer.returned (Peer.send rc channel pkt p) = false)
  /\ Peer.state p = PeerState.disconnected
  /\ (forall d,
        Peer.disconnect d p = [] /\ Peer.disconnectNow d p = []
        /\ Peer.disconnectLater d p = [])
  /\ Peer.ping p = []
  /\ (forall (alloc : option nat) (rc channel : Z) (packetData : list byte)
        (pflags : Z),
        let answer :=
          match alloc with
          | Some a =>
              inr {| Peer.returned := false;
                     Peer.calls := [ENet.enet_packet_destroy a];
                     Peer.released := None |}
          | None => inl "Failed to create ENet packet"%string
          end in
        Peer.send_data alloc rc channel packetData pflags p = answer
        /\ Peer.send_data0 alloc rc packetData pflags p = answer
        /\ (Peer.send_data alloc rc channel packetData pflags p
            = inl "Failed to create ENet packet"%string
            <-> alloc = None)
        /\ (forall r,
              Peer.send_data alloc rc channel packetData pflags p = inr r ->
              Peer.returned r = false
              /\ filter (fun c => ENet.on_peer c = true) (Peer.calls r) = [])).
Proof.
  intros Hnull.
  assert (Peer.run o p = invalid_handle_answer o p) as Hrun.
  { destruct o; cbn;
      unfold Peer.send0, Peer.send, Peer.disconnect, Peer.disconnectNow,
        Peer.disconnectLater, Peer.ping, Peer.timeout, Peer.reset,
        Peer.endpoint, Peer.roundTripTime, Peer.isConnected,
        Peer.isConnecting, Peer.isDisconnecting, Peer.isDisconnected,
        Peer.state, Peer.nativeHandle;
      rewrite ?Hnull; reflexivity. }
  split; [exact Hrun|]. rewrite Hrun.
  split; [destruct o; cbn; discriminate|].
  split.
  { destruct o; cbn; try reflexivity;
      destruct pkt as [[[n|]]|]; reflexivity. }
  unfold Peer.send_data0, Peer.send_data, Peer.send, Peer.state,
    Peer.disconnect, Peer.disconnectNow, Peer.disconnectLater, Peer.ping.
  rewrite Hnull.
  split; [intros; reflexivity|]. split; [reflexivity|].
  split; [intros; repeat split|]. split; [reflexivity|].
  intros [a|] rc channel packetData pflags; cbn;
    (split; [reflexivity|]); (split; [reflexivity|]); split.
  - split; discriminate.
  - intros r [= <-]. split; reflexivity.
  - split; reflexivity.
  - intros r; discriminate.
Qed.

Lemma invalid_handle_tolerated_witness :
  Peer.run (Peer.Send 0 0 None) (Peer.new None (Some 0%nat))
  = (Peer.Bool false, []).
Proof.
  exact (proj1 (invalid_handle_tolerated (Peer.Send 0 0 None)
                  (Peer.new None (Some 0%nat)) eq_refl)).
Defined.

(** ** Dispatch order *)

Section Dispatch.
Context {App : Type}.
Implicit Types (d : EventDispatcher.t App) (app : App).
Implicit Types (rs : list (@EventDispatcher.registration App)).

Lemma invoke_all_in_sequence {Event : Type}
    (handlers : list (EventDispatcher.Handler App Event)) (event : Event) app :
  EventDispatcher.invoke_all handlers event app
  = EventDispatcher.in_sequence handlers event app.
Proof.
  unfold EventDispatcher.invoke_all. revert app.
  induction handlers as [|handler rest IH]; intros app; cbn; [reflexivity|].
  apply IH.
Qed.

Lemma in_sequence_app {Event : Type}
    (first second : list (EventDispatcher.Handler App Event))
    (event : Event) app :
  EventDispatcher.in_sequence (first ++ second) event app
  = EventDispatcher.in_sequence second event
      (EventDispatcher.in_sequence first event app).
Proof.
  revert app. induction first as [|handler rest IH]; intros app; cbn;
    [reflexivity|]. apply IH.
Qed.

(** The handlers a dispatcher runs for a receive event, in order. *)
Lemma dispatchReceive_order d (event : ReceiveEvent.t) app :
  EventDispatcher.dispatchReceive d event app
  = EventDispatcher.in_sequence
      (EventDispatcher.receiveHandlers_ d
       ++ default [] (EventDispatcher.channelHandlers_ d
                        !! ReceiveEvent.channel event))
      event app.
Proof.
  unfold EventDispatcher.dispatchReceive.
  rewrite in_sequence_app, <- !invoke_all_in_sequence.
  destruct (EventDispatcher.channelHandlers_ d !! _); reflexivity.
Qed.

Lemma register_all_cons d r rs :
  EventDispatcher.register_all d (r :: rs)
  = EventDispatcher.register_all (EventDispatcher.register d r) rs.
Proof. reflexivity. Qed.

Lemma register_all_global d rs :
  EventDispatcher.receiveHandlers_ (EventDispatcher.register_all d rs)
  = EventDispatcher.receiveHandlers_ d ++ EventDispatcher.global_receive rs.
Proof.
  revert d. induction rs as [|r rs IH]; intros d.
  - cbn. now rewrite app_nil_r.
  - rewrite register_all_cons, IH.
    destruct r; cbn; rewrite <- ?app_assoc; reflexivity.
Qed.

Lemma register_all_channel d rs (channel : Z) :
  default [] (EventDispatcher.channelHandlers_
                (EventDispatcher.register_all d rs) !! channel)
  = default [] (EventDispatcher.channelHandlers_ d !! channel)
    ++ EventDispatcher.channel_receive channel rs.
Proof.
  revert d. induction rs as [|r rs IH]; intros d.
  - cbn. now rewrite app_nil_r.
  - rewrite register_all_cons, IH.
    destruct r as [h|h|h|c h]; cbn; try reflexivity.
    case_bool_decide as Hc.
    + subst c. rewrite lookup_insert_eq. cbn. now rewrite <- app_assoc.
    + now rewrite lookup_insert_ne.
Qed.

End Dispatch.

(** C7. Dispatch ordering. A dispatcher, in whatever state, runs for a
    receive event its global receive handlers in the order of their list,
    each on the state its predecessor left, and then the handlers its map
    holds for the event's channel, and no other. Whatever the
    registrations made on a new dispatcher and in whatever order, these
    are the global receive handlers in the order they were registered and
    then the handlers registered for the event's channel, in their order
    of registration. With handlers that log their name:
    after registering C on channel 1, then A and B globally, an event on
    channel 1 logs A, B, C and an event on channel 2 logs A, B. *)
Theorem dispatch_order :
  (forall (App : Type) (d : EventDispatcher.t App) (event : ReceiveEvent.t)
      (app : App),
      EventDispatcher.dispatchReceive d event app
      = EventDispatcher.in_sequence
          (EventDispatcher.receiveHandlers_ d
           ++ default [] (EventDispatcher.channelHandlers_ d
                            !! ReceiveEvent.channel event))
          event app)
  /\ (forall (App : Type) (rs : list (@EventDispatcher.registration App))
      (event : ReceiveEvent.t) (app : App),
      EventDispatcher.dispatchReceive
        (EventDispatcher.register_all EventDispatcher.new rs) event app
      = EventDispatcher.in_sequence
          (EventDispatcher.global_receive rs
           ++ EventDispatcher.channel_receive (ReceiveEvent.channel event) rs)
          event app)
  /\ (forall (App : Type) (A B : EventDispatcher.Handler App ReceiveEvent.t)
        (event : ReceiveEvent.t) (app : App),
        EventDispatcher.dispatchReceive
          (EventDispatcher.onReceive B
             (EventDispatcher.onReceive A EventDispatcher.new)) event app
        = B event (A event app))
  /\ (forall (peer : shared_ptr_Peer) (pkt : unique_ptr Packet.t),
        let d :=
          EventDispatcher.onReceive (note "B")
            (EventDispatcher.onReceive (note "A")
               (EventDispatcher.onReceiveChannel 1 (note "C")
                  EventDispatcher.new)) in
        EventDispatcher.dispatchReceive d
          {| ReceiveEvent.peerHandle := peer; ReceiveEvent.packetData := pkt;
             ReceiveEvent.channel := 1 |} []
        = ["A"; "B"; "C"]%string
        /\ EventDispatcher.dispatchReceive d
             {| ReceiveEvent.peerHandle := peer; ReceiveEvent.packetData := pkt;
                ReceiveEvent.channel := 2 |} []
           = ["A"; "B"]%string).
Proof.
  split; [|split; [|split]].
  - intros App d event app. apply dispatchReceive_order.
  - intros App rs event app.
    rewrite dispatchReceive_order, register_all_global, register_all_channel.
    reflexivity.
  - intros App A B event app. reflexivity.
  - intros peer pkt. cbv zeta. split; reflexivity.
Qed.

(** ** The registry of weak pointers *)

Section Registry.
Context {App : Type} (owns : App -> nat -> bool).
Implicit Types (w : Host.World App) (a : App) (entries : list weak_ptr_Peer).

Lemma getPeers_loop_live a entries :
  Host.getPeers_loop owns a entries
  = (live_entries owns a entries, live_entries owns a entries).
Proof.
  unfold live_entries. induction entries as [|e rest IH]; [reflexivity|].
  cbn [Host.getPeers_loop]. rewrite IH, filter_cons. unfold Host.lock.
  destruct (owns a e) eqn:He.
  - now rewrite decide_True.
  - now rewrite decide_False by discriminate.
Qed.

Lemma getPeers_live w :
  Host.getPeers owns w
  = (live_entries owns (Host.app w) (Host.peers_ (Host.host w)),
     Host.with_host w
       (Host.with_peers (Host.host w)
          (live_entries owns (Host.app w) (Host.peers_ (Host.host w))))).
Proof. unfold Host.getPeers. now rewrite getPeers_loop_live. Qed.

Lemma count_loop_live a entries (count : Z) :
  foldl (fun count weakPeer =>
           if Host.expired owns a weakPeer then count else count + 1)
        count entries
  = count + Z.of_nat (length (live_entries owns a entries)).
Proof.
  unfold live_entries. revert count.
  induction entries as [|e rest IH]; intros count; cbn [foldl].
  - cbn. lia.
  - rewrite IH, filter_cons. unfold Host.expired.
    destruct (owns a e) eqn:He; cbn [negb].
    + rewrite decide_True by reflexivity. cbn [length]. lia.
    + now rewrite decide_False by discriminate.
Qed.

Lemma peerCount_live w :
  Host.peerCount owns w
  = Z.of_nat (length (live_entries owns (Host.app w) (Host.peers_ (Host.host w)))).
Proof. unfold Host.peerCount. rewrite count_loop_live. lia. Qed.

Lemma live_entries_app a first second :
  live_entries owns a (first ++ second)
  = live_entries owns a first ++ live_entries owns a second.
Proof. apply filter_app. Qed.

(** Dropping the last shared pointer to one object removes its entries
    from the live ones and no other. *)
Lemma live_entries_drop (before after : App) (dropped : nat) entries :
  owns before dropped = true ->
  owns after dropped = false ->
  (forall e, e <> dropped -> owns after e = owns before e) ->
  length (live_entries owns before entries)
  = (length (live_entries owns after entries)
     + length (filter (fun e => e = dropped) entries))%nat.
Proof.
  intros Hb Ha Hsame. unfold live_entries.
  induction entries as [|e rest IH]; [reflexivity|].
  rewrite !filter_cons. destruct (decide (e = dropped)) as [->|Hne].
  - rewrite decide_True by exact Hb.
    rewrite decide_False by (rewrite Ha; discriminate).
    cbn [length]. lia.
  - rewrite (Hsame e Hne).
    destruct (decide (owns before e = true)); cbn [length]; lia.
Qed.

Lemma entries_of_absent (dropped : nat) entries :
  dropped ∉ entries -> filter (fun e => e = dropped) entries = [].
Proof.
  induction entries as [|e rest IH]; intros Hnotin; [reflexivity|].
  apply not_elem_of_cons in Hnotin as [Hne Hrest].
  rewrite filter_cons, decide_False by congruence. now apply IH.
Qed.

Lemma count_once (dropped : nat) entries :
  NoDup entries -> dropped ∈ entries ->
  length (filter (fun e => e = dropped) entries) = 1%nat.
Proof.
  induction 1 as [|e rest Hnotin Hnodup IH]; intros Hin.
  - now apply not_elem_of_nil in Hin.
  - rewrite filter_cons. destruct (decide (e = dropped)) as [->|Hne].
    + now rewrite entries_of_absent.
    + apply IH. apply elem_of_cons in Hin as [->|Hin]; [contradiction|exact Hin].
Qed.

End Registry.

(** C6. Weak-registry pruning. Once no shared pointer to a registered Peer
    is left, [getPeers()] returns exactly the entries still alive, so not
    that Peer, and leaves exactly those in the registry, so the expired
    entry is erased during the call; [peerCount()] is the number of
    entries that have not expired, before and after the pruning. Compared
    with the moment the application still held the Peer, the count is down
    by the number of entries of that Peer, which is one in a registry
    without repeated entries. No event is involved. *)
Theorem weak_registry_pruning {App : Type} (owns : App -> nat -> bool)
    (w : Host.World App) (dropped : nat) :
  owns (Host.app w) dropped = false ->
  let active := fst (Host.getPeers owns w) in
  let w' := snd (Host.getPeers owns w) in
  (dropped ∉ active)
  /\ (dropped ∉ Host.peers_ (Host.host w'))
  /\ active = filter (fun e => owns (Host.app w) e = true)
                (Host.peers_ (Host.host w))
  /\ Host.peers_ (Host.host w') = active
  /\ Host.app w' = Host.app w
  /\ Host.peerCount owns w
     = Z.of_nat (length (filter (fun e => owns (Host.app w) e = true)
                           (Host.peers_ (Host.host w))))
  /\ Host.peerCount owns w' = Host.peerCount owns w
  /\ (forall before : App,
        owns before dropped = true ->
        (forall e, e <> dropped -> owns (Host.app w) e = owns before e) ->
        Host.peerCount owns w
        = Host.peerCount owns (Host.with_app w before)
          - Z.of_nat (length (filter (fun e => e = dropped)
                                (Host.peers_ (Host.host w))))
        /\ (NoDup (Host.peers_ (Host.host w)) ->
            dropped ∈ Host.peers_ (Host.host w) ->
            Host.peerCount owns w
            = Host.peerCount owns (Host.with_app w before) - 1)).
Proof.
  intros Hdropped. cbv zeta. rewrite getPeers_live. cbn [fst snd].
  assert (dropped ∉ live_entries owns (Host.app w) (Host.peers_ (Host.host w)))
    as Hnot.
  { unfold live_entries. rewrite list_elem_of_filter. intros [Hlive _].
    congruence. }
  repeat split; try exact Hnot; try reflexivity.
  - apply peerCount_live.
  - rewrite !peerCount_live. cbn. unfold live_entries.
    now rewrite list_filter_filter_r by tauto.
  - rewrite !peerCount_live. cbn.
    rewrite (live_entries_drop owns before (Host.app w) dropped) by assumption.
    lia.
  - intros Hnodup Hin. rewrite !peerCount_live. cbn.
    rewrite (live_entries_drop owns before (Host.app w) dropped) by assumption.
    rewrite count_once by assumption. lia.
Qed.

Lemma weak_registry_pruning_witness :
  let w : Host.World (list nat) :=
    {| Host.host :=
         Host.with_peers (Host.create 0 (Some 9%nat) true) [0; 1; 2]%nat;
       Host.heap := [Peer.new None None; Peer.new None None; Peer.new None None];
       Host.app := [0; 2]%nat; Host.trace := [] |} in
  fst (Host.getPeers keeps w) = [0; 2]%nat
  /\ Host.peerCount keeps w = 2
  /\ Host.peerCount keeps (Host.with_app w [0; 1; 2]%nat) = 3.
Proof.
  cbv zeta.
  pose proof (weak_registry_pruning keeps
    {| Host.host :=
         Host.with_peers (Host.create 0 (Some 9%nat) true) [0; 1; 2]%nat;
       Host.heap := [Peer.new None None; Peer.new None None; Peer.new None None];
       Host.app := [0; 2]%nat; Host.trace := [] |} 1%nat eq_refl) as H.
  cbv zeta in H.
  destruct H as (_ & _ & Hactive & _ & _ & Hcount & _ & _).
  split; [exact Hactive|]. split; [exact Hcount|]. reflexivity.
Defined.

(** ** Connect events and the wrappers they create *)

Section Wrappers.
Context {App : Type} (owns : App -> nat -> bool).
Implicit Types (w : Host.World App) (objs : list Peer.t).

Lemma lookup_snoc objs (obj : Peer.t) :
  (objs ++ [obj]) !! length objs = Some obj.
Proof. now apply list_lookup_middle. Qed.

Lemma first_wrapping_none objs (nativePeer : option ENet.ENetPeer)
    (peers : list nat) :
  Forall (fun a => Host.wraps objs nativePeer a = false) peers ->
  Host.first_wrapping objs nativePeer peers = None.
Proof.
  induction 1 as [|a rest Ha _ IH]; cbn; [reflexivity|]. now rewrite Ha.
Qed.

(** Both handlers of a registry that [connect] and [processEvent] extend
    keep it free of repeated and of dangling entries. *)
Lemma registry_ok_push w (obj : Peer.t) :
  Host.registry_ok w ->
  Host.registry_ok
    {| Host.host :=
         Host.with_peers (Host.host w)
           (Host.peers_ (Host.host w) ++ [length (Host.heap w)]);
       Host.heap := Host.heap w ++ [obj]; Host.app := Host.app w;
       Host.trace := Host.trace w |}.
Proof.
  intros [Hnodup Hin]. unfold Host.registry_ok. cbn. split.
  - apply NoDup_app. split; [exact Hnodup|]. split; [|apply NoDup_singleton].
    intros x Hx Hx'. apply list_elem_of_singleton in Hx'. subst x.
    rewrite Forall_forall in Hin. specialize (Hin _ Hx). lia.
  - apply Forall_app. split.
    + eapply Forall_impl; [exact Hin|]. intros x Hx. cbn in Hx.
      rewrite length_app. cbn. lia.
    + apply Forall_singleton. rewrite length_app. cbn. lia.
Qed.

Lemma registry_ok_getPeers w :
  Host.registry_ok w -> Host.registry_ok (snd (Host.getPeers owns w)).
Proof.
  intros [Hnodup Hin]. rewrite getPeers_live. unfold Host.registry_ok. cbn.
  split; [now apply NoDup_filter|]. unfold live_entries.
  apply Forall_forall. intros x Hx. apply list_elem_of_filter in Hx as [_ Hx].
  rewrite Forall_forall in Hin. now apply Hin.
Qed.

Lemma registry_ok_connect (resolve : string -> option Z)
    (nativePeer : option ENet.ENetPeer) (remote : Endpoint.t) w
    (peer : option nat) (w1 : Host.World App) :
  Host.registry_ok w ->
  Host.connect resolve nativePeer remote w = Returned peer w1 ->
  Host.registry_ok w1.
Proof.
  intros Hok. unfold Host.connect.
  destruct (Host.nativeHost_ (Host.host w)); [|discriminate].
  destruct (Endpoint.toEnetAddress resolve remote); [discriminate|].
  destruct nativePeer; [|discriminate]. cbn.
  intros [= _ <-]. now apply registry_ok_push.
Qed.

(** What [service] does with a Connect event. *)
Lemma service_connect_event (lookup : ENet.ENetAddress -> option string)
    (result : Z) (event : ENet.ENetEvent) w (d : EventDispatcher.t App)
    (nativeHost : nat) (native : ENet.ENetPeer) (name : string) :
  Host.nativeHost_ (Host.host w) = Some nativeHost ->
  Host.dispatcher_ (Host.host w) = Some d ->
  lookup (ENet.address native) = Some name ->
  ENet.ev_type event = ENet.ENET_EVENT_TYPE_CONNECT ->
  ENet.ev_peer event = Some native ->
  result > 0 ->
  Host.service owns lookup result event w
  = Returned (result, None)
      {| Host.host :=
           Host.with_peers (Host.host w)
             (Host.peers_ (Host.host w) ++ [length (Host.heap w)]);
         Host.heap :=
           Host.heap w
           ++ [Peer.new (Some native) (Some (Host.self (Host.host w)))];
         Host.app :=
           EventDispatcher.dispatchConnect d
             {| ConnectEvent.peerHandle := Some (length (Host.heap w));
                ConnectEvent.remoteEndpoint :=
                  {| Endpoint.host := name;
                     Endpoint.port := ENet.port (ENet.address native) |};
                ConnectEvent.data := ENet.ev_data event |} (Host.app w);
         Host.trace := Host.trace w |}.
Proof.
  intros Hhost Hd Hlookup Htype Hpeer Hresult.
  unfold Host.service, Host.processEvent, Host.peer_address,
    Endpoint.fromEnetAddress, Host.make_shared.
  rewrite Hhost, Hd, Htype, Hpeer. cbn. rewrite Hlookup.
  now rewrite bool_decide_eq_true_2 by exact Hresult.
Qed.

(** [service] keeps the registry free of repeated and of dangling
    entries, whether it returns or throws. *)
Lemma registry_ok_service (lookup : ENet.ENetAddress -> option string)
    (result : Z) (event : ENet.ENetEvent) w (w' : Host.World App) :
  Host.registry_ok w ->
  (exists v, Host.service owns lookup result event w = Returned v w')
  \/ (exists what, Host.service owns lookup result event w = Threw what w') ->
  Host.registry_ok w'.
Proof.
  intros Hok Hrun.
  pose proof (registry_ok_getPeers w Hok) as Hpruned.
  pose proof (registry_ok_push w
                (Peer.new (ENet.ev_peer event) (Some (Host.self (Host.host w))))
                Hok) as Hpushed.
  rewrite getPeers_live in Hpruned. cbn [snd] in Hpruned.
  unfold Host.service, Host.processEvent, Host.findPeerByNative,
    Host.make_shared, bind_outcome in Hrun.
  rewrite getPeers_live in Hrun.
  repeat
    match type of Hrun with
    | context [match ?x with _ => _ end] =>
        lazymatch x with
        | context [match _ with _ => _ end] => fail
        | _ => destruct x
        end
    end;
    destruct Hrun as [[? Hrun] | [? Hrun]];
    try discriminate; injection Hrun as ? <-;
    unfold Host.registry_ok in *; cbn in *; assumption.
Qed.

End Wrappers.

(** C9. Duplicate registration on a self-initiated connect. [connect]
    makes a Peer object for the engine peer, registers it and hands it to
    the caller. When [service] then sees the Connect event of that engine
    peer, [processEvent] makes a second Peer object for it, at another
    address, and appends it to the registry: the registry ends with the
    two wrappers, both over the same native handle. While the application
    holds both, [peerCount()] counts both and [getPeers()] returns both;
    on a host with no other peer the count is 2 for the one connection. *)
Theorem connect_event_registers_again {App : Type}
    (owns : App -> nat -> bool) (w : Host.World App)
    (d : EventDispatcher.t App) (nativeHost : nat)
    (resolve : string -> option Z)
    (lookup : ENet.ENetAddress -> option string)
    (native : ENet.ENetPeer) (remote : Endpoint.t) (resolved : Z)
    (name : string) (event : ENet.ENetEvent) (result : Z) (stored : App) :
  Host.nativeHost_ (Host.host w) = Some nativeHost ->
  Host.dispatcher_ (Host.host w) = Some d ->
  resolve (Endpoint.host remote) = Some resolved ->
  lookup (ENet.address native) = Some name ->
  ENet.ev_type event = ENet.ENET_EVENT_TYPE_CONNECT ->
  ENet.ev_peer event = Some native ->
  result > 0 ->
  let first := length (Host.heap w) in
  let second := S first in
  exists w1 w2 : Host.World App,
    Host.connect resolve (Some native) remote w = Returned (Some first) w1
    /\ Host.service owns lookup result event (Host.with_app w1 stored)
       = Returned (result, None) w2
    /\ Host.peers_ (Host.host w2)
       = Host.peers_ (Host.host w) ++ [first; second]
    /\ first <> second
    /\ Peer.nativeHandle <$> Host.heap w2 !! first = Some (Some native)
    /\ Peer.nativeHandle <$> Host.heap w2 !! second = Some (Some native)
    /\ Host.app w2
       = EventDispatcher.dispatchConnect d
           {| ConnectEvent.peerHandle := Some second;
              ConnectEvent.remoteEndpoint :=
                {| Endpoint.host := name;
                   Endpoint.port := ENet.port (ENet.address native) |};
              ConnectEvent.data := ENet.ev_data event |} stored
    /\ (owns (Host.app w2) first = true ->
        owns (Host.app w2) second = true ->
        Host.peerCount owns w2
        = Z.of_nat (length (filter (fun e => owns (Host.app w2) e = true)
                              (Host.peers_ (Host.host w)))) + 2
        /\ fst (Host.getPeers owns w2)
           = filter (fun e => owns (Host.app w2) e = true)
               (Host.peers_ (Host.host w)) ++ [first; second]
        /\ (Host.peers_ (Host.host w) = [] ->
            Host.peerCount owns w2 = 2
            /\ fst (Host.getPeers owns w2) = [first; second])).
Proof.
  intros Hhost Hd Hresolve Hlookup Htype Hpeer Hresult. cbv zeta.
  eexists _, _.
  split.
  { unfold Host.connect, Endpoint.toEnetAddress, Host.make_shared.
    rewrite Hhost, Hresolve. reflexivity. }
  split.
  { now apply (service_connect_event owns lookup result event _ d nativeHost
                 native name). }
  cbn [Host.host Host.heap Host.app Host.trace Host.with_app Host.with_peers
       Host.peers_ Host.self].
  rewrite length_app. cbn [length]. rewrite Nat.add_1_r.
  split; [now rewrite <- app_assoc|].
  split; [lia|].
  split.
  { rewrite lookup_app_l by (rewrite length_app; cbn; lia).
    now rewrite lookup_snoc. }
  split.
  { replace (S (length (Host.heap w)))
      with (length (Host.heap w ++ [Peer.new (Some native)
                                      (Some (Host.self (Host.host w)))]))
      by (rewrite length_app; cbn; lia).
    now rewrite lookup_snoc. }
  split; [reflexivity|].
  intros Hfirst Hsecond.
  rewrite peerCount_live, getPeers_live.
  cbn [Host.host Host.heap Host.app Host.trace Host.with_app Host.with_peers
       Host.peers_ Host.self fst].
  rewrite <- app_assoc. cbn [app].
  rewrite live_entries_app. unfold live_entries.
  rewrite !filter_cons, filter_nil.
  rewrite !decide_True by assumption.
  rewrite length_app. cbn [length].
  split; [lia|].
  split; [reflexivity|].
  intros ->. cbn. split; reflexivity.
Qed.

Lemma connect_event_registers_again_witness :
  let client : Host.World (list nat) :=
    {| Host.host :=
         {| Host.self := 0; Host.nativeHost_ := Some 9%nat;
            Host.isServer_ := false;
            Host.dispatcher_ :=
              Some (EventDispatcher.onConnect keep_peer EventDispatcher.new);
            Host.peers_ := []; Host.serviceThreadRunning_ := false |};
       Host.heap := []; Host.app := []; Host.trace := [] |} in
  let native :=
    {| ENet.peer_addr := 1; ENet.state := ENet.ENET_PEER_STATE_CONNECTED;
       ENet.address := {| ENet.host := 2130706433; ENet.port := 7777 |};
       ENet.roundTripTime := 0 |} in
  let event :=
    {| ENet.ev_type := ENet.ENET_EVENT_TYPE_CONNECT;
       ENet.ev_peer := Some native; ENet.ev_channelID := 0;
       ENet.ev_data := 0; ENet.ev_packet := None |} in
  exists w1 w2 : Host.World (list nat),
    Host.connect (fun _ => Some 2130706433) (Some native)
      {| Endpoint.host := "localhost"; Endpoint.port := 7777 |} client
    = Returned (Some 0%nat) w1
    /\ Host.service keeps (fun _ => Some "localhost"%string) 1 event
         (Host.with_app w1 [0%nat])
       = Returned (1, None) w2
    /\ Host.peerCount keeps w2 = 2
    /\ fst (Host.getPeers keeps w2) = [0; 1]%nat.
Proof.
  cbv zeta.
  destruct (connect_event_registers_again keeps
    {| Host.host :=
         {| Host.self := 0; Host.nativeHost_ := Some 9%nat;
            Host.isServer_ := false;
            Host.dispatcher_ :=
              Some (EventDispatcher.onConnect keep_peer EventDispatcher.new);
            Host.peers_ := []; Host.serviceThreadRunning_ := false |};
       Host.heap := []; Host.app := []; Host.trace := [] |}
    (EventDispatcher.onConnect keep_peer EventDispatcher.new) 9%nat
    (fun _ => Some 2130706433) (fun _ => Some "localhost"%string)
    {| ENet.peer_addr := 1; ENet.state := ENet.ENET_PEER_STATE_CONNECTED;
       ENet.address := {| ENet.host := 2130706433; ENet.port := 7777 |};
       ENet.roundTripTime := 0 |}
    {| Endpoint.host := "localhost"; Endpoint.port := 7777 |} 2130706433
    "localhost"%string
    {| ENet.ev_type := ENet.ENET_EVENT_TYPE_CONNECT;
       ENet.ev_peer :=
         Some {| ENet.peer_addr := 1;
                 ENet.state := ENet.ENET_PEER_STATE_CONNECTED;
                 ENet.address := {| ENet.host := 2130706433; ENet.port := 7777 |};
                 ENet.roundTripTime := 0 |};
       ENet.ev_channelID := 0; ENet.ev_data := 0; ENet.ev_packet := None |}
    1 [0%nat] eq_refl eq_refl eq_refl eq_refl eq_refl eq_refl eq_refl)
    as (w1 & w2 & Hconnect & Hservice & _ & _ & _ & _ & Happ & Hboth).
  exists w1, w2. split; [exact Hconnect|]. split; [exact Hservice|].
  assert (Host.app w2 = [0; 1]%nat) as Hheld by exact Happ.
  destruct Hboth as (_ & _ & Hfresh).
  - rewrite Hheld. reflexivity.
  - rewrite Hheld. reflexivity.
  - exact (Hfresh eq_refl).
Defined.

(** ** Events for peers without a live wrapper *)

(** C10. A Disconnect or Receive event whose engine peer no live entry of
    the registry wraps is dropped by [service]: the call returns the
    engine's result, the application's state is what it was whatever the
    handlers registered, so no handler ran; no Packet wrapper is built
    over the event's packet and no call is made into the engine, so the
    packet is neither wrapped nor destroyed. The registry is pruned of its
    expired entries on the way. *)
Theorem unregistered_peer_event_dropped {App : Type}
    (owns : App -> nat -> bool) (w : Host.World App)
    (lookup : ENet.ENetAddress -> option string) (result : Z)
    (event : ENet.ENetEvent) (nativeHost : nat) :
  Host.nativeHost_ (Host.host w) = Some nativeHost ->
  result > 0 ->
  ENet.ev_type event = ENet.ENET_EVENT_TYPE_DISCONNECT
  \/ ENet.ev_type event = ENet.ENET_EVENT_TYPE_RECEIVE ->
  (forall a : nat,
      a ∈ Host.peers_ (Host.host w) ->
      owns (Host.app w) a = true ->
      Host.wraps (Host.heap w) (ENet.ev_peer event) a = false) ->
  exists w' : Host.World App,
    Host.service owns lookup result event w = Returned (result, None) w'
    /\ Host.app w' = Host.app w
    /\ Host.trace w' = Host.trace w
    /\ Host.heap w' = Host.heap w
    /\ (forall d : EventDispatcher.t App,
          Host.dispatcher_ (Host.host w) = Some d ->
          Host.peers_ (Host.host w')
          = filter (fun e => owns (Host.app w) e = true)
              (Host.peers_ (Host.host w))).
Proof.
  intros Hhost Hresult Htype Hnone.
  assert (Host.first_wrapping (Host.heap w) (ENet.ev_peer event)
            (live_entries owns (Host.app w) (Host.peers_ (Host.host w)))
          = None) as Hfind.
  { apply first_wrapping_none, Forall_forall. intros a Ha.
    apply list_elem_of_filter in Ha as [Hlive Hin]. now apply Hnone. }
  unfold Host.service, Host.processEvent, Host.findPeerByNative.
  rewrite Hhost, bool_decide_eq_true_2 by exact Hresult.
  rewrite getPeers_live, Hfind.
  destruct (Host.dispatcher_ (Host.host w)) as [d|] eqn:Hd.
  - destruct Htype as [-> | ->]; cbn; eexists;
      (split; [reflexivity|]); cbn; repeat split; intros; reflexivity.
  - cbn. eexists. split; [reflexivity|]. repeat split. discriminate.
Qed.

(** A server that holds the wrapper of engine peer 2 only, the wrapper of
    engine peer 1 having expired, and gets a packet from engine peer 1. *)
Lemma only_peer_two_is_wrapped (a : nat) :
  a ∈ [0; 1]%nat ->
  keeps [1%nat] a = true ->
  Host.wraps
    [Peer.new
       (Some {| ENet.peer_addr := 1;
                ENet.state := ENet.ENET_PEER_STATE_CONNECTED;
                ENet.address := {| ENet.host := 2130706433; ENet.port := 4001 |};
                ENet.roundTripTime := 0 |}) (Some 0%nat);
     Peer.new
       (Some {| ENet.peer_addr := 2;
                ENet.state := ENet.ENET_PEER_STATE_CONNECTED;
                ENet.address := {| ENet.host := 2130706433; ENet.port := 4002 |};
                ENet.roundTripTime := 0 |}) (Some 0%nat)]
    (Some {| ENet.peer_addr := 1;
             ENet.state := ENet.ENET_PEER_STATE_CONNECTED;
             ENet.address := {| ENet.host := 2130706433; ENet.port := 4001 |};
             ENet.roundTripTime := 0 |}) a
  = false.
Proof.
  intros Hin Hlive.
  apply elem_of_cons in Hin as [-> | Hin]; [discriminate Hlive|].
  apply list_elem_of_singleton in Hin as ->. reflexivity.
Qed.

Lemma unregistered_peer_event_dropped_witness :
  let peer1 :=
    {| ENet.peer_addr := 1; ENet.state := ENet.ENET_PEER_STATE_CONNECTED;
       ENet.address := {| ENet.host := 2130706433; ENet.port := 4001 |};
       ENet.roundTripTime := 0 |} in
  let peer2 :=
    {| ENet.peer_addr := 2; ENet.state := ENet.ENET_PEER_STATE_CONNECTED;
       ENet.address := {| ENet.host := 2130706433; ENet.port := 4002 |};
       ENet.roundTripTime := 0 |} in
  let server : Host.World (list nat) :=
    {| Host.host :=
         {| Host.self := 0; Host.nativeHost_ := Some 9%nat;
            Host.isServer_ := true;
            Host.dispatcher_ :=
              Some (EventDispatcher.onReceive
                      (fun event held =>
                         held ++ option_list (ReceiveEvent.peerHandle event))
                      EventDispatcher.new);
            Host.peers_ := [0; 1]%nat; Host.serviceThreadRunning_ := false |};
       Host.heap :=
         [Peer.new (Some peer1) (Some 0%nat); Peer.new (Some peer2) (Some 0%nat)];
       Host.app := [1%nat]; Host.trace := [] |} in
  let event :=
    {| ENet.ev_type := ENet.ENET_EVENT_TYPE_RECEIVE;
       ENet.ev_peer := Some peer1; ENet.ev_channelID := 0;
       ENet.ev_data := 0;
       ENet.ev_packet :=
         Some {| ENet.packet_addr := 7; ENet.referenceCount := 0;
                 ENet.flags := 1; ENet.data := ["p"; "i"; "n"; "g"]%byte |} |} in
  exists w' : Host.World (list nat),
    Host.service keeps (fun _ => Some "client"%string) 1 event server
    = Returned (1, None) w'
    /\ Host.app w' = [1%nat]
    /\ Host.trace w' = []
    /\ Host.peers_ (Host.host w') = [1%nat].
Proof.
  cbv zeta.
  destruct (unregistered_peer_event_dropped keeps
    {| Host.host :=
         {| Host.self := 0; Host.nativeHost_ := Some 9%nat;
            Host.isServer_ := true;
            Host.dispatcher_ :=
              Some (EventDispatcher.onReceive
                      (fun event held =>
                         held ++ option_list (ReceiveEvent.peerHandle event))
                      EventDispatcher.new);
            Host.peers_ := [0; 1]%nat; Host.serviceThreadRunning_ := false |};
       Host.heap :=
         [Peer.new
            (Some {| ENet.peer_addr := 1;
                     ENet.state := ENet.ENET_PEER_STATE_CONNECTED;
                     ENet.address :=
                       {| ENet.host := 2130706433; ENet.port := 4001 |};
                     ENet.roundTripTime := 0 |}) (Some 0%nat);
          Peer.new
            (Some {| ENet.peer_addr := 2;
                     ENet.state := ENet.ENET_PEER_STATE_CONNECTED;
                     ENet.address :=
                       {| ENet.host := 2130706433; ENet.port := 4002 |};
                     ENet.roundTripTime := 0 |}) (Some 0%nat)];
       Host.app := [1%nat]; Host.trace := [] |}
    (fun _ => Some "client"%string) 1
    {| ENet.ev_type := ENet.ENET_EVENT_TYPE_RECEIVE;
       ENet.ev_peer :=
         Some {| ENet.peer_addr := 1;
                 ENet.state := ENet.ENET_PEER_STATE_CONNECTED;
                 ENet.address := {| ENet.host := 2130706433; ENet.port := 4001 |};
                 ENet.roundTripTime := 0 |};
       ENet.ev_channelID := 0; ENet.ev_data := 0;
       ENet.ev_packet :=
         Some {| ENet.packet_addr := 7; ENet.referenceCount := 0;
                 ENet.flags := 1; ENet.data := ["p"; "i"; "n"; "g"]%byte |} |}
    9%nat eq_refl eq_refl (or_intror eq_refl) only_peer_two_is_wrapped)
    as (w' & Hservice & Happ & Htrace & _ & Hpeers).
  exists w'. split; [exact Hservice|]. split; [exact Happ|].
  split; [exact Htrace|]. exact (Hpeers _ eq_refl).
Defined.

(** * Further properties *)

(** ** Messages *)

Lemma bind_outcome_assoc {St A B C : Type} (m : outcome St A)
    (k : A -> St -> outcome St B) (k' : B -> St -> outcome St C) :
  bind_outcome (bind_outcome m k) k'
  = bind_outcome m (fun a s => bind_outcome (k a s) k').
Proof. now destruct m. Qed.

Lemma write_field_bytes (b : PacketBuilder.t) (f : Message.field) :
  PacketBuilder.buffer_ (Message.write_field b f)
  = PacketBuilder.buffer_ b ++ Message.bytes_of_field f.
Proof.
  destruct f; cbn; try reflexivity. now rewrite <- app_assoc.
Qed.

Lemma write_fields_bytes (b : PacketBuilder.t) (fs : list Message.field) :
  PacketBuilder.buffer_ (Message.write_fields b fs)
  = PacketBuilder.buffer_ b ++ Message.bytes_of fs.
Proof.
  unfold Message.write_fields, Message.bytes_of. revert b.
  induction fs as [|f rest IH]; intros b; cbn.
  - now rewrite app_nil_r.
  - now rewrite IH, write_field_bytes, <- app_assoc.
Qed.

Lemma length_bytes_of_field (f : Message.field) :
  Z.of_nat (length (Message.bytes_of_field f)) = Message.field_size f.
Proof.
  destruct f; cbn [Message.bytes_of_field Message.field_size];
    rewrite ?length_app, ?length_le_bytes; try reflexivity; lia.
Qed.

Lemma length_bytes_of (fs : list Message.field) :
  Z.of_nat (length (Message.bytes_of fs)) = Message.size_of fs.
Proof.
  unfold Message.bytes_of, Message.size_of.
  induction fs as [|f rest IH]; cbn; [reflexivity|].
  rewrite length_app, Nat2Z.inj_add, IH, length_bytes_of_field. reflexivity.
Qed.

(** One field read back where it was written. *)
Lemma read_field_round_trip (f : Message.field) (before after : list byte) :
  Message.field_ok f ->
  Z.of_nat (length (before ++ Message.bytes_of_field f ++ after)) <= SIZE_MAX ->
  Message.read_field (Message.kind_of f)
    {| PacketReader.data_ := before ++ Message.bytes_of_field f ++ after;
       PacketReader.position_ := Z.of_nat (length before) |}
  = Returned f
      {| PacketReader.data_ := before ++ Message.bytes_of_field f ++ after;
         PacketReader.position_ :=
           Z.of_nat (length (before ++ Message.bytes_of_field f)) |}.
Proof.
  intros Hok Hfit. rewrite length_app, Nat2Z.inj_add.
  destruct f as [v|v|v|v|str|bytes]; cbn [Message.kind_of Message.read_field
    Message.bytes_of_field Message.field_ok] in *; unfold and_then, ret.
  - rewrite readUint8_round_trip by assumption. reflexivity.
  - change (le_bytes 2 (u16 v)) with (object_bytes v) in *.
    unfold PacketReader.readUint16.
    pose proof (read_object_round_trip uint16_t
      "Not enough data to read uint16" before after v) as Hread.
    rewrite (Hread Hok Hfit).
    cbn [bind_outcome]. now rewrite object_bytes_length.
  - change (le_bytes 4 (u32 v)) with (object_bytes v) in *.
    unfold PacketReader.readUint32.
    pose proof (read_object_round_trip uint32_t
      "Not enough data to read uint32" before after v) as Hread.
    rewrite (Hread Hok Hfit).
    cbn [bind_outcome]. now rewrite object_bytes_length.
  - change (le_bytes 8 (u64 v)) with (object_bytes v) in *.
    unfold PacketReader.readUint64.
    pose proof (read_object_round_trip uint64_t
      "Not enough data to read uint64" before after v) as Hread.
    rewrite (Hread Hok Hfit).
    cbn [bind_outcome]. now rewrite object_bytes_length.
  - rewrite <- app_assoc in Hfit |- *.
    pose proof (read_string_round_trip before str after Hok Hfit) as Hread.
    unfold PacketBuilderExample.read_string, and_then in Hread.
    rewrite <- (bind_outcome_assoc _
      (fun str_len => PacketReader.readString (u32 str_len))
      (fun str s => Returned (Message.String str) s)).
    rewrite Hread. cbn [bind_outcome].
    rewrite length_app, length_le_bytes. do 2 f_equal. lia.
  - rewrite readString_middle by assumption. reflexivity.
Qed.

Lemma read_fields_round_trip (fs : list Message.field)
    (before after : list byte) :
  Forall Message.field_ok fs ->
  Z.of_nat (length (before ++ Message.bytes_of fs ++ after)) <= SIZE_MAX ->
  Message.read_fields (map Message.kind_of fs)
    {| PacketReader.data_ := before ++ Message.bytes_of fs ++ after;
       PacketReader.position_ := Z.of_nat (length before) |}
  = Returned fs
      {| PacketReader.data_ := before ++ Message.bytes_of fs ++ after;
         PacketReader.position_ :=
           Z.of_nat (length (before ++ Message.bytes_of fs)) |}.
Proof.
  intros Hok. revert before.
  induction Hok as [|f rest Hf Hrest IH]; intros before Hfit.
  - cbn. now rewrite app_nil_r.
  - change (Message.bytes_of (f :: rest))
      with (Message.bytes_of_field f ++ Message.bytes_of rest) in *.
    cbn [map Message.read_fields]. unfold and_then at 1.
    rewrite <- (app_assoc (Message.bytes_of_field f)) in Hfit |- *.
    rewrite read_field_round_trip by assumption. cbn [bind_outcome].
    unfold and_then at 1.
    rewrite (app_assoc before (Message.bytes_of_field f)) in Hfit |- *.
    rewrite IH by assumption. cbn [bind_outcome ret].
    now rewrite <- !app_assoc.
Qed.

(** A message of any fields, written by a builder after whatever it held
    and followed by whatever comes later, takes as many bytes as its
    fields' sizes add up to and is read back, field by field from the
    offset it starts at, as the fields written; the cursor ends where the
    message ends. Integers are those of their types and strings are
    shorter than 2^32 bytes. *)
Theorem message_round_trip (b : PacketBuilder.t) (fs : list Message.field)
    (later : list byte) :
  Forall Message.field_ok fs ->
  Z.of_nat (length (PacketBuilder.buffer_ (Message.write_fields b fs) ++ later))
  <= SIZE_MAX ->
  PacketBuilder.size (Message.write_fields b fs)
  = PacketBuilder.size b + Message.size_of fs
  /\ Message.read_fields (map Message.kind_of fs)
       (PacketReader.seek (PacketBuilder.size b)
          (PacketReader.of_span
             (PacketBuilder.buffer_ (Message.write_fields b fs) ++ later)))
     = Returned fs
         {| PacketReader.data_ :=
              PacketBuilder.buffer_ (Message.write_fields b fs) ++ later;
            PacketReader.position_ :=
              PacketBuilder.size (Message.write_fields b fs) |}.
Proof.
  intros Hok Hfit. unfold PacketBuilder.size.
  rewrite write_fields_bytes in *. split.
  - rewrite length_app, Nat2Z.inj_add, length_bytes_of. reflexivity.
  - rewrite <- app_assoc in *. rewrite seek_to_offset.
    now rewrite read_fields_round_trip by assumption.
Qed.

Lemma message_round_trip_witness :
  let fs :=
    [Message.Uint16 (U16 42);
     Message.String (String.list_byte_of_string "Test Message");
     Message.Uint64 (U64 7); Message.Raw ["001"; "002"]%byte;
     Message.Uint8 (U8 255)] in
  PacketBuilder.size (Message.write_fields PacketBuilder.new fs) = 29
  /\ Message.read_fields (map Message.kind_of fs)
       (PacketReader.seek (PacketBuilder.size PacketBuilder.new)
          (PacketReader.of_span
             (PacketBuilder.buffer_ (Message.write_fields PacketBuilder.new fs)
              ++ [])))
     = Returned fs
         {| PacketReader.data_ :=
              PacketBuilder.buffer_ (Message.write_fields PacketBuilder.new fs)
              ++ [];
            PacketReader.position_ :=
              PacketBuilder.size (Message.write_fields PacketBuilder.new fs) |}.
Proof.
  cbv zeta.
  apply (message_round_trip PacketBuilder.new
    [Message.Uint16 (U16 42);
     Message.String (String.list_byte_of_string "Test Message");
     Message.Uint64 (U64 7); Message.Raw ["001"; "002"]%byte;
     Message.Uint8 (U8 255)] []).
  - repeat constructor; vm_compute; try discriminate; reflexivity.
  - vm_compute. discriminate.
Defined.

(** ** Reads as windows of the span *)

Lemma readString_window (n : Z) (r : PacketReader.t) :
  cursor_ok r -> span_ok r -> 0 <= n ->
  PacketReader.position_ r + n <= PacketReader.size r ->
  PacketReader.readString n r
  = Returned
      (take (Z.to_nat n)
         (drop (Z.to_nat (PacketReader.position_ r)) (PacketReader.data_ r)))
      (PacketReader.with_position r (PacketReader.position_ r + n)).
Proof.
  unfold cursor_ok, span_ok. intros Hcur Hspan Hn Hfit.
  unfold PacketReader.readString, PacketReader.copy_from.
  rewrite size_t_wrap_small by lia.
  rewrite bool_decide_eq_false_2 by lia.
  unfold PacketReader.size in Hfit.
  rewrite bool_decide_eq_true_2 by exact Hfit. reflexivity.
Qed.

Lemma read_window (n : Z) (r : PacketReader.t) :
  cursor_ok r -> span_ok r -> 0 <= n ->
  PacketReader.position_ r + n <= PacketReader.size r ->
  PacketReader.read n r
  = Returned
      (Some (take (Z.to_nat n)
         (drop (Z.to_nat (PacketReader.position_ r)) (PacketReader.data_ r))))
      (PacketReader.with_position r (PacketReader.position_ r + n)).
Proof.
  unfold cursor_ok, span_ok. intros Hcur Hspan Hn Hfit.
  unfold PacketReader.read, PacketReader.copy_from.
  rewrite size_t_wrap_small by lia.
  rewrite bool_decide_eq_false_2 by lia.
  unfold PacketReader.size in Hfit.
  rewrite bool_decide_eq_true_2 by exact Hfit. reflexivity.
Qed.

Lemma take_drop_split {A : Type} (n m p : nat) (l : list A) :
  take (n + m) (drop p l) = take n (drop p l) ++ take m (drop (p + n) l).
Proof. now rewrite <- take_take_drop, drop_drop. Qed.

(** What a reader gives is a window of its span, whatever was written
    there: inside the span and a [size_t] away from overflow,
    [readString(n)] and [read(buffer, n)] give the [n] bytes that start
    at the cursor and move it [n] on; two reads in a row give what one
    read of both sizes gives, cut where the first ends, and leave the
    same reader; and [seek(p)] then [readString(n)] gives the [n] bytes
    at offset [p], wherever the cursor was. *)
Theorem reads_are_windows (r : PacketReader.t) (p n m : Z) :
  cursor_ok r -> span_ok r -> 0 <= n -> 0 <= m ->
  PacketReader.position_ r + n + m <= PacketReader.size r ->
  0 <= p -> p + n <= PacketReader.size r ->
  let window (off len : Z) :=
    take (Z.to_nat len) (drop (Z.to_nat off) (PacketReader.data_ r)) in
  let at_ (q : Z) := PacketReader.with_position r q in
  let pos := PacketReader.position_ r in
  PacketReader.readString n r = Returned (window pos n) (at_ (pos + n))
  /\ PacketReader.read n r = Returned (Some (window pos n)) (at_ (pos + n))
  /\ (let! first := PacketReader.readString n in
      let! second := PacketReader.readString m in
      ret (first ++ second)) r
     = PacketReader.readString (n + m) r
  /\ PacketReader.readString (n + m) r
     = Returned (window pos n ++ window (pos + n) m) (at_ (pos + n + m))
  /\ PacketReader.readString n (PacketReader.seek p r)
     = Returned (window p n) (at_ (p + n)).
Proof.
  intros Hcur Hspan Hn Hm Hfit Hp Hpfit window at_ pos.
  pose proof Hcur as [Hlo Hhi].
  assert (Hsplit : window pos (n + m) = window pos n ++ window (pos + n) m).
  { unfold window. rewrite !Z2Nat.inj_add by lia. apply take_drop_split. }
  assert (Hnext : cursor_ok (at_ (pos + n))).
  { unfold cursor_ok, at_, PacketReader.with_position, PacketReader.size in *.
    cbn. subst pos. lia. }
  assert (Hwhole : PacketReader.readString (n + m) r
                   = Returned (window pos n ++ window (pos + n) m)
                       (at_ (pos + n + m))).
  { rewrite readString_window by (try assumption; subst pos; lia).
    fold pos. fold (window pos (n + m)). rewrite Hsplit.
    subst at_ pos. cbn. do 2 f_equal. lia. }
  split; [apply readString_window; (assumption || (subst pos; lia))|].
  split; [apply read_window; (assumption || (subst pos; lia))|].
  split; [|split; [exact Hwhole|]].
  - rewrite Hwhole. unfold and_then, ret.
    rewrite readString_window by (try assumption; subst pos; lia).
    cbn [bind_outcome]. fold pos. fold (at_ (pos + n)).
    rewrite readString_window;
      [reflexivity | exact Hnext | exact Hspan | exact Hm |].
    unfold at_, PacketReader.with_position, PacketReader.size. cbn.
    unfold PacketReader.size in Hfit. subst pos. lia.
  - unfold PacketReader.seek.
    unfold PacketReader.size in *.
    case_bool_decide as Hlt.
    + rewrite readString_window; [reflexivity | | exact Hspan | exact Hn |];
        unfold cursor_ok, PacketReader.with_position, PacketReader.size; cbn;
        lia.
    + assert (p = Z.of_nat (length (PacketReader.data_ r))) as Heq by lia.
      assert (n = 0) as -> by lia.
      rewrite readString_window; [rewrite Heq; reflexivity | | exact Hspan | |];
        unfold cursor_ok, PacketReader.with_position, PacketReader.size; cbn;
        lia.
Qed.

Lemma reads_are_windows_witness :
  let r := PacketReader.skip 1
             (PacketReader.of_span
                (String.list_byte_of_string "Hello, World!")) in
  PacketReader.readString 4 r
  = Returned (String.list_byte_of_string "ello")
      (PacketReader.with_position r 5)
  /\ PacketReader.readString (4 + 3) r
     = Returned (String.list_byte_of_string "ello, W")
         (PacketReader.with_position r 8)
  /\ PacketReader.readString 4 (PacketReader.seek 7 r)
     = Returned (String.list_byte_of_string "Worl")
         (PacketReader.with_position r 11).
Proof.
  cbv zeta.
  pose proof (reads_are_windows
    (PacketReader.skip 1
       (PacketReader.of_span (String.list_byte_of_string "Hello, World!")))
    7 4 3) as Hwin.
  cbv zeta in Hwin.
  assert (Hwindows := Hwin ltac:(vm_compute; intuition discriminate)
    ltac:(vm_compute; discriminate) ltac:(lia) ltac:(lia)
    ltac:(vm_compute; discriminate) ltac:(lia)
    ltac:(vm_compute; discriminate)).
  destruct Hwindows as (Hfirst & _ & _ & Hboth & Hseek).
  split; [exact Hfirst|]. split; [exact Hboth | exact Hseek].
Defined.

(** [remaining()] is what is left of the span, and reading that many
    bytes empties the reader: inside a span whose size is a [size_t],
    [remaining()] is [size() - position()], [atEnd()] holds exactly when
    it is 0, [readString(remaining())] gives every byte from the cursor
    to the end and leaves the reader at the end, where nothing is left
    and [readUint8] throws. *)
Theorem reader_drains (r : PacketReader.t) :
  cursor_ok r -> span_ok r ->
  let rest := drop (Z.to_nat (PacketReader.position_ r)) (PacketReader.data_ r) in
  let done := PacketReader.with_position r (PacketReader.size r) in
  PacketReader.remaining r = PacketReader.size r - PacketReader.position r
  /\ PacketReader.remaining r = Z.of_nat (length rest)
  /\ (PacketReader.atEnd r = true <-> PacketReader.remaining r = 0)
  /\ PacketReader.readString (PacketReader.remaining r) r = Returned rest done
  /\ PacketReader.read (PacketReader.remaining r) r = Returned (Some rest) done
  /\ PacketReader.atEnd done = true
  /\ PacketReader.remaining done = 0
  /\ PacketReader.readUint8 done = Threw "Not enough data to read uint8" done.
Proof.
  intros Hcur Hspan rest done.
  pose proof (remaining_exact r Hcur Hspan) as Hrem.
  unfold cursor_ok, span_ok, PacketReader.position in *.
  assert (Hrest : take (Z.to_nat (PacketReader.remaining r)) rest = rest).
  { apply take_ge. subst rest. rewrite length_drop, Hrem.
    unfold PacketReader.size in *. lia. }
  assert (Hdone : PacketReader.with_position r
                    (PacketReader.position_ r + PacketReader.remaining r)
                  = done).
  { subst done. f_equal. lia. }
  repeat split.
  - exact Hrem.
  - subst rest. rewrite length_drop, Hrem. unfold PacketReader.size in *. lia.
  - unfold PacketReader.atEnd. intros Hend%bool_decide_eq_true. lia.
  - unfold PacketReader.atEnd. intros Hzero. apply bool_decide_eq_true. lia.
  - rewrite readString_window by (unfold cursor_ok, span_ok; lia).
    fold rest. now rewrite Hrest, Hdone.
  - rewrite read_window by (unfold cursor_ok, span_ok; lia).
    fold rest. now rewrite Hrest, Hdone.
  - unfold PacketReader.atEnd, done, PacketReader.size. cbn.
    apply bool_decide_eq_true. lia.
  - unfold PacketReader.remaining, done, PacketReader.size. cbn.
    now rewrite Z.sub_diag.
  - unfold PacketReader.readUint8, done, PacketReader.size. cbn.
    now rewrite bool_decide_eq_true_2 by lia.
Qed.

Lemma reader_drains_witness :
  let r := PacketReader.skip 7
             (PacketReader.of_span
                (String.list_byte_of_string "Hello, World!")) in
  PacketReader.remaining r = 6
  /\ PacketReader.readString (PacketReader.remaining r) r
     = Returned (String.list_byte_of_string "World!")
         (PacketReader.with_position r 13).
Proof.
  cbv zeta.
  pose proof (reader_drains
    (PacketReader.skip 7
       (PacketReader.of_span (String.list_byte_of_string "Hello, World!"))))
    as Hdrain.
  cbv zeta in Hdrain.
  assert (Hall := Hdrain ltac:(vm_compute; intuition discriminate)
    ltac:(vm_compute; discriminate)).
  destruct Hall as (Hrem & _ & _ & Hread & _).
  split; [exact Hrem | exact Hread].
Defined.

(** ** The length prefix of a string *)

Lemma readString_prefix (n : Z) (before middle after : list byte) :
  Z.of_nat (length (before ++ middle ++ after)) <= SIZE_MAX ->
  0 <= n <= Z.of_nat (length middle) ->
  PacketReader.readString n
    {| PacketReader.data_ := before ++ middle ++ after;
       PacketReader.position_ := Z.of_nat (length before) |}
  = Returned (take (Z.to_nat n) middle)
      {| PacketReader.data_ := before ++ middle ++ after;
         PacketReader.position_ := Z.of_nat (length before) + n |}.
Proof.
  intros Hfit Hn. rewrite !length_app in Hfit.
  rewrite readString_window;
    try (unfold cursor_ok, span_ok, PacketReader.size; cbn;
         rewrite ?length_app; lia).
  cbn. rewrite Nat2Z.id, drop_app_length.
  rewrite take_app_le by lia. reflexivity.
Qed.

(** [writeString] stores the size of the string cut to 32 bits in front of
    it. Read back the way the examples do, [readUint32] then
    [readString], a string of any size gives its first [size mod 2^32]
    bytes, and the cursor stops that far behind the prefix: the string
    itself when it is shorter than 2^32 bytes, and otherwise a proper
    prefix, with the rest of the string left for the next read. *)
Theorem string_prefix_is_truncated (b : PacketBuilder.t)
    (str later : list byte) :
  Z.of_nat (length (PacketBuilder.buffer_ (PacketBuilder.writeString str b)
                    ++ later)) <= SIZE_MAX ->
  let stored := Z.of_nat (length str) mod 2 ^ 32 in
  PacketBuilderExample.read_string
    (PacketReader.seek (PacketBuilder.size b)
       (PacketReader.of_span
          (PacketBuilder.buffer_ (PacketBuilder.writeString str b) ++ later)))
  = Returned (take (Z.to_nat stored) str)
      {| PacketReader.data_ :=
           PacketBuilder.buffer_ (PacketBuilder.writeString str b) ++ later;
         PacketReader.position_ := PacketBuilder.size b + 4 + stored |}
  /\ (Z.of_nat (length str) < 2 ^ 32 -> take (Z.to_nat stored) str = str)
  /\ (2 ^ 32 <= Z.of_nat (length str) ->
      (length (take (Z.to_nat stored) str) < length str)%nat).
Proof.
  intros Hfit stored.
  assert (Hstored : 0 <= stored < 2 ^ 32) by (apply Z.mod_pos_bound; lia).
  assert (Hle : stored <= Z.of_nat (length str))
    by (apply Z.mod_le; lia).
  split; [|split].
  - change (PacketBuilder.buffer_ (PacketBuilder.writeString str b))
      with ((PacketBuilder.buffer_ b ++ le_bytes 4 stored) ++ str) in *.
    rewrite <- !app_assoc in *. unfold PacketBuilder.size.
    rewrite seek_to_offset.
    unfold PacketBuilderExample.read_string, and_then.
    change (le_bytes 4 stored) with (object_bytes (U32 stored)) in *.
    unfold PacketReader.readUint32.
    pose proof (read_object_round_trip uint32_t
      "Not enough data to read uint32" (PacketBuilder.buffer_ b)
      (str ++ later) (U32 stored)) as Hread.
    rewrite (Hread Hstored Hfit). cbn [bind_outcome u32].
    change (object_bytes (U32 stored)) with (le_bytes 4 stored) in *.
    rewrite (app_assoc (PacketBuilder.buffer_ b)) in *.
    replace (Z.of_nat (length (PacketBuilder.buffer_ b))
             + Z.of_nat (sizeof uint32_t))
      with (Z.of_nat (length (PacketBuilder.buffer_ b ++ le_bytes 4 stored)))
      by (rewrite length_app, length_le_bytes; cbn; lia).
    rewrite readString_prefix by (assumption || lia).
    rewrite length_app, length_le_bytes. do 2 f_equal. lia.
  - intros Hshort. apply take_ge.
    subst stored. rewrite Z.mod_small by lia. lia.
  - intros Hlong. rewrite length_take. lia.
Qed.

Lemma string_prefix_is_truncated_witness :
  PacketBuilderExample.read_string
    (PacketReader.seek 1
       (PacketReader.of_span
          (PacketBuilder.buffer_
             (PacketBuilder.writeString
                (String.list_byte_of_string "Test Message")
                (PacketBuilder.writeUint8 (U8 7) PacketBuilder.new))
           ++ ["255"]%byte)))
  = Returned (String.list_byte_of_string "Test Message")
      {| PacketReader.data_ :=
           PacketBuilder.buffer_
             (PacketBuilder.writeString
                (String.list_byte_of_string "Test Message")
                (PacketBuilder.writeUint8 (U8 7) PacketBuilder.new))
           ++ ["255"]%byte;
         PacketReader.position_ := 17 |}.
Proof.
  pose proof (string_prefix_is_truncated
    (PacketBuilder.writeUint8 (U8 7) PacketBuilder.new)
    (String.list_byte_of_string "Test Message") ["255"]%byte) as Hread.
  cbv zeta in Hread.
  exact (proj1 (Hread ltac:(vm_compute; discriminate))).
Defined.

(** ** Packets *)

(** Moving a packet wrapper never duplicates or loses the engine packet:
    after the move constructor the new wrapper holds the handle and the
    moved-from one holds none; after the move assignment this wrapper
    holds the handle of the other one, the other one holds none, and the
    packet this wrapper held before has been destroyed. Either way,
    destroying the wrappers afterwards makes, with the calls already
    made, exactly the destroy calls that destroying the two wrappers
    without the move would have made, in the same order. Assigning a
    moved-from wrapper destroys the packet held and leaves both wrappers
    empty, and assigning a wrapper to itself makes no call. *)
Theorem packet_moves_keep_one_owner (this other : Packet.t) :
  (let '(target, source) := Packet.move other in
   Packet.nativeHandle target = Packet.nativeHandle other
   /\ Packet.nativeHandle source = None
   /\ Packet.destroy target ++ Packet.destroy source = Packet.destroy other)
  /\ (let '(this', other', calls) := Packet.move_assign this other in
      Packet.nativeHandle this' = Packet.nativeHandle other
      /\ Packet.nativeHandle other' = None
      /\ calls = Packet.destroy this
      /\ calls ++ Packet.destroy this' ++ Packet.destroy other'
         = Packet.destroy this ++ Packet.destroy other
      /\ Packet.move_assign this' other'
         = (other', other', Packet.destroy other))
  /\ (let '(this', calls) := Packet.move_assign_self this in
      this' = this /\ calls = []).
Proof.
  unfold Packet.move, Packet.move_assign, Packet.move_assign_self,
    Packet.nativeHandle, Packet.destroy.
  destruct this as [[held|]], other as [[given|]]; cbn; repeat split.
Qed.

(** A wrapper without an engine packet, as a moved-from one is, is an
    empty packet: its size, flags and reference count are 0, its data,
    string and vector are empty, it has no flag, [resize] throws "Cannot
    resize null packet" whatever the engine would answer, [as<T>] throws
    for every type of at least one byte, its destructor makes no call,
    and a reader over it is at its end and gives nothing. *)
Theorem null_packet_is_empty (p : Packet.t) :
  Packet.nativeHandle p = None ->
  Packet.size p = 0 /\ Packet.data p = []
  /\ Packet.asString p = [] /\ Packet.toVector p = []
  /\ Packet.flags p = 0 /\ Packet.referenceCount p = 0
  /\ (forall flag, Packet.hasFlag flag p = false)
  /\ (forall rc newSize,
        Packet.resize rc newSize p = Some "Cannot resize null packet"%string)
  /\ (forall T `{Serializable T}, (0 < sizeof T)%nat ->
        Packet.as_value T p = inl "Packet too small for requested type"%string)
  /\ Packet.destroy p = []
  /\ PacketReader.atEnd (PacketReader.of_packet p) = true
  /\ PacketReader.remaining (PacketReader.of_packet p) = 0
  /\ (forall n, 0 < n <= SIZE_MAX ->
        PacketReader.read n (PacketReader.of_packet p)
        = Returned None (PacketReader.of_packet p)).
Proof.
  unfold Packet.nativeHandle. destruct p as [[held|]]; [discriminate|].
  intros _. repeat split.
  - intros T HT Hsize. unfold Packet.as_value. cbn.
    now rewrite bool_decide_eq_true_2 by lia.
  - intros n Hn. unfold PacketReader.read, PacketReader.size. cbn.
    rewrite size_t_wrap_small by lia.
    now rewrite bool_decide_eq_true_2 by lia.
Qed.

Lemma null_packet_is_empty_witness :
  let moved_from :=
    snd (Packet.move
           {| Packet.nativePacket_ :=
                ENet.enet_packet_create (Some 5%nat)
                  (String.list_byte_of_string "Hello") 1 |}) in
  Packet.size moved_from = 0 /\ Packet.destroy moved_from = [].
Proof.
  cbv zeta.
  pose proof (null_packet_is_empty
    (snd (Packet.move
            {| Packet.nativePacket_ :=
                 ENet.enet_packet_create (Some 5%nat)
                   (String.list_byte_of_string "Hello") 1 |}))
    eq_refl) as Hnull.
  destruct Hnull as (Hsize & _ & _ & _ & _ & _ & _ & _ & _ & Hdestroy & _).
  split; [exact Hsize | exact Hdestroy].
Defined.

(** A value sent as a packet is the value received: for a trivially
    copyable type and a value of it, [Packet::create(value, flags)], when
    the engine allocates the packet, gives a packet of [sizeof(T)] bytes
    with these flags, from which [as<T>()] and a reader's [read<T>()] give
    the value back, the reader ending at its end. [as<T>()] throws on
    every packet of fewer bytes, and [create] throws when the engine does
    not allocate. *)
Theorem packet_value_round_trip (T : Type) `{TriviallyCopyable T}
    (where_ : nat) (v : T) (pflags : Z) :
  representable v ->
  Z.of_nat (sizeof T) <= SIZE_MAX ->
  exists pkt : Packet.t,
    Packet.create_value (Some where_) v pflags = inr pkt
    /\ Packet.as_value T pkt = inr v
    /\ Packet.size pkt = Z.of_nat (sizeof T)
    /\ Packet.flags pkt = pflags
    /\ Packet.destroy pkt = [ENet.enet_packet_destroy where_]
    /\ PacketReader.read_value T (PacketReader.of_packet pkt)
       = Returned v
           (PacketReader.with_position (PacketReader.of_packet pkt)
              (Packet.size pkt))
    /\ (forall (bytes : list byte) (short : Packet.t),
          (length bytes < sizeof T)%nat ->
          Packet.create (Some where_) bytes pflags = inr short ->
          Packet.as_value T short
          = inl "Packet too small for requested type"%string)
    /\ Packet.create_value None v pflags
       = inl "Failed to create ENet packet"%string.
Proof.
  intros Hv Hsize. eexists. split; [reflexivity|].
  unfold Packet.as_value, Packet.size, Packet.data, Packet.flags,
    Packet.destroy, ENet.dataLength. cbn.
  rewrite object_bytes_length. repeat split.
  - rewrite bool_decide_eq_false_2 by lia.
    rewrite <- (object_bytes_length v), firstn_all.
    now rewrite object_of_bytes_inv.
  - pose proof (read_object_round_trip T
      "Not enough data to read requested type" [] [] v Hv) as Hread.
    rewrite app_nil_r in Hread. cbn [app] in Hread.
    rewrite object_bytes_length in Hread.
    change (Z.of_nat (@length byte [])) with 0 in Hread.
    unfold PacketReader.read_value, PacketReader.of_packet,
      PacketReader.of_span, PacketReader.with_position, Packet.data. cbn.
    now rewrite Hread by exact Hsize.
  - intros bytes short Hshort [= <-]. cbn.
    now rewrite bool_decide_eq_true_2 by lia.
Qed.

Lemma packet_value_round_trip_witness :
  exists pkt : Packet.t,
    Packet.create_value (Some 3%nat) (U32 305419896) 1 = inr pkt
    /\ Packet.as_value uint32_t pkt = inr (U32 305419896).
Proof.
  destruct (packet_value_round_trip uint32_t 3%nat (U32 305419896) 1)
    as (pkt & Hcreate & Has & _).
  - vm_compute. split; [discriminate | reflexivity].
  - vm_compute. discriminate.
  - exists pkt. split; assumption.
Defined.

(** A message written by a new builder and built into a packet is what a
    reader over the packet gives: when the engine allocates the packet,
    [build(flags)] gives a packet that holds the builder's bytes, as many
    as the fields' sizes add up to, with these flags, and leaves the
    builder as it is; and the reads of the message's layout on a reader
    over that packet return the fields written and leave the reader at
    its end. *)
Theorem built_packet_reads_back (fs : list Message.field) (where_ : nat)
    (pflags : Z) :
  Forall Message.field_ok fs ->
  Message.size_of fs <= SIZE_MAX ->
  let b := Message.write_fields PacketBuilder.new fs in
  exists pkt : Packet.t,
    PacketBuilder.build (Some where_) pflags b = inr pkt
    /\ Packet.data pkt = PacketBuilder.data b
    /\ Packet.size pkt = PacketBuilder.size b
    /\ Packet.size pkt = Message.size_of fs
    /\ Packet.flags pkt = pflags
    /\ Message.read_fields (map Message.kind_of fs)
         (PacketReader.of_packet pkt)
       = Returned fs
           (PacketReader.with_position (PacketReader.of_packet pkt)
              (Packet.size pkt))
    /\ PacketReader.atEnd
         (PacketReader.with_position (PacketReader.of_packet pkt)
            (Packet.size pkt)) = true.
Proof.
  intros Hok Hsize b. eexists. split; [reflexivity|].
  assert (Hbytes : PacketBuilder.buffer_ b = Message.bytes_of fs).
  { subst b. now rewrite write_fields_bytes. }
  unfold Packet.size, Packet.data, Packet.flags, ENet.dataLength,
    PacketBuilder.data, PacketBuilder.size, PacketReader.of_packet,
    PacketReader.of_span, PacketReader.with_position, PacketReader.atEnd,
    PacketReader.size, Packet.data.
  cbn. rewrite Hbytes, length_bytes_of. repeat split.
  - pose proof (read_fields_round_trip fs [] [] Hok) as Hread.
    rewrite app_nil_r in Hread. cbn [app] in Hread.
    rewrite length_bytes_of in Hread.
    change (Z.of_nat (@length byte [])) with 0 in Hread.
    now rewrite Hread by exact Hsize.
  - apply bool_decide_eq_true. lia.
Qed.

Lemma built_packet_reads_back_witness :
  let fs :=
    [Message.Uint32 (U32 305419896);
     Message.String (String.list_byte_of_string "Hello, World!");
     Message.Uint32 (U32 314159); Message.Uint8 (U8 255)] in
  exists pkt : Packet.t,
    PacketBuilder.build (Some 9%nat) DEFAULT_FLAGS
      (Message.write_fields PacketBuilder.new fs) = inr pkt
    /\ Packet.size pkt = 26
    /\ Message.read_fields (map Message.kind_of fs)
         (PacketReader.of_packet pkt)
       = Returned fs
           (PacketReader.with_position (PacketReader.of_packet pkt) 26).
Proof.
  cbv zeta.
  destruct (built_packet_reads_back
    [Message.Uint32 (U32 305419896);
     Message.String (String.list_byte_of_string "Hello, World!");
     Message.Uint32 (U32 314159); Message.Uint8 (U8 255)] 9%nat DEFAULT_FLAGS)
    as (pkt & Hbuild & _ & _ & Hsize & _ & Hread & _).
  - repeat constructor; vm_compute; try discriminate; reflexivity.
  - vm_compute. discriminate.
  - exists pkt. split; [exact Hbuild|]. split; [exact Hsize|].
    rewrite Hread. now rewrite Hsize.
Defined.

(** ** The library flag (library.cpp) *)

Lemma engine_after_app (up : bool) (first later : list Library.EngineCall) :
  Library.engine_after up (first ++ later)
  = Library.engine_after up first ≫= fun up' => Library.engine_after up' later.
Proof.
  revert up. induction first as [|[rc|] rest IH]; intros up; cbn.
  - reflexivity.
  - destruct up; [reflexivity | apply IH].
  - destruct up; [apply IH | reflexivity].
Qed.

Lemma library_step_balanced (st : bool * list Library.EngineCall)
    (c : Library.call) :
  Library.engine_after false (snd st) = Some (fst st) ->
  Library.engine_after false (snd (Library.step st c))
  = Some (fst (Library.step st c)).
Proof.
  destruct st as [flag made]. cbn [fst snd]. intros Hbal.
  destruct c as [rc|]; unfold Library.step, Library.initialize,
    Library.deinitialize; cbn [fst snd].
  - destruct flag; [now rewrite app_nil_r|].
    case_bool_decide as Hrc; cbn [fst snd];
      rewrite engine_after_app, Hbal; cbn;
      [now rewrite bool_decide_eq_true_2 | now rewrite bool_decide_eq_false_2].
  - destruct flag; cbn [fst snd].
    + now rewrite engine_after_app, Hbal.
    + now rewrite app_nil_r.
Qed.

(** Whatever calls of [initialize] and [deinitialize] a program makes, in
    whatever order and whatever the engine answers, the layer drives the
    engine by its protocol and its flag tells the engine's state: the
    engine is initialised only while it is down and shut down only while
    it is up, and [isInitialized()] is true exactly when the engine's last
    initialisation succeeded and it has not been shut down since. So
    [initialize] on an initialised library and [deinitialize] on one that
    is not make no call and change nothing. *)
Theorem library_follows_engine (cs : list Library.call) :
  Library.engine_after false (snd (Library.run cs))
  = Some (Library.isInitialized (fst (Library.run cs)))
  /\ (forall rc, fst (Library.run cs) = true ->
        Library.run (cs ++ [Library.Initialize rc]) = Library.run cs)
  /\ (fst (Library.run cs) = false ->
        Library.run (cs ++ [Library.Deinitialize]) = Library.run cs)
  /\ (forall rc, fst (Library.run cs) = false ->
        fst (Library.run (cs ++ [Library.Initialize rc]))
        = bool_decide (rc = 0))
  /\ fst (Library.run (cs ++ [Library.Deinitialize])) = false.
Proof.
  assert (Hsnoc : forall c,
            Library.run (cs ++ [c]) = Library.step (Library.run cs) c)
    by (intros c; apply foldl_snoc).
  split; [|repeat split].
  - clear Hsnoc. unfold Library.run, Library.isInitialized.
    induction cs as [|c cs IH] using rev_ind; [reflexivity|].
    rewrite foldl_snoc. apply library_step_balanced, IH.
  - intros rc Hup. rewrite Hsnoc.
    destruct (Library.run cs) as [flag made]. cbn in Hup. subst flag.
    cbn. now rewrite app_nil_r.
  - intros Hdown. rewrite Hsnoc.
    destruct (Library.run cs) as [flag made]. cbn in Hdown. subst flag.
    cbn. now rewrite app_nil_r.
  - intros rc Hdown. rewrite Hsnoc.
    destruct (Library.run cs) as [flag made]. cbn in Hdown. subst flag.
    unfold Library.step, Library.initialize. cbn [fst snd].
    now case_bool_decide.
  - rewrite Hsnoc. destruct (Library.run cs) as [[|] made]; reflexivity.
Qed.

(** ** Peers *)

(** The four state predicates of a peer split the states: whatever its
    handle, at most one of [isConnected], [isConnecting],
    [isDisconnecting] and [isDisconnected] holds, and one of them does
    unless the state is zombie, which none of them covers. *)
Theorem peer_state_predicates (p : Peer.t) :
  (Nat.b2n (Peer.isConnected p) + Nat.b2n (Peer.isConnecting p)
   + Nat.b2n (Peer.isDisconnecting p) + Nat.b2n (Peer.isDisconnected p)
   = if bool_decide (Peer.state p = PeerState.zombie) then 0 else 1)%nat
  /\ (Peer.isConnecting p = true <->
      Peer.state p = PeerState.connecting
      \/ Peer.state p = PeerState.acknowledgingConnect
      \/ Peer.state p = PeerState.connectionPending
      \/ Peer.state p = PeerState.connectionSucceeded)
  /\ (Peer.isDisconnecting p = true <->
      Peer.state p = PeerState.disconnectLater
      \/ Peer.state p = PeerState.disconnecting
      \/ Peer.state p = PeerState.acknowledgingDisconnect)
  /\ (Peer.isConnected p = true <-> Peer.state p = PeerState.connected)
  /\ (Peer.isDisconnected p = true <-> Peer.state p = PeerState.disconnected).
Proof.
  unfold Peer.isConnected, Peer.isConnecting, Peer.isDisconnecting,
    Peer.isDisconnected.
  destruct (Peer.state p); cbn; repeat split;
    intros; try discriminate; try tauto; try done;
    repeat match goal with H : _ \/ _ |- _ => destruct H end;
    discriminate.
Qed.

(** [send] returns true exactly when the peer has a handle, a packet was
    given and the engine accepted it. With a handle and a packet the one
    call made is [enet_peer_send] on the peer with the packet's handle, and
    the layer destroys no packet, also when the engine refuses; the layer
    destroys the packet only when the peer has no handle. The overload
    without a channel sends on channel 0. The data overload throws exactly
    when the engine allocates no packet; otherwise it sends the new packet,
    and on a peer without a handle it destroys the packet it has just
    created. *)
Theorem send_outcomes (rc channel : Z) (pkt : unique_ptr Packet.t)
    (p : Peer.t) :
  (Peer.returned (Peer.send rc channel pkt p) = true
   <-> is_Some (Peer.nativePeer_ p) /\ is_Some pkt /\ rc = 0)
  /\ (forall peer wrapper,
        Peer.nativePeer_ p = Some peer -> pkt = Some wrapper ->
        Peer.calls (Peer.send rc channel pkt p)
        = [ENet.enet_peer_send (ENet.peer_addr peer) channel
             (ENet.packet_addr <$> Packet.nativeHandle wrapper)]
        /\ Peer.released (Peer.send rc channel pkt p) = Some wrapper)
  /\ (forall q,
        ENet.enet_packet_destroy q ∈ Peer.calls (Peer.send rc channel pkt p)
        <-> Peer.nativePeer_ p = None
            /\ exists wrapper native,
                 pkt = Some wrapper
                 /\ Packet.nativeHandle wrapper = Some native
                 /\ ENet.packet_addr native = q)
  /\ Peer.send0 rc pkt p = Peer.send rc 0 pkt p
  /\ (forall alloc packetData pflags,
        (Peer.send_data alloc rc channel packetData pflags p
         = inl "Failed to create ENet packet"%string <-> alloc = None)
        /\ forall where_,
             alloc = Some where_ ->
             exists r,
               Peer.send_data alloc rc channel packetData pflags p = inr r
               /\ (Peer.returned r = true
                   <-> is_Some (Peer.nativePeer_ p) /\ rc = 0)
               /\ Peer.calls r
                  = match Peer.nativePeer_ p with
                    | Some peer =>
                        [ENet.enet_peer_send (ENet.peer_addr peer) channel
                           (Some where_)]
                    | None => [ENet.enet_packet_destroy where_]
                    end).
Proof.
  split; [|split; [|split; [|split]]].
  - unfold Peer.send.
    destruct (Peer.nativePeer_ p) as [peer|], pkt as [wrapper|]; cbn;
      rewrite ?bool_decide_eq_true, ?is_Some_alt; intuition (try done).
  - intros peer wrapper Hpeer ->. unfold Peer.send. now rewrite Hpeer.
  - intros q. unfold Peer.send, unique_ptr_destroy, Packet.destroy,
      Packet.nativeHandle.
    destruct (Peer.nativePeer_ p) as [peer|], pkt as [[[native|]]|]; cbn;
      rewrite ?list_elem_of_singleton, ?elem_of_nil; split;
      try (intros Hq; (discriminate || contradiction));
      try (intros (Hnone & w & n & Hw & Hn & Hq); try discriminate;
           injection Hw as <-; cbn in Hn; try discriminate;
           injection Hn as <-; now subst).
    intros [= ->]. split; [reflexivity | eauto].
  - reflexivity.
  - intros alloc packetData pflags.
    unfold Peer.send_data, Packet.create, ENet.enet_packet_create.
    split.
    + destruct alloc; split; intros; (discriminate || reflexivity).
    + intros where_ ->. eexists. split; [reflexivity|].
      unfold Peer.send, unique_ptr_destroy, Packet.destroy. cbn.
      destruct (Peer.nativePeer_ p) as [peer|]; cbn;
        rewrite ?bool_decide_eq_true, ?is_Some_alt; intuition (try done).
Qed.

(** Moving a peer object hands over what it wraps: every member function
    of peer.cpp answers on the new object as it did on the source, with
    the same calls into the engine, and on the moved-from object it gives
    the answer of a peer without a handle and makes no call on a peer;
    the moved-from object has no host either. [fromNative] makes no
    object for a null engine peer, and otherwise one that wraps it. *)
Theorem peer_move_hands_over (o : Peer.op) (p : Peer.t) :
  Peer.run o (fst (Peer.move p)) = Peer.run o p
  /\ Peer.run o (snd (Peer.move p))
     = invalid_handle_answer o (snd (Peer.move p))
  /\ filter ENet.on_peer (snd (Peer.run o (snd (Peer.move p)))) = []
  /\ (forall alive, Peer.hostHandle alive (snd (Peer.move p)) = None)
  /\ (forall hostPtr, Peer.fromNative None hostPtr = None)
  /\ (forall native hostPtr,
        exists q, Peer.fromNative (Some native) hostPtr = Some q
                  /\ Peer.nativeHandle q = Some native
                  /\ Peer.state q = PeerState.static_cast (ENet.state native)
                  /\ Peer.host_ q = hostPtr).
Proof.
  split; [|split; [|split; [|split; [|split]]]].
  - destruct p as [native host_ userData_]. reflexivity.
  - destruct o; reflexivity.
  - destruct o; try reflexivity; cbn;
      unfold Peer.send0, Peer.send, unique_ptr_destroy, Packet.destroy; cbn;
      destruct pkt as [[[held|]]|]; reflexivity.
  - reflexivity.
  - reflexivity.
  - intros native hostPtr. eexists. split; [reflexivity|]. now cbn.
Qed.

(** ** Handlers of the other events, and clearing *)

Section CommandSequences.
Context {App : Type}.
Implicit Types (d : EventDispatcher.t App) (app : App).
Implicit Types (rs : list (@EventDispatcher.registration App)).
Implicit Types (cs : list (@EventDispatcher.command App)).

Lemma register_all_connect d rs :
  EventDispatcher.connectHandlers_ (EventDispatcher.register_all d rs)
  = EventDispatcher.connectHandlers_ d ++ EventDispatcher.connect_handlers rs.
Proof.
  revert d. induction rs as [|r rs IH]; intros d.
  - cbn. now rewrite app_nil_r.
  - rewrite register_all_cons, IH.
    destruct r; cbn; rewrite <- ?app_assoc; reflexivity.
Qed.

Lemma register_all_disconnect d rs :
  EventDispatcher.disconnectHandlers_ (EventDispatcher.register_all d rs)
  = EventDispatcher.disconnectHandlers_ d
    ++ EventDispatcher.disconnect_handlers rs.
Proof.
  revert d. induction rs as [|r rs IH]; intros d.
  - cbn. now rewrite app_nil_r.
  - rewrite register_all_cons, IH.
    destruct r; cbn; rewrite <- ?app_assoc; reflexivity.
Qed.

Lemma execute_all_since_clear d cs :
  EventDispatcher.execute_all d cs
  = EventDispatcher.register_all
      (if fst (EventDispatcher.since_clear cs) then EventDispatcher.new else d)
      (snd (EventDispatcher.since_clear cs)).
Proof.
  unfold EventDispatcher.execute_all, EventDispatcher.since_clear.
  induction cs as [|c cs IH] using rev_ind; [reflexivity|].
  rewrite !foldl_snoc, IH. destruct c as [r|]; cbn [fst snd].
  - unfold EventDispatcher.register_all. now rewrite foldl_snoc.
  - reflexivity.
Qed.

End CommandSequences.

(** Whatever registrations and calls of [clearHandlers] a program makes on
    a new dispatcher, in whatever order, the dispatcher is the one the
    registrations made since the last clearing alone give. A connect
    event then runs the connect handlers registered since, in the order
    they were registered, each on the state the previous one left, and no
    handler of another kind; a disconnect event likewise with the
    disconnect handlers; a receive event runs the global receive handlers
    and then those of its channel. Right after [clearHandlers] no event
    runs any handler. *)
Theorem dispatcher_after_commands (App : Type)
    (cs : list (@EventDispatcher.command App)) (app : App) :
  let d := EventDispatcher.execute_all EventDispatcher.new cs in
  let rs := snd (EventDispatcher.since_clear cs) in
  d = EventDispatcher.register_all EventDispatcher.new rs
  /\ (forall event,
        EventDispatcher.dispatchConnect d event app
        = EventDispatcher.in_sequence
            (EventDispatcher.connect_handlers rs) event app)
  /\ (forall event,
        EventDispatcher.dispatchDisconnect d event app
        = EventDispatcher.in_sequence
            (EventDispatcher.disconnect_handlers rs) event app)
  /\ (forall event,
        EventDispatcher.dispatchReceive d event app
        = EventDispatcher.in_sequence
            (EventDispatcher.global_receive rs
             ++ EventDispatcher.channel_receive
                  (ReceiveEvent.channel event) rs)
            event app)
  /\ (forall (d' : EventDispatcher.t App),
        (forall event,
           EventDispatcher.dispatchConnect
             (EventDispatcher.clearHandlers d') event app = app)
        /\ (forall event,
              EventDispatcher.dispatchDisconnect
                (EventDispatcher.clearHandlers d') event app = app)
        /\ (forall event,
              EventDispatcher.dispatchReceive
                (EventDispatcher.clearHandlers d') event app = app)).
Proof.
  intros d rs.
  assert (Hd : d = EventDispatcher.register_all EventDispatcher.new rs).
  { subst d rs. rewrite execute_all_since_clear.
    now destruct (fst (EventDispatcher.since_clear cs)). }
  split; [exact Hd|]. rewrite Hd. repeat split.
  - intros event. unfold EventDispatcher.dispatchConnect.
    now rewrite invoke_all_in_sequence, register_all_connect.
  - intros event. unfold EventDispatcher.dispatchDisconnect.
    now rewrite invoke_all_in_sequence, register_all_disconnect.
  - intros event.
    now rewrite dispatchReceive_order, register_all_global,
      register_all_channel.
Qed.

(** ** Calls on a Host *)

(** A Host without an engine host does nothing and reaches no engine:
    [service] returns 0 and leaves the world as it is, whatever the engine
    would have reported; [connect] throws "Invalid host" before the
    endpoint is resolved and registers nothing; [broadcast] makes no
    broadcast call and deletes the packet it was given; [flush] makes no
    call. *)
Theorem host_without_handle {App : Type} (owns : App -> nat -> bool)
    (w : Host.World App) (lookup : ENet.ENetAddress -> option string)
    (resolve : string -> option Z) (nativePeer : option ENet.ENetPeer)
    (remote : Endpoint.t) (result channel : Z) (event : ENet.ENetEvent)
    (pkt : unique_ptr Packet.t) :
  Host.nativeHost_ (Host.host w) = None ->
  Host.service owns lookup result event w = Returned (0, None) w
  /\ Host.connect resolve nativePeer remote w = Threw "Invalid host" w
  /\ Host.calls (Host.broadcast channel pkt (Host.host w))
     = unique_ptr_destroy pkt
  /\ Host.released (Host.broadcast channel pkt (Host.host w)) = None
  /\ Host.broadcast0 pkt (Host.host w) = Host.broadcast channel pkt (Host.host w)
  /\ Host.flush (Host.host w) = false.
Proof.
  intros Hnull.
  unfold Host.service, Host.connect, Host.broadcast0, Host.broadcast,
    Host.flush.
  rewrite Hnull. repeat split.
Qed.

Lemma host_without_handle_witness :
  let w : Host.World (list nat) :=
    {| Host.host := Host.create 0 None false; Host.heap := [];
       Host.app := []; Host.trace := [] |} in
  Host.connect (fun _ => Some 2130706433) (Some (engine_peer 1 4001))
    {| Endpoint.host := "localhost"; Endpoint.port := 4001 |} w
  = Threw "Invalid host" w.
Proof.
  cbv zeta.
  pose proof (host_without_handle keeps
    {| Host.host := Host.create 0 None false; Host.heap := [];
       Host.app := []; Host.trace := [] |}
    localhost (fun _ => Some 2130706433) (Some (engine_peer 1 4001))
    {| Endpoint.host := "localhost"; Endpoint.port := 4001 |} 1 0
    {| ENet.ev_type := ENet.ENET_EVENT_TYPE_NONE; ENet.ev_peer := None;
       ENet.ev_channelID := 0; ENet.ev_data := 0; ENet.ev_packet := None |}
    None eq_refl) as Hnull.
  exact (proj1 (proj2 Hnull)).
Defined.

(** [service] changes nothing unless the engine reports an event: when
    the engine's result is not positive (nothing happened within the
    timeout, or an error), when the event has the type none, or when the
    Host has no dispatcher, [service] returns the engine's result and the
    registry, the Peer objects, the application's state and the calls made
    are what they were; no handler runs, whatever is registered. *)
Theorem service_without_event {App : Type} (owns : App -> nat -> bool)
    (w : Host.World App) (lookup : ENet.ENetAddress -> option string)
    (result : Z) (event : ENet.ENetEvent) (nativeHost : nat) :
  Host.nativeHost_ (Host.host w) = Some nativeHost ->
  result <= 0
  \/ ENet.ev_type event = ENet.ENET_EVENT_TYPE_NONE
  \/ Host.dispatcher_ (Host.host w) = None ->
  Host.service owns lookup result event w = Returned (result, None) w.
Proof.
  intros Hhost Hidle. unfold Host.service, Host.processEvent.
  rewrite Hhost. case_bool_decide as Hresult; [|reflexivity].
  destruct Hidle as [Hle | [Hnone | Hd]]; [lia | |].
  - rewrite Hnone. now destruct (Host.dispatcher_ (Host.host w)).
  - now rewrite Hd.
Qed.

Lemma service_without_event_witness :
  Host.service keeps localhost 0
    {| ENet.ev_type := ENet.ENET_EVENT_TYPE_RECEIVE;
       ENet.ev_peer := Some (engine_peer 1 4001);
       ENet.ev_channelID := 0; ENet.ev_data := 0; ENet.ev_packet := None |}
    two_peer_server
  = Returned (0, None) two_peer_server.
Proof.
  apply (service_without_event keeps two_peer_server localhost 0 _ 9%nat).
  - reflexivity.
  - left. lia.
Defined.

(** [connect] registers a peer or changes nothing. It throws "Invalid
    host" without an engine host, "Failed to resolve hostname: " and the
    host name when the name does not resolve, and "Failed to initiate
    connection" when the engine gives no peer, each time leaving the
    world as it was. Otherwise it returns a shared pointer, never null,
    to a new Peer object that wraps the engine's peer and knows this
    Host; the object is the one new object, its entry the one new entry
    of the registry, at its end, and neither the application's state nor
    the calls made change. *)
Theorem connect_all_or_nothing {App : Type} (w : Host.World App) (resolve : string -> option Z)
    (nativePeer : option ENet.ENetPeer) (remote : Endpoint.t) :
  let run := Host.connect resolve nativePeer remote w in
  (Host.nativeHost_ (Host.host w) = None -> run = Threw "Invalid host" w)
  /\ (is_Some (Host.nativeHost_ (Host.host w)) ->
      resolve (Endpoint.host remote) = None ->
      run = Threw ("Failed to resolve hostname: " +:+ Endpoint.host remote) w)
  /\ (is_Some (Host.nativeHost_ (Host.host w)) ->
      is_Some (resolve (Endpoint.host remote)) ->
      nativePeer = None ->
      run = Threw "Failed to initiate connection" w)
  /\ (is_Some (Host.nativeHost_ (Host.host w)) ->
      is_Some (resolve (Endpoint.host remote)) ->
      is_Some nativePeer ->
      exists w',
        run = Returned (Some (length (Host.heap w))) w'
        /\ Host.heap w'
           = Host.heap w
             ++ [Peer.new nativePeer (Some (Host.self (Host.host w)))]
        /\ Host.peers_ (Host.host w')
           = Host.peers_ (Host.host w) ++ [length (Host.heap w)]
        /\ Peer.nativeHandle <$> Host.heap w' !! length (Host.heap w)
           = Some nativePeer
        /\ Host.app w' = Host.app w
        /\ Host.trace w' = Host.trace w
        /\ grows_from w w')
  /\ (forall what w', run = Threw what w' -> w' = w)
  /\ (forall peer w', run = Returned peer w' -> is_Some peer)
  /\ run <> Undefined.
Proof.
  intros run. subst run. unfold Host.connect, Endpoint.toEnetAddress.
  split; [intros ->; reflexivity|].
  split; [intros [nativeHost ->] ->; reflexivity|].
  split; [intros [nativeHost ->] [resolved ->] ->; reflexivity|].
  split.
  - intros [nativeHost ->] [resolved ->] [native ->]. cbn.
    eexists. split; [reflexivity|]. cbn.
    split; [reflexivity|]. split; [reflexivity|].
    split; [now rewrite lookup_snoc|].
    split; [reflexivity|]. split; [reflexivity|].
    unfold grows_from. cbn.
    split; [now apply prefix_app_r|].
    split; [reflexivity|]. repeat (split; [reflexivity|]).
    intros e [He | ->%list_elem_of_singleton]%elem_of_app; [now left|].
    right. lia.
  - destruct (Host.nativeHost_ (Host.host w)) as [nativeHost|],
      (resolve (Endpoint.host remote)) as [resolved|],
      nativePeer as [native|]; cbn; repeat split;
      try discriminate; try (intros ? ? [= _ <-]; reflexivity).
    intros peer w' [= <- _]. eauto.
Qed.

Lemma connect_all_or_nothing_witness :
  exists w',
    Host.connect (fun _ => Some 2130706433) (Some (engine_peer 3 4003))
      {| Endpoint.host := "localhost"; Endpoint.port := 4003 |}
      two_peer_server
    = Returned (Some 2%nat) w'
    /\ Host.peers_ (Host.host w') = [0; 1; 2]%nat.
Proof.
  pose proof (connect_all_or_nothing two_peer_server
    (fun _ => Some 2130706433) (Some (engine_peer 3 4003))
    {| Endpoint.host := "localhost"; Endpoint.port := 4003 |}) as Hconnect.
  cbv zeta in Hconnect.
  destruct Hconnect as (_ & _ & _ & Hok & _).
  destruct Hok as (w' & Hrun & _ & Hpeers & _); [eauto..|].
  exists w'. split; [exact Hrun | exact Hpeers].
Defined.

(** ** Events delivered *)

Section Delivery.
Context {App : Type} (owns : App -> nat -> bool).
Implicit Types (w : Host.World App) (objs : list Peer.t).


Lemma first_wrapping_some objs (nativePeer : option ENet.ENetPeer)
    (peers : list nat) (a : nat) :
  Host.first_wrapping objs nativePeer peers = Some a ->
  a ∈ peers /\ Host.wraps objs nativePeer a = true.
Proof.
  induction peers as [|e rest IH]; cbn; [discriminate|].
  destruct (Host.wraps objs nativePeer e) eqn:He.
  - intros [= <-]. split; [apply elem_of_cons; now left | exact He].
  - intros Hrest. destruct (IH Hrest) as [Hin Hwraps].
    split; [apply elem_of_cons; now right | exact Hwraps].
Qed.

End Delivery.

Section CallbackFacts.
Context {App : Type} (owns : App -> nat -> bool).
Implicit Types (w : Host.World App).



Lemma with_app_again w (first second : App) :
  Host.with_app (Host.with_app w first) second = Host.with_app w second.
Proof. reflexivity. Qed.

Lemma with_app_same w : Host.with_app w (Host.app w) = w.
Proof. now destruct w. Qed.

(** Handlers that only change the application's state run as the
    dispatcher of such handlers runs them. *)
Lemma invoke_all_of_pure {Event : Type}
    (handlers : list (EventDispatcher.Handler App Event)) (event : Event) w :
  Callbacks.invoke_all (Callbacks.of_pure <$> handlers) event w
  = Returned tt
      (Host.with_app w
         (EventDispatcher.invoke_all handlers event (Host.app w))).
Proof.
  unfold EventDispatcher.invoke_all. revert w.
  induction handlers as [|handler rest IH]; intros w; cbn.
  - now rewrite with_app_same.
  - unfold and_then, Callbacks.of_pure at 1. cbn. now rewrite IH.
Qed.

(** With handlers that only change the application's state, [service] is
    the [service] of the Host that holds their dispatcher. *)
Lemma service_of_pure_handlers (lookup : ENet.ENetAddress -> option string)
    (result : Z) (event : ENet.ENetEvent) w :
  Callbacks.service owns lookup
    (Callbacks.of_dispatcher <$> Host.dispatcher_ (Host.host w)) result event w
  = Host.service owns lookup result event w.
Proof.
  unfold Callbacks.service, Host.service, Callbacks.processEvent,
    Host.processEvent.
  destruct (Host.nativeHost_ (Host.host w)); [|reflexivity].
  case_bool_decide; [|reflexivity].
  destruct (Host.dispatcher_ (Host.host w)) as [d|]; [|reflexivity].
  cbn [fmap option_fmap option_map].
  destruct (ENet.ev_type event); [reflexivity| | |].
  - unfold Host.make_shared.
    destruct (Host.peer_address event); [|reflexivity].
    destruct (Endpoint.fromEnetAddress lookup _); [reflexivity|].
    unfold Callbacks.dispatchConnect, EventDispatcher.dispatchConnect.
    cbn [Callbacks.of_dispatcher Callbacks.connectHandlers_].
    now rewrite invoke_all_of_pure.
  - destruct (Host.findPeerByNative owns (ENet.ev_peer event) w)
      as [[found|] w1]; [|reflexivity].
    destruct (Host.peer_address event); [|reflexivity].
    destruct (Endpoint.fromEnetAddress lookup _); [reflexivity|].
    unfold Callbacks.dispatchDisconnect, EventDispatcher.dispatchDisconnect.
    cbn [Callbacks.of_dispatcher Callbacks.disconnectHandlers_].
    now rewrite invoke_all_of_pure.
  - destruct (Host.findPeerByNative owns (ENet.ev_peer event) w)
      as [[found|] w1]; [|reflexivity].
    destruct (ENet.ev_packet event) as [pkt|]; [|reflexivity].
    unfold Callbacks.dispatchReceive, EventDispatcher.dispatchReceive,
      and_then.
    cbn [Callbacks.of_dispatcher Callbacks.receiveHandlers_
         Callbacks.channelHandlers_].
    rewrite invoke_all_of_pure. cbn [bind_outcome].
    rewrite lookup_fmap.
    destruct (EventDispatcher.channelHandlers_ d !! _) as [handlers|]; cbn.
    + now rewrite invoke_all_of_pure.
    + reflexivity.
Qed.

End CallbackFacts.





(** When the engine cannot give the name of an event's peer, [service]
    throws "Failed to get hostname from address" and no handler runs. For
    a Connect event the new Peer object has been made and registered by
    then: the registry and the heap have grown by the wrapper, which no
    handler was told about. For a Disconnect event of a peer with a live
    wrapper only the expired entries have been erased. *)
Theorem event_lookup_failure {App : Type} (owns : App -> nat -> bool)
    (w : Host.World App) (lookup : ENet.ENetAddress -> option string)
    (result : Z) (event : ENet.ENetEvent) (nativeHost : nat)
    (d : EventDispatcher.t App) (native : ENet.ENetPeer) :
  Host.nativeHost_ (Host.host w) = Some nativeHost ->
  Host.dispatcher_ (Host.host w) = Some d ->
  result > 0 ->
  ENet.ev_peer event = Some native ->
  lookup (ENet.address native) = None ->
  (ENet.ev_type event = ENet.ENET_EVENT_TYPE_CONNECT ->
   exists w' : Host.World App,
     Host.service owns lookup result event w
     = Threw "Failed to get hostname from address" w'
     /\ Host.app w' = Host.app w
     /\ Host.trace w' = Host.trace w
     /\ Host.heap w'
        = Host.heap w
          ++ [Peer.new (Some native) (Some (Host.self (Host.host w)))]
     /\ Host.peers_ (Host.host w')
        = Host.peers_ (Host.host w) ++ [length (Host.heap w)])
  /\ (ENet.ev_type event = ENet.ENET_EVENT_TYPE_DISCONNECT ->
      forall a,
        a ∈ Host.peers_ (Host.host w) ->
        owns (Host.app w) a = true ->
        Host.wraps (Host.heap w) (Some native) a = true ->
        exists w' : Host.World App,
          Host.service owns lookup result event w
          = Threw "Failed to get hostname from address" w'
          /\ Host.app w' = Host.app w
          /\ Host.trace w' = Host.trace w
          /\ Host.heap w' = Host.heap w
          /\ Host.peers_ (Host.host w')
             = live_entries owns (Host.app w) (Host.peers_ (Host.host w))).
Proof.
  intros Hhost Hd Hresult Hpeer Hlookup.
  unfold Host.service, Host.processEvent, Host.findPeerByNative,
    Host.peer_address, Endpoint.fromEnetAddress, Host.make_shared.
  rewrite Hhost, Hd, Hpeer, bool_decide_eq_true_2 by exact Hresult.
  split; intros ->.
  - cbn. rewrite Hlookup. cbn. eexists. split; [reflexivity|].
    repeat split.
  - intros a Hin Hown Ha. rewrite getPeers_live.
    destruct (Host.first_wrapping (Host.heap w) (Some native)
                (live_entries owns (Host.app w) (Host.peers_ (Host.host w))))
      as [found|] eqn:Hfound.
    + cbn. rewrite Hlookup. cbn. eexists. split; [reflexivity|].
      repeat split.
    + exfalso.
      assert (Hlive : a ∈ live_entries owns (Host.app w)
                            (Host.peers_ (Host.host w)))
        by (unfold live_entries; apply list_elem_of_filter; now split).
      clear -Hfound Hlive Ha.
      induction (live_entries owns (Host.app w) (Host.peers_ (Host.host w)))
        as [|e rest IH]; [now apply not_elem_of_nil in Hlive|].
      cbn in Hfound.
      destruct (Host.wraps (Host.heap w) (Some native) e) eqn:He;
        [discriminate|].
      apply elem_of_cons in Hlive as [-> | Hrest]; [congruence | now apply IH].
Qed.

Lemma event_lookup_failure_witness :
  let event :=
    {| ENet.ev_type := ENet.ENET_EVENT_TYPE_CONNECT;
       ENet.ev_peer := Some (engine_peer 3 4003); ENet.ev_channelID := 0;
       ENet.ev_data := 0; ENet.ev_packet := None |} in
  exists w' : Host.World (list nat),
    Host.service keeps (fun _ => None) 1 event two_peer_server
    = Threw "Failed to get hostname from address" w'
    /\ Host.app w' = [0; 1]%nat
    /\ Host.peers_ (Host.host w') = [0; 1; 2]%nat.
Proof.
  cbv zeta.
  destruct (event_lookup_failure keeps two_peer_server (fun _ => None) 1
    {| ENet.ev_type := ENet.ENET_EVENT_TYPE_CONNECT;
       ENet.ev_peer := Some (engine_peer 3 4003); ENet.ev_channelID := 0;
       ENet.ev_data := 0; ENet.ev_packet := None |}
    9%nat
    (EventDispatcher.onReceive keep_sender
       (EventDispatcher.onConnect keep_peer EventDispatcher.new))
    (engine_peer 3 4003)) as [Hconnect _];
    try reflexivity; try lia.
  destruct (Hconnect eq_refl) as (w' & Hrun & Happ & _ & _ & Hpeers).
  exists w'. split; [exact Hrun|]. split; [exact Happ | exact Hpeers].
Defined.

(** ** Finding a peer by its endpoint *)

Section FindPeer.
Context {App : Type} (owns : App -> nat -> bool).
Implicit Types (w : Host.World App).

Lemma first_at_cases (lookup : ENet.ENetAddress -> option string)
    (remote : Endpoint.t) w (peers : list nat) :
  Forall (fun e => (e < length (Host.heap w))%nat) peers ->
  match Host.first_at lookup remote w peers with
  | Returned (Some a) w' =>
      w' = w
      /\ exists earlier later,
           peers = earlier ++ a :: later
           /\ is_at lookup remote (Host.heap w) a
           /\ Forall (is_elsewhere lookup remote (Host.heap w)) earlier
  | Returned None w' =>
      w' = w /\ Forall (is_elsewhere lookup remote (Host.heap w)) peers
  | Threw what w' =>
      w' = w /\ what = "Failed to get hostname from address"%string
      /\ exists a obj,
           a ∈ peers /\ Host.heap w !! a = Some obj
           /\ Peer.endpoint lookup obj = inl what
  | Undefined => False
  end.
Proof.
  induction 1 as [|a rest Ha Hrest IH]; cbn [Host.first_at].
  - split; [reflexivity | constructor].
  - apply lookup_lt_is_Some_2 in Ha as [obj Hobj]. rewrite Hobj.
    destruct (Peer.endpoint lookup obj) as [what|e] eqn:Hendpoint.
    + split; [reflexivity|]. split.
      * unfold Peer.endpoint, Endpoint.fromEnetAddress in Hendpoint.
        destruct (Peer.nativePeer_ obj); [|discriminate].
        destruct (lookup _); [discriminate|]. now injection Hendpoint as <-.
      * exists a, obj. split; [apply elem_of_cons; now left | now split].
    + destruct (bool_decide (Endpoint.host e = Endpoint.host remote)
                && bool_decide (Endpoint.port e = Endpoint.port remote))
        eqn:Hmatch.
      * apply andb_true_iff in Hmatch as [Hh%bool_decide_eq_true
                                            Hp%bool_decide_eq_true].
        split; [reflexivity|]. exists [], rest.
        split; [reflexivity|]. split; [|constructor].
        exists obj, e. repeat split; assumption.
      * assert (Helse : is_elsewhere lookup remote (Host.heap w) a).
        { exists obj, e. split; [exact Hobj|]. split; [exact Hendpoint|].
          intros [Hh Hp]. apply andb_false_iff in Hmatch as
            [Hno%bool_decide_eq_false | Hno%bool_decide_eq_false];
            contradiction. }
        destruct (Host.first_at lookup remote w rest) as [[found|] w'|what w'|];
          [| | |exact IH].
        -- destruct IH as (-> & earlier & later & -> & Hat & Hearlier).
           split; [reflexivity|]. exists (a :: earlier), later.
           split; [reflexivity|]. split; [exact Hat|].
           now constructor.
        -- destruct IH as [-> Hall]. split; [reflexivity | now constructor].
        -- destruct IH as (-> & -> & b & objb & Hin & Hb & Hthrow).
           split; [reflexivity|]. split; [reflexivity|].
           exists b, objb. split; [apply elem_of_cons; now right | now split].
Qed.

Lemma first_at_returns (lookup : ENet.ENetAddress -> option string)
    (remote : Endpoint.t) w (peers : list nat) :
  (forall addr, is_Some (lookup addr)) ->
  Forall (fun e => (e < length (Host.heap w))%nat) peers ->
  exists found, Host.first_at lookup remote w peers = Returned found w.
Proof.
  intros Hlookup Hpeers.
  pose proof (first_at_cases lookup remote w peers Hpeers) as Hcases.
  destruct (Host.first_at lookup remote w peers) as [found w'|what w'|];
    [| |contradiction].
  - exists found. destruct found; destruct Hcases as [-> _]; reflexivity.
  - exfalso. destruct Hcases as (_ & _ & a & obj & _ & _ & Hthrow).
    unfold Peer.endpoint, Endpoint.fromEnetAddress in Hthrow.
    destruct (Peer.nativePeer_ obj) as [native|]; [|discriminate].
    destruct (Hlookup (ENet.address native)) as [name Hname].
    rewrite Hname in Hthrow. discriminate.
Qed.

Lemma live_entries_in_heap w :
  Host.registry_ok w ->
  Forall (fun e => (e < length (Host.heap w))%nat)
    (live_entries owns (Host.app w) (Host.peers_ (Host.host w))).
Proof.
  intros [_ Hin]. unfold live_entries. apply Forall_forall.
  intros e [_ He]%list_elem_of_filter.
  rewrite Forall_forall in Hin. now apply Hin.
Qed.

End FindPeer.

(** [findPeer] gives the first live peer at the endpoint asked for. On a
    registry whose entries designate Peer objects, [findPeer] erases the
    expired entries as [getPeers] does and then: a pointer it returns is
    to the first entry the application still holds whose [endpoint()] has
    the host and the port asked for; it returns null only when every such
    entry is at another endpoint; it throws, "Failed to get hostname from
    address", only when the engine cannot name the address of an entry it
    had to compare; its behaviour is always defined, and it returns
    whenever the engine can name every address. *)
Theorem findPeer_first_match {App : Type} (owns : App -> nat -> bool)
    (w : Host.World App) (lookup : ENet.ENetAddress -> option string)
    (remote : Endpoint.t) :
  Host.registry_ok w ->
  let live := live_entries owns (Host.app w) (Host.peers_ (Host.host w)) in
  let pruned := snd (Host.getPeers owns w) in
  match Host.findPeer owns lookup remote w with
  | Returned (Some a) w' =>
      w' = pruned
      /\ exists earlier later,
           live = earlier ++ a :: later
           /\ is_at lookup remote (Host.heap w) a
           /\ Forall (is_elsewhere lookup remote (Host.heap w)) earlier
  | Returned None w' =>
      w' = pruned /\ Forall (is_elsewhere lookup remote (Host.heap w)) live
  | Threw what w' =>
      w' = pruned /\ what = "Failed to get hostname from address"%string
      /\ exists a obj,
           a ∈ live /\ Host.heap w !! a = Some obj
           /\ Peer.endpoint lookup obj = inl what
  | Undefined => False
  end
  /\ ((forall addr, is_Some (lookup addr)) ->
      exists found, Host.findPeer owns lookup remote w = Returned found pruned).
Proof.
  intros Hok live pruned. subst live pruned.
  unfold Host.findPeer. rewrite getPeers_live. cbn [snd].
  pose proof (live_entries_in_heap owns w Hok) as Hheap.
  split.
  - apply (first_at_cases lookup remote
             (Host.with_host w
                (Host.with_peers (Host.host w)
                   (live_entries owns (Host.app w)
                      (Host.peers_ (Host.host w)))))).
    exact Hheap.
  - intros Hlookup. now apply first_at_returns.
Qed.

Lemma findPeer_first_match_witness :
  exists found,
    Host.findPeer keeps localhost
      {| Endpoint.host := "127.0.0.1"; Endpoint.port := 4002 |}
      two_peer_server
    = Returned found (snd (Host.getPeers keeps two_peer_server)).
Proof.
  apply (findPeer_first_match keeps two_peer_server localhost
    {| Endpoint.host := "127.0.0.1"; Endpoint.port := 4002 |}).
  - split; [|repeat constructor].
    apply NoDup_cons. split; [|apply NoDup_singleton].
    intros [Heq | Hin]%elem_of_cons; [discriminate|].
    now apply not_elem_of_nil in Hin.
  - intros addr. now eexists.
Defined.

(** ** Programs on a Host *)

Section Programs.
Context {App : Type} (owns : App -> nat -> bool).
Implicit Types (w : Host.World App) (o : @Host.op App).
Implicit Types (ops : list (@Host.op App)).

Lemma grows_from_refl w : grows_from w w.
Proof. unfold grows_from. repeat split; try reflexivity. intros e He. now left. Qed.

Lemma grows_from_trans w1 w2 w3 :
  grows_from w1 w2 -> grows_from w2 w3 -> grows_from w1 w3.
Proof.
  intros (Hheap & Htrace & Hself & Hnative & Hrole & Hd & Hentries)
         (Hheap' & Htrace' & Hself' & Hnative' & Hrole' & Hd' & Hentries').
  unfold grows_from. repeat split; try (etransitivity; eassumption).
  intros e He. apply prefix_length in Hheap.
  destruct (Hentries' e He) as [Hold | Hnew]; [now apply Hentries|].
  right. lia.
Qed.

Lemma grows_from_pruned w :
  grows_from w (snd (Host.getPeers owns w)).
Proof.
  rewrite getPeers_live. unfold grows_from, live_entries. cbn.
  repeat split; try reflexivity.
  intros e [_ He]%list_elem_of_filter. now left.
Qed.

Lemma service_grows (lookup : ENet.ENetAddress -> option string)
    (result : Z) (event : ENet.ENetEvent) w (w' : Host.World App) :
  (exists v, Host.service owns lookup result event w = Returned v w')
  \/ (exists what, Host.service owns lookup result event w = Threw what w') ->
  grows_from w w'.
Proof.
  intros Hrun.
  pose proof (grows_from_refl w) as Hsame.
  pose proof (grows_from_pruned w) as Hpruned.
  rewrite getPeers_live in Hpruned. cbn [snd] in Hpruned.
  unfold Host.service, Host.processEvent, Host.findPeerByNative,
    Host.make_shared, bind_outcome in Hrun.
  rewrite getPeers_live in Hrun.
  repeat
    match type of Hrun with
    | context [match ?x with _ => _ end] =>
        lazymatch x with
        | context [match _ with _ => _ end] => fail
        | _ => destruct x
        end
    end;
    destruct Hrun as [[? Hrun] | [? Hrun]];
    try discriminate; injection Hrun as ? <-;
    try assumption;
    unfold grows_from, live_entries in *; cbn in *;
    repeat split; try reflexivity;
    try (now apply prefix_app_r);
    try (intros entry [_ Hentry]%list_elem_of_filter; now left);
    try (intros entry [Hentry | ->%list_elem_of_singleton]%elem_of_app;
         [now left | right; lia]).
Qed.

(** One call keeps the registry in order and only lets the world grow. *)
Lemma step_keeps w o (w' : Host.World App) :
  Host.registry_ok w -> Host.step owns w o = Some w' ->
  Host.registry_ok w' /\ grows_from w w'.
Proof.
  intros Hok. destruct o as [resolve nativePeer remote|lookup result event|
                             |lookup remote|code]; cbn [Host.step].
  - unfold Host.connect, Endpoint.toEnetAddress.
    destruct (Host.nativeHost_ (Host.host w)),
      (resolve (Endpoint.host remote)), nativePeer; cbn;
      intros [= <-]; try (split; [exact Hok | apply grows_from_refl]).
    split; [now apply registry_ok_push|].
    unfold grows_from. cbn. repeat split; try reflexivity.
    + now apply prefix_app_r.
    + intros entry [Hentry | ->%list_elem_of_singleton]%elem_of_app;
        [now left | right; lia].
  - destruct (Host.service owns lookup result event w) as [v w1|what w1|]
      eqn:Hrun; cbn; intros [= <-].
    + split; [eapply registry_ok_service; [exact Hok | left; eauto]
             | eapply service_grows; left; eauto].
    + split; [eapply registry_ok_service; [exact Hok | right; eauto]
             | eapply service_grows; right; eauto].
  - intros [= <-].
    split; [now apply registry_ok_getPeers | apply grows_from_pruned].
  - pose proof (first_at_cases lookup remote
                  (snd (Host.getPeers owns w))
                  (fst (Host.getPeers owns w))) as Hcases.
    unfold Host.findPeer. rewrite getPeers_live in *. cbn [fst snd] in *.
    specialize (Hcases (live_entries_in_heap owns w Hok)).
    pose proof (registry_ok_getPeers owns w Hok) as Hok'.
    pose proof (grows_from_pruned w) as Hgrows.
    rewrite getPeers_live in Hok', Hgrows. cbn [snd] in Hok', Hgrows.
    destruct (Host.first_at _ _ _ _) as [[found|] w1|what w1|];
      [| | |contradiction]; cbn; intros [= <-];
      destruct Hcases as [-> _]; now split.
  - intros [= <-]. split; [exact Hok|].
    unfold grows_from. cbn. repeat split; try reflexivity.
    intros entry Hentry. now left.
Qed.

(** A call whose event names its peer has a defined behaviour. *)
Lemma step_defined w o :
  Host.registry_ok w -> Host.names_peer o -> is_Some (Host.step owns w o).
Proof.
  intros Hok Hnames. destruct o as [resolve nativePeer remote|lookup result event|
                                    |lookup remote|code]; cbn [Host.step].
  - unfold Host.connect, Endpoint.toEnetAddress.
    destruct (Host.nativeHost_ (Host.host w)),
      (resolve (Endpoint.host remote)), nativePeer; cbn; eauto.
  - cbn in Hnames. destruct Hnames as [native Hpeer].
    unfold Host.service, Host.processEvent, Host.findPeerByNative,
      Host.peer_address, Host.make_shared, bind_outcome.
    rewrite getPeers_live, Hpeer. cbn.
    repeat
      match goal with
      | |- context [match ?x with _ => _ end] =>
          lazymatch x with
          | context [match _ with _ => _ end] => fail
          | _ => destruct x
          end
      end; cbn; eauto.
  - eauto.
  - pose proof (first_at_cases lookup remote
                  (snd (Host.getPeers owns w))
                  (fst (Host.getPeers owns w))) as Hcases.
    unfold Host.findPeer. rewrite getPeers_live in *. cbn [fst snd] in *.
    specialize (Hcases (live_entries_in_heap owns w Hok)).
    destruct (Host.first_at _ _ _ _) as [found w1|what w1|];
      [| |contradiction]; cbn; eauto.
  - eauto.
Qed.

Lemma run_keeps w ops (w' : Host.World App) :
  Host.registry_ok w -> Host.run owns w ops = Some w' ->
  Host.registry_ok w' /\ grows_from w w'.
Proof.
  revert w. induction ops as [|o rest IH]; intros w Hok; cbn [Host.run].
  - intros [= <-]. split; [exact Hok | apply grows_from_refl].
  - destruct (Host.step owns w o) as [w1|] eqn:Hstep; [|discriminate].
    intros Hrest. destruct (step_keeps w o w1 Hok Hstep) as [Hok1 Hgrows1].
    destruct (IH w1 Hok1 Hrest) as [Hok' Hgrows'].
    split; [exact Hok' | eapply grows_from_trans; eassumption].
Qed.

Lemma run_defined w ops :
  Host.registry_ok w -> Forall Host.names_peer ops ->
  is_Some (Host.run owns w ops).
Proof.
  intros Hok Hnames. revert w Hok.
  induction Hnames as [|o rest Ho _ IH]; intros w Hok; cbn [Host.run].
  - eauto.
  - destruct (step_defined w o Hok Ho) as [w1 Hstep]. rewrite Hstep.
    apply IH. now destruct (step_keeps w o w1 Hok Hstep).
Qed.

End Programs.

(** Whatever a program does with a Host, the registry stays in order and
    the world only grows. From a registry without repeated entries whose
    entries designate Peer objects, after any sequence of calls of
    [connect], [service], [getPeers] and [findPeer], returning or
    throwing and whatever the engine answers, with any application code
    in between, the registry still has no repeated entry and no entry
    without a Peer object; the Peer objects and the engine calls made
    before are still there, unchanged, in front of the new ones; the Host
    has the engine host, the role and the dispatcher it had; and every
    entry is an old one or designates an object made since. The behaviour
    of such a program is defined as long as every event the engine
    reports names its peer. *)
Theorem host_run_invariant {App : Type} (owns : App -> nat -> bool)
    (w : Host.World App) (ops : list (@Host.op App)) :
  Host.registry_ok w ->
  (forall w', Host.run owns w ops = Some w' ->
     Host.registry_ok w' /\ grows_from w w'
     /\ Host.isServer (Host.host w') = Host.isServer (Host.host w)
     /\ Host.isClient (Host.host w') = negb (Host.isServer (Host.host w))
     /\ Host.peerCount owns w'
        <= Z.of_nat (length (Host.peers_ (Host.host w')))
     /\ Z.of_nat (length (Host.peers_ (Host.host w')))
        <= Z.of_nat (length (Host.heap w')))
  /\ (Forall Host.names_peer ops -> is_Some (Host.run owns w ops)).
Proof.
  intros Hok. split; [|now apply run_defined].
  intros w' Hrun. destruct (run_keeps owns w ops w' Hok Hrun) as [Hok' Hgrows].
  split; [exact Hok'|]. split; [exact Hgrows|].
  destruct Hgrows as (_ & _ & _ & _ & Hrole & _).
  unfold Host.isServer, Host.isClient. rewrite Hrole.
  split; [reflexivity|]. split; [reflexivity|]. split.
  - rewrite peerCount_live. unfold live_entries.
    apply inj_le, length_filter.
  - destruct Hok' as [Hnodup Hin]. apply inj_le.
    rewrite <- (length_seq (length (Host.heap w')) 0).
    apply submseteq_length, NoDup_submseteq; [exact Hnodup|].
    intros e He. rewrite Forall_forall in Hin.
    apply elem_of_seq. specialize (Hin e He). lia.
Qed.

Lemma host_run_invariant_witness :
  let program : list (@Host.op (list nat)) :=
    [Host.Service localhost 1
       {| ENet.ev_type := ENet.ENET_EVENT_TYPE_CONNECT;
          ENet.ev_peer := Some (engine_peer 3 4003); ENet.ev_channelID := 0;
          ENet.ev_data := 0; ENet.ev_packet := None |};
     Host.Application (fun held => filter (fun a => a <> 0%nat) held);
     Host.GetPeers;
     Host.Connect (fun _ => Some 2130706433) (Some (engine_peer 4 4004))
       {| Endpoint.host := "localhost"; Endpoint.port := 4004 |}] in
  is_Some (Host.run keeps two_peer_server program).
Proof.
  cbv zeta.
  apply (host_run_invariant keeps two_peer_server).
  - split; [|repeat constructor].
    apply NoDup_cons. split; [|apply NoDup_singleton].
    intros [Heq | Hin]%elem_of_cons; [discriminate|].
    now apply not_elem_of_nil in Hin.
  - repeat constructor. now eexists.
Defined.

(** ** What a builder holds *)

(** A builder only appends, and where a field lands depends on nothing
    but the number of bytes in front of it: after writing any fields the
    buffer is what it was followed by the bytes the same fields give in a
    new builder, so earlier bytes never change and the fields of two
    messages written one after the other are laid out as in one message.
    [empty()] holds exactly when [size()] is 0; [clear()] leaves an empty
    builder that behaves as a new one; the span [data()] gives is the
    buffer. *)
Theorem builder_appends (b : PacketBuilder.t) (fs gs : list Message.field) :
  PacketBuilder.buffer_ (Message.write_fields b fs)
  = PacketBuilder.buffer_ b
    ++ PacketBuilder.buffer_ (Message.write_fields PacketBuilder.new fs)
  /\ PacketBuilder.buffer_ b
     `prefix_of` PacketBuilder.buffer_ (Message.write_fields b fs)
  /\ Message.write_fields (Message.write_fields b fs) gs
     = Message.write_fields b (fs ++ gs)
  /\ PacketBuilder.size (Message.write_fields b (fs ++ gs))
     = PacketBuilder.size b + Message.size_of fs + Message.size_of gs
  /\ (PacketBuilder.empty b = true <-> PacketBuilder.size b = 0)
  /\ PacketBuilder.empty (PacketBuilder.clear b) = true
  /\ Message.write_fields (PacketBuilder.clear b) fs
     = Message.write_fields PacketBuilder.new fs
  /\ PacketBuilder.data (Message.write_fields b fs)
     = PacketBuilder.data b ++ Message.bytes_of fs.
Proof.
  split; [|split; [|split; [|split; [|split; [|split; [|split]]]]]].
  - now rewrite !write_fields_bytes.
  - rewrite write_fields_bytes. now apply prefix_app_r.
  - unfold Message.write_fields. now rewrite foldl_app.
  - unfold Message.write_fields, PacketBuilder.size. rewrite foldl_app.
    fold (Message.write_fields b fs).
    fold (Message.write_fields (Message.write_fields b fs) gs).
    rewrite !write_fields_bytes, !length_app, !Nat2Z.inj_add,
      !length_bytes_of. lia.
  - unfold PacketBuilder.empty, PacketBuilder.size.
    rewrite bool_decide_eq_true. destruct (PacketBuilder.buffer_ b); cbn;
      split; intros; (reflexivity || discriminate || lia).
  - reflexivity.
  - reflexivity.
  - unfold PacketBuilder.data. apply write_fields_bytes.
Qed.
